(** * DigDug (tunnel edition): a shallow embedding of [src/main.cpp]

    The development follows the layout of the C++ file: the grid
    constants, the [Tunnel] structure with its two geometric predicates,
    the two enemy classes, and the [World] with tunnel generation, tunnel
    activation and the collision part of the frame update.

    Conventions.
    - A C++ [int] is a [Z].  Signed overflow is undefined behaviour in
      C++, so no wrap-around is written; every integer the program builds
      from the grid is below [2^11].
    - A C++ [float] is an IEEE 754 binary32 number, taken from the
      Standard Library's [SpecFloat] at precision 24 and maximal exponent
      128, with round-to-nearest-even.
    - A [Tunnel*] into [World::tunnels] is the index of the element, and
      [nullptr] is [None].
    - [rand()] is the sequence of the values it returns, together with
      the number of calls made so far. *)

From Stdlib Require Import ZArith Lia Bool List.
From Stdlib Require Import Floats.SpecFloat.
From stdpp Require Import base list.

Local Open Scope Z_scope.

(* ------------------------------------------------------------------ *)
(** ** binary32 arithmetic *)
(* ------------------------------------------------------------------ *)

Module F32.

Definition prec : Z := 24.
Definition emax : Z := 128.

Definition float := spec_float.

(** [m * 2^e], rounded to binary32. *)
Definition of_dyadic (m e : Z) : float := binary_normalize prec emax m e false.

(** The conversion [(float) z] of an [int]. *)
Definition of_int (z : Z) : float := of_dyadic z 0.

Definition add : float -> float -> float := SFadd prec emax.
Definition sub : float -> float -> float := SFsub prec emax.
Definition mul : float -> float -> float := SFmul prec emax.
Definition div : float -> float -> float := SFdiv prec emax.

Definition ltb : float -> float -> bool := SFltb.
Definition gtb (x y : float) : bool := SFltb y x.
Definition eqb : float -> float -> bool := SFeqb.
(** C++ [x != y]: true as soon as one side is a NaN. *)
Definition neqb (x y : float) : bool := negb (SFeqb x y).

Definition INT_MIN : Z := - 2 ^ 31.
Definition INT_MAX : Z := 2 ^ 31 - 1.

(** [static_cast<int>(x)]: truncation toward zero.  The conversion of
    a NaN, of an infinity or of a value outside the range of [int] is
    undefined behaviour: [None]. *)
Definition to_int (x : float) : option Z :=
  match x with
  | S754_zero _ => Some 0
  | S754_finite s m e =>
      let a := match e with
               | Zneg p => Z.shiftr (Zpos m) (Zpos p)
               | _ => Z.shiftl (Zpos m) e
               end in
      let z := if s then - a else a in
      if (INT_MIN <=? z) && (z <=? INT_MAX) then Some z else None
  | _ => None
  end.

(** The literals of the source. *)
Definition lit_0_5 : float := of_dyadic 1 (-1).       (* 0.5f *)
Definition lit_1_2 : float := div (of_int 12) (of_int 10). (* 1.2f *)
Definition lit_1_5 : float := of_dyadic 3 (-1).       (* 1.5f *)
Definition lit_2_0 : float := of_int 2.               (* 2.0f *)

End F32.

(* ------------------------------------------------------------------ *)
(** ** Grid and constants *)
(* ------------------------------------------------------------------ *)

Definition TILE_SIZE : Z := 32.
Definition GRID_WIDTH : Z := 25.
Definition GRID_HEIGHT : Z := 18.

Definition SCREEN_W : Z := GRID_WIDTH * TILE_SIZE.
Definition SCREEN_H : Z := GRID_HEIGHT * TILE_SIZE.

Definition START_LIVES : Z := 3.
Definition RESPAWN_DELAY : Z := 180.
Definition DEATH_FLASH_TIME : Z := 30.

Inductive TunnelDirection := HORIZONTAL | VERTICAL | NONE.

(* ------------------------------------------------------------------ *)
(** ** Tunnel *)
(* ------------------------------------------------------------------ *)

Module Tunnel.

Record t := mk {
  startX : Z;
  startY : Z;
  length : Z;
  direction : TunnelDirection;
  dug : bool;
  activated : bool
}.

(** The constructor [Tunnel(x, y, len, dir)]; [dug] and [activated]
    take their default member initialisers. *)
Definition new (x y len : Z) (dir : TunnelDirection) : t :=
  mk x y len dir true false.

Definition set_activated (b : bool) (tn : t) : t :=
  mk (startX tn) (startY tn) (length tn) (direction tn) (dug tn) b.

Definition Contains (tn : t) (x y : Z) : bool :=
  match direction tn with
  | HORIZONTAL =>
      (y =? startY tn) && (startX tn <=? x) && (x <? startX tn + length tn)
  | VERTICAL =>
      (x =? startX tn) && (startY tn <=? y) && (y <? startY tn + length tn)
  | NONE => false
  end.

Definition Intersects (tn other : t) : bool :=
  match direction tn, direction other with
  | HORIZONTAL, HORIZONTAL =>
      if negb (startY tn =? startY other) then false
      else negb ((startX tn + length tn <=? startX other)
                 || (startX other + length other <=? startX tn))
  | VERTICAL, VERTICAL =>
      if negb (startX tn =? startX other) then false
      else negb ((startY tn + length tn <=? startY other)
                 || (startY other + length other <=? startY tn))
  | HORIZONTAL, _ =>
      ((startX tn <=? startX other) && (startX other <? startX tn + length tn))
      && ((startY other <=? startY tn) && (startY tn <? startY other + length other))
  | _, _ =>
      ((startX other <=? startX tn) && (startX tn <? startX other + length other))
      && ((startY tn <=? startY other) && (startY other <? startY tn + length tn))
  end.

End Tunnel.

(* ------------------------------------------------------------------ *)
(** ** raylib value types *)
(* ------------------------------------------------------------------ *)

Module Vector2.
Record t := mk { x : F32.float; y : F32.float }.
End Vector2.

Module Rectangle.
Record t := mk {
  x : F32.float;
  y : F32.float;
  width : F32.float;
  height : F32.float
}.
End Rectangle.

Definition MakeNormalizedRect (x y w h : F32.float) : Rectangle.t :=
  let '(x1, w1) :=
    if F32.ltb w (F32.of_int 0)
    then (F32.add x w, F32.mul w (F32.of_int (-1)))
    else (x, w) in
  let '(y1, h1) :=
    if F32.ltb h (F32.of_int 0)
    then (F32.add y h, F32.mul h (F32.of_int (-1)))
    else (y, h) in
  Rectangle.mk x1 y1 w1 h1.

(** The tile index [static_cast<int>(p) / TILE_SIZE] used by the patrol
    code: the cast truncates, then the integers are divided. *)
Definition grid_of_pixel (p : F32.float) : option Z :=
  ix ← F32.to_int p; Some (Z.quot ix TILE_SIZE).

(** The tile index [static_cast<int>(p / TILE_SIZE)] used for the
    player: the division is a float division, then the cast truncates. *)
Definition tile_of_pixel (p : F32.float) : option Z :=
  F32.to_int (F32.div p (F32.of_int TILE_SIZE)).

(* ------------------------------------------------------------------ *)
(** ** Game objects *)
(* ------------------------------------------------------------------ *)

(** [size], [speed] and [chaseSpeed] are data members with a default
    initialiser that no statement of the program assigns: they are
    constants of their class here. *)

Module Monster.

Definition size : Z := TILE_SIZE.
Definition speed : F32.float := F32.lit_0_5.
Definition chaseSpeed : F32.float := F32.lit_1_2.

Record t := mk {
  pos : Vector2.t;
  alive : bool;
  inTunnel : bool;
  chasing : bool;
  homeTunnel : option nat;
  direction : Z
}.

Definition new (x y : Z) (tunnel : option nat) : t :=
  mk (Vector2.mk (F32.of_int x) (F32.of_int y)) true true false tunnel 1.

Definition set_alive (b : bool) (m : t) : t :=
  mk (pos m) b (inTunnel m) (chasing m) (homeTunnel m) (direction m).

(** [inTunnel = false; chasing = true]. *)
Definition alert (m : t) : t :=
  mk (pos m) (alive m) false true (homeTunnel m) (direction m).

(** One patrol step.  [None] is undefined behaviour: [homeTunnel] is
    null or dangling, or the position does not convert to an [int]. *)
Definition MoveInTunnel (tunnels : list Tunnel.t) (m : t) : option t :=
  if negb (alive m) || negb (inTunnel m) then Some m
  else
    h ← (i ← homeTunnel m; tunnels !! i);
    match Tunnel.direction h with
    | HORIZONTAL =>
        let px := F32.add (Vector2.x (pos m))
                          (F32.mul speed (F32.of_int (direction m))) in
        gridX ← grid_of_pixel px;
        let d := if (gridX <=? Tunnel.startX h)
                    || (gridX >=? Tunnel.startX h + Tunnel.length h - 1)
                 then direction m * -1 else direction m in
        Some (mk (Vector2.mk px (Vector2.y (pos m)))
                 (alive m) (inTunnel m) (chasing m) (homeTunnel m) d)
    | _ =>
        let py := F32.add (Vector2.y (pos m))
                          (F32.mul speed (F32.of_int (direction m))) in
        gridY ← grid_of_pixel py;
        let d := if (gridY <=? Tunnel.startY h)
                    || (gridY >=? Tunnel.startY h + Tunnel.length h - 1)
                 then direction m * -1 else direction m in
        Some (mk (Vector2.mk (Vector2.x (pos m)) py)
                 (alive m) (inTunnel m) (chasing m) (homeTunnel m) d)
    end.

Definition MoveTowards (target : Vector2.t) (m : t) : t :=
  if negb (alive m) || inTunnel m then m
  else
    let currentSpeed := if chasing m then chaseSpeed else speed in
    let px := Vector2.x (pos m) in
    let py := Vector2.y (pos m) in
    let px' := if F32.gtb (Vector2.x target) px then F32.add px currentSpeed
               else if F32.ltb (Vector2.x target) px then F32.sub px currentSpeed
               else px in
    let py' := if F32.gtb (Vector2.y target) py then F32.add py currentSpeed
               else if F32.ltb (Vector2.y target) py then F32.sub py currentSpeed
               else py in
    mk (Vector2.mk px' py')
       (alive m) (inTunnel m) (chasing m) (homeTunnel m) (direction m).

Definition Bounds (m : t) : Rectangle.t :=
  Rectangle.mk (Vector2.x (pos m)) (Vector2.y (pos m))
               (F32.of_int size) (F32.of_int size).

End Monster.

Module Dragon.

Definition size : Z := TILE_SIZE.
Definition speed : F32.float := F32.lit_0_5.
Definition chaseSpeed : F32.float := F32.lit_1_5.

Record t := mk {
  pos : Vector2.t;
  alive : bool;
  inTunnel : bool;
  chasing : bool;
  homeTunnel : option nat;
  direction : Z
}.

Definition new (x y : Z) (tunnel : option nat) : t :=
  mk (Vector2.mk (F32.of_int x) (F32.of_int y)) true true false tunnel 1.

Definition set_alive (b : bool) (d : t) : t :=
  mk (pos d) b (inTunnel d) (chasing d) (homeTunnel d) (direction d).

Definition alert (d : t) : t :=
  mk (pos d) (alive d) false true (homeTunnel d) (direction d).

Definition MoveInTunnel (tunnels : list Tunnel.t) (d : t) : option t :=
  if negb (alive d) || negb (inTunnel d) then Some d
  else
    h ← (i ← homeTunnel d; tunnels !! i);
    match Tunnel.direction h with
    | HORIZONTAL =>
        let px := F32.add (Vector2.x (pos d))
                          (F32.mul speed (F32.of_int (direction d))) in
        gridX ← grid_of_pixel px;
        let dir := if (gridX <=? Tunnel.startX h)
                      || (gridX >=? Tunnel.startX h + Tunnel.length h - 1)
                   then direction d * -1 else direction d in
        Some (mk (Vector2.mk px (Vector2.y (pos d)))
                 (alive d) (inTunnel d) (chasing d) (homeTunnel d) dir)
    | _ =>
        let py := F32.add (Vector2.y (pos d))
                          (F32.mul speed (F32.of_int (direction d))) in
        gridY ← grid_of_pixel py;
        let dir := if (gridY <=? Tunnel.startY h)
                      || (gridY >=? Tunnel.startY h + Tunnel.length h - 1)
                   then direction d * -1 else direction d in
        Some (mk (Vector2.mk (Vector2.x (pos d)) py)
                 (alive d) (inTunnel d) (chasing d) (homeTunnel d) dir)
    end.

Definition MoveTowards (target : Vector2.t) (d : t) : t :=
  if negb (alive d) || inTunnel d then d
  else
    let currentSpeed := if chasing d then chaseSpeed else speed in
    let px := Vector2.x (pos d) in
    let py := Vector2.y (pos d) in
    let px' := if F32.gtb (Vector2.x target) px then F32.add px currentSpeed
               else if F32.ltb (Vector2.x target) px then F32.sub px currentSpeed
               else px in
    let py' := if F32.gtb (Vector2.y target) py then F32.add py currentSpeed
               else if F32.ltb (Vector2.y target) py then F32.sub py currentSpeed
               else py in
    mk (Vector2.mk px' py')
       (alive d) (inTunnel d) (chasing d) (homeTunnel d) (direction d).

Definition Bounds (d : t) : Rectangle.t :=
  Rectangle.mk (Vector2.x (pos d)) (Vector2.y (pos d))
               (F32.of_int size) (F32.of_int size).

End Dragon.

Module Player.

Definition size : Z := TILE_SIZE.
Definition speed : F32.float := F32.lit_2_0.

Record t := mk {
  pos : Vector2.t;
  alive : bool;
  lives : Z;
  hasHarpoon : bool;
  harpoonDir : Vector2.t;
  harpoonTimer : Z;
  score : Z;
  deathFlashTimer : Z
}.

Definition set_alive (b : bool) (p : t) : t :=
  mk (pos p) b (lives p) (hasHarpoon p) (harpoonDir p) (harpoonTimer p)
     (score p) (deathFlashTimer p).

Definition set_score (s : Z) (p : t) : t :=
  mk (pos p) (alive p) (lives p) (hasHarpoon p) (harpoonDir p)
     (harpoonTimer p) s (deathFlashTimer p).

Definition set_lives (l : Z) (p : t) : t :=
  mk (pos p) (alive p) l (hasHarpoon p) (harpoonDir p) (harpoonTimer p)
     (score p) (deathFlashTimer p).

Definition set_deathFlashTimer (n : Z) (p : t) : t :=
  mk (pos p) (alive p) (lives p) (hasHarpoon p) (harpoonDir p)
     (harpoonTimer p) (score p) n.

Definition ResetTo (x y : Z) (p : t) : t :=
  mk (Vector2.mk (F32.of_int x) (F32.of_int y)) true (lives p) false
     (Vector2.mk (F32.of_int 1) (F32.of_int 0)) 0 (score p) 0.

Definition Bounds (p : t) : Rectangle.t :=
  Rectangle.mk (Vector2.x (pos p)) (Vector2.y (pos p))
               (F32.of_int size) (F32.of_int size).

End Player.

Module Fruit.

Definition size : Z := TILE_SIZE.

Record t := mk { pos : Vector2.t; collected : bool }.

Definition Bounds (f : t) : Rectangle.t :=
  Rectangle.mk (Vector2.x (pos f)) (Vector2.y (pos f))
               (F32.of_int size) (F32.of_int size).

End Fruit.

(* ------------------------------------------------------------------ *)
(** ** Game state *)
(* ------------------------------------------------------------------ *)

Inductive GameState := SPLASH | PLAYING | GAMEOVER | WIN.

(** [while (cond) body], with a bound on the number of tests of the
    condition; [None] when the bound is reached. *)
Fixpoint while {St : Type} (fuel : nat) (cond : St -> bool) (body : St -> St)
    (s : St) : option St :=
  match fuel with
  | O => None
  | S fuel' => if cond s then while fuel' cond body (body s) else Some s
  end.

Module World.

(** The [dug] mask is written by [ResetLevel] and by the frame update
    and read by the drawing code only; it is left out. *)
Record t := mk {
  player : Player.t;
  monsters : list Monster.t;
  dragons : list Dragon.t;
  tunnels : list Tunnel.t;
  fruit : Fruit.t;
  state : GameState;
  highScore : Z;
  respawnTimer : Z
}.

Definition set_player (p : Player.t) (w : t) : t :=
  mk p (monsters w) (dragons w) (tunnels w) (fruit w) (state w)
     (highScore w) (respawnTimer w).

Definition set_state (s : GameState) (w : t) : t :=
  mk (player w) (monsters w) (dragons w) (tunnels w) (fruit w) s
     (highScore w) (respawnTimer w).

Definition set_highScore (h : Z) (w : t) : t :=
  mk (player w) (monsters w) (dragons w) (tunnels w) (fruit w) (state w)
     h (respawnTimer w).

Definition set_respawnTimer (n : Z) (w : t) : t :=
  mk (player w) (monsters w) (dragons w) (tunnels w) (fruit w) (state w)
     (highScore w) n.

(** [highscore.txt] is [Some n] when the file holds [n] and [None]
    when it does not exist; [out_ok] tells whether the output stream
    could be opened. *)
Definition SaveHighScore (out_ok : bool) (file : option Z) (w : t)
    : t * option Z :=
  if Player.score (player w) >? highScore w then
    let w' := set_highScore (Player.score (player w)) w in
    (w', if out_ok then Some (highScore w') else file)
  else (w, file).

(** The first half of [IsValidTunnel]: the bounds. *)
Definition out_of_bounds (newTunnel : Tunnel.t) : bool :=
  match Tunnel.direction newTunnel with
  | HORIZONTAL =>
      (Tunnel.startX newTunnel <? 1)
      || (Tunnel.startX newTunnel + Tunnel.length newTunnel >=? GRID_WIDTH - 1)
      || (Tunnel.startY newTunnel <? 1)
      || (Tunnel.startY newTunnel >=? GRID_HEIGHT - 1)
  | _ =>
      (Tunnel.startX newTunnel <? 1)
      || (Tunnel.startX newTunnel >=? GRID_WIDTH - 1)
      || (Tunnel.startY newTunnel <? 1)
      || (Tunnel.startY newTunnel + Tunnel.length newTunnel >=? GRID_HEIGHT - 1)
  end.

(** The second half: the loop over the existing tunnels. *)
Fixpoint no_intersection (newTunnel : Tunnel.t) (ts : list Tunnel.t) : bool :=
  match ts with
  | [] => true
  | tunnel :: rest =>
      if Tunnel.Intersects newTunnel tunnel then false
      else no_intersection newTunnel rest
  end.

Definition IsValidTunnel (ts : list Tunnel.t) (newTunnel : Tunnel.t) : bool :=
  if out_of_bounds newTunnel then false else no_intersection newTunnel ts.

Section Generation.

(** [rand_seq k] is the value of the [k]-th call of [rand()] since the
    start of the process; [rand()] returns a value of [0 .. RAND_MAX]. *)
Variable rand_seq : nat -> N.

Definition rand (calls : nat) : Z * nat := (Z.of_N (rand_seq calls), S calls).

(** The state of the two loops of [CreateTunnels]. *)
Record gen := mkgen {
  gen_tunnels : list Tunnel.t;
  gen_attempts : Z;
  gen_calls : nat
}.

Definition horizontal_cond (g : gen) : bool :=
  (Z.of_nat (List.length (gen_tunnels g)) <? 4) && (gen_attempts g <? 50).

Definition horizontal_body (g : gen) : gen :=
  let '(r1, c1) := rand (gen_calls g) in
  let x := Z.rem r1 (GRID_WIDTH - 10) + 2 in
  let '(r2, c2) := rand c1 in
  let y := Z.rem r2 (GRID_HEIGHT - 4) + 2 in
  let '(r3, c3) := rand c2 in
  let length := Z.rem r3 5 + 4 in
  let newTunnel := Tunnel.new x y length HORIZONTAL in
  let ts := if IsValidTunnel (gen_tunnels g) newTunnel
            then gen_tunnels g ++ [newTunnel] else gen_tunnels g in
  mkgen ts (gen_attempts g + 1) c3.

Definition vertical_cond (g : gen) : bool :=
  (Z.of_nat (List.length (gen_tunnels g)) <? 8) && (gen_attempts g <? 50).

Definition vertical_body (g : gen) : gen :=
  let '(r1, c1) := rand (gen_calls g) in
  let x := Z.rem r1 (GRID_WIDTH - 4) + 2 in
  let '(r2, c2) := rand c1 in
  let y := Z.rem r2 (GRID_HEIGHT - 10) + 2 in
  let '(r3, c3) := rand c2 in
  let length := Z.rem r3 5 + 4 in
  let newTunnel := Tunnel.new x y length VERTICAL in
  let ts := if IsValidTunnel (gen_tunnels g) newTunnel
            then gen_tunnels g ++ [newTunnel] else gen_tunnels g in
  mkgen ts (gen_attempts g + 1) c3.

(** The first loop, from [tunnels.clear()] and [attempts = 0]. *)
Definition horizontal_phase (fuel calls : nat) : option gen :=
  while fuel horizontal_cond horizontal_body (mkgen [] 0 calls).

(** The second loop, from the tunnels of the first and [attempts = 0]. *)
Definition vertical_phase (fuel : nat) (g : gen) : option gen :=
  while fuel vertical_cond vertical_body
        (mkgen (gen_tunnels g) 0 (gen_calls g)).

(** [CreateTunnels]: the new value of [tunnels] and the number of
    calls of [rand()] made so far. *)
Definition CreateTunnels (fuel calls : nat) : option (list Tunnel.t * nat) :=
  g1 ← horizontal_phase fuel calls;
  g2 ← vertical_phase fuel g1;
  Some (gen_tunnels g2, gen_calls g2).

(** The pixel position [ResetLevel] gives to the enemy of a tunnel. *)
Definition spawn_point (tunnel : Tunnel.t) : Z * Z :=
  match Tunnel.direction tunnel with
  | HORIZONTAL =>
      ((Tunnel.startX tunnel + Z.quot (Tunnel.length tunnel) 2) * TILE_SIZE,
       Tunnel.startY tunnel * TILE_SIZE)
  | _ =>
      (Tunnel.startX tunnel * TILE_SIZE,
       (Tunnel.startY tunnel + Z.quot (Tunnel.length tunnel) 2) * TILE_SIZE)
  end.

(** The loop of [ResetLevel] that places the monsters; [i] is the
    index of the first tunnel of [ts] in [World::tunnels]. *)
Fixpoint place_monsters (i : nat) (ts : list Tunnel.t)
    (ms : list Monster.t) (calls : nat) : list Monster.t * nat :=
  match ts with
  | [] => (ms, calls)
  | tunnel :: rest =>
      let '(r, c) := rand calls in
      if Z.rem r 2 =? 0 then
        let '(x, y) := spawn_point tunnel in
        place_monsters (S i) rest (ms ++ [Monster.new x y (Some i)]) c
      else place_monsters (S i) rest ms c
  end.

Definition hasMonster (i : nat) (ms : list Monster.t) : bool :=
  existsb (fun m => bool_decide (Monster.homeTunnel m = Some i)) ms.

(** The loop that places the dragons; [rand()] is called only for a
    tunnel without a monster. *)
Fixpoint place_dragons (i : nat) (ts : list Tunnel.t)
    (ms : list Monster.t) (ds : list Dragon.t) (calls : nat)
    : list Dragon.t * nat :=
  match ts with
  | [] => (ds, calls)
  | tunnel :: rest =>
      if hasMonster i ms then place_dragons (S i) rest ms ds calls
      else
        let '(r, c) := rand calls in
        if Z.rem r 2 =? 0 then
          let '(x, y) := spawn_point tunnel in
          place_dragons (S i) rest ms (ds ++ [Dragon.new x y (Some i)]) c
        else place_dragons (S i) rest ms ds c
  end.

Definition ResetLevel (fuel calls : nat) (w : t) : option (t * nat) :=
  '(ts, c1) ← CreateTunnels fuel calls;
  let ts := map (Tunnel.set_activated false) ts in
  let '(ms, c2) := place_monsters 0 ts [] c1 in
  let '(ds, c3) := place_dragons 0 ts ms [] c2 in
  Some (mk (Player.ResetTo 100 100 (player w)) ms ds ts
           (Fruit.mk (Fruit.pos (fruit w)) false)
           (state w) (highScore w) (respawnTimer w), c3).

End Generation.

(** The first tunnel that contains the tile, as a pointer. *)
Fixpoint tunnel_at (i : nat) (ts : list Tunnel.t) (gridX gridY : Z) : option nat :=
  match ts with
  | [] => None
  | tunnel :: rest =>
      if Tunnel.Contains tunnel gridX gridY then Some i
      else tunnel_at (S i) rest gridX gridY
  end.

Definition GetTunnelAt (w : t) (gridX gridY : Z) : option nat :=
  tunnel_at 0 (tunnels w) gridX gridY.

Definition alert_monsters (i : nat) (ms : list Monster.t) : list Monster.t :=
  map (fun m => if bool_decide (Monster.homeTunnel m = Some i)
                then Monster.alert m else m) ms.

Definition alert_dragons (i : nat) (ds : list Dragon.t) : list Dragon.t :=
  map (fun d => if bool_decide (Dragon.homeTunnel d = Some i)
                then Dragon.alert d else d) ds.

(** The loop of [CheckTunnelActivation] over the tunnels from index
    [i] on: the tunnels after the loop, and the enemies. *)
Fixpoint activation_loop (playerGridX playerGridY : Z) (i : nat)
    (ts : list Tunnel.t) (ms : list Monster.t) (ds : list Dragon.t)
    : list Tunnel.t * list Monster.t * list Dragon.t :=
  match ts with
  | [] => ([], ms, ds)
  | tunnel :: rest =>
      if Tunnel.Contains tunnel playerGridX playerGridY
         && negb (Tunnel.activated tunnel)
      then
        let '(rest', ms', ds') :=
          activation_loop playerGridX playerGridY (S i) rest
                          (alert_monsters i ms) (alert_dragons i ds) in
        (Tunnel.set_activated true tunnel :: rest', ms', ds')
      else
        let '(rest', ms', ds') :=
          activation_loop playerGridX playerGridY (S i) rest ms ds in
        (tunnel :: rest', ms', ds')
  end.

(** [None]: the player's position does not convert to an [int]. *)
Definition CheckTunnelActivation (w : t) : option t :=
  playerGridX ← tile_of_pixel (Vector2.x (Player.pos (player w)));
  playerGridY ← tile_of_pixel (Vector2.y (Player.pos (player w)));
  let '(ts, ms, ds) :=
    activation_loop playerGridX playerGridY 0 (tunnels w)
                    (monsters w) (dragons w) in
  Some (mk (player w) ms ds ts (fruit w) (state w) (highScore w)
           (respawnTimer w)).

End World.

(* ------------------------------------------------------------------ *)
(** ** The collision part of the frame update in [main] *)
(* ------------------------------------------------------------------ *)

Module Main.

Section Frame.

(** raylib's rectangle overlap test; the library is not part of the
    repository, so the test is a parameter of the frame update. *)
Variable CheckCollisionRecs : Rectangle.t -> Rectangle.t -> bool.

(** "Check collisions with player". *)
Definition monsters_hit_player (ms : list Monster.t) (p : Player.t) : Player.t :=
  fold_left
    (fun p m =>
       if Monster.alive m
          && CheckCollisionRecs (Player.Bounds p) (Monster.Bounds m)
       then Player.set_alive false p else p)
    ms p.

Definition dragons_hit_player (ds : list Dragon.t) (p : Player.t) : Player.t :=
  fold_left
    (fun p d =>
       if Dragon.alive d
          && CheckCollisionRecs (Player.Bounds p) (Dragon.Bounds d)
       then Player.set_alive false p else p)
    ds p.

Definition PlayerCollisions (w : World.t) : World.t :=
  World.set_player
    (dragons_hit_player (World.dragons w)
       (monsters_hit_player (World.monsters w) (World.player w)))
    w.

(** "Handle harpoon": the rectangle. *)
Definition harpoonRect (p : Player.t) : Rectangle.t :=
  let px := Vector2.x (Player.pos p) in
  let py := Vector2.y (Player.pos p) in
  let half := F32.of_int (Z.quot Player.size 2) in
  if F32.neqb (Vector2.x (Player.harpoonDir p)) (F32.of_int 0) then
    let w := F32.mul (Vector2.x (Player.harpoonDir p)) (F32.of_int 50) in
    MakeNormalizedRect (F32.add px half)
                       (F32.sub (F32.add py half) (F32.of_int 2))
                       w (F32.of_int 4)
  else
    let h := F32.mul (Vector2.y (Player.harpoonDir p)) (F32.of_int 50) in
    MakeNormalizedRect (F32.sub (F32.add px half) (F32.of_int 2))
                       (F32.add py half)
                       (F32.of_int 4) h.

(** The two loops of the harpoon block, threading the score. *)
Fixpoint harpoon_monsters (r : Rectangle.t) (ms : list Monster.t) (score : Z)
    : list Monster.t * Z :=
  match ms with
  | [] => ([], score)
  | m :: rest =>
      if Monster.alive m && CheckCollisionRecs r (Monster.Bounds m) then
        let '(rest', s) := harpoon_monsters r rest (score + 100) in
        (Monster.set_alive false m :: rest', s)
      else
        let '(rest', s) := harpoon_monsters r rest score in
        (m :: rest', s)
  end.

Fixpoint harpoon_dragons (r : Rectangle.t) (ds : list Dragon.t) (score : Z)
    : list Dragon.t * Z :=
  match ds with
  | [] => ([], score)
  | d :: rest =>
      if Dragon.alive d && CheckCollisionRecs r (Dragon.Bounds d) then
        let '(rest', s) := harpoon_dragons r rest (score + 200) in
        (Dragon.set_alive false d :: rest', s)
      else
        let '(rest', s) := harpoon_dragons r rest score in
        (d :: rest', s)
  end.

Definition HandleHarpoon (w : World.t) : World.t :=
  let p := World.player w in
  if Player.hasHarpoon p && (Player.harpoonTimer p >? 0) then
    let r := harpoonRect p in
    let '(ms, s1) := harpoon_monsters r (World.monsters w) (Player.score p) in
    let '(ds, s2) := harpoon_dragons r (World.dragons w) s1 in
    World.mk (Player.set_score s2 p) ms ds (World.tunnels w)
             (World.fruit w) (World.state w) (World.highScore w)
             (World.respawnTimer w)
  else w.

Definition FruitCollision (w : World.t) : World.t :=
  if negb (Fruit.collected (World.fruit w))
     && CheckCollisionRecs (Player.Bounds (World.player w))
                           (Fruit.Bounds (World.fruit w))
  then
    World.mk (Player.set_score (Player.score (World.player w) + 500)
                               (World.player w))
             (World.monsters w) (World.dragons w) (World.tunnels w)
             (Fruit.mk (Fruit.pos (World.fruit w)) true)
             (World.state w) (World.highScore w) (World.respawnTimer w)
  else w.

(** [if (!world.player.alive) { ... }]. *)
Definition DeathResolution (out_ok : bool) (file : option Z) (w : World.t)
    : World.t * option Z :=
  if negb (Player.alive (World.player w)) then
    let p := Player.set_deathFlashTimer DEATH_FLASH_TIME
               (Player.set_lives (Player.lives (World.player w) - 1)
                                 (World.player w)) in
    let w1 := World.set_player p w in
    if Player.lives p >? 0 then
      (World.set_respawnTimer RESPAWN_DELAY w1, file)
    else
      let '(w2, file') := World.SaveHighScore out_ok file w1 in
      (World.set_state GAMEOVER w2, file')
  else (w, file).

Definition allMonstersDead (ms : list Monster.t) : bool :=
  forallb (fun m => negb (Monster.alive m)) ms.

Definition allDragonsDead (ds : list Dragon.t) : bool :=
  forallb (fun d => negb (Dragon.alive d)) ds.

Definition WinCheck (out_ok : bool) (file : option Z) (w : World.t)
    : World.t * option Z :=
  if allMonstersDead (World.monsters w) && allDragonsDead (World.dragons w)
  then
    let '(w1, file') := World.SaveHighScore out_ok file w in
    (World.set_state WIN w1, file')
  else (w, file).

(** The frame update from "Check collisions with player" to the win
    test; [ok1] and [ok2] tell whether the high-score file could be
    opened by the first and by the second [SaveHighScore]. *)
Definition ResolveCollisions (ok1 ok2 : bool) (file : option Z) (w : World.t)
    : World.t * option Z :=
  let w1 := PlayerCollisions w in
  let w2 := HandleHarpoon w1 in
  let w3 := FruitCollision w2 in
  let '(w4, file1) := DeathResolution ok1 file w3 in
  WinCheck ok2 file1 w4.

End Frame.

(** Modelled from the spec: raylib's [CheckCollisionRecs] is not in the
    repository, and the specification describes it as an axis-aligned
    rectangle overlap test.  This is the strict overlap of raylib's
    [rshapes.c]; only the worked examples use it. *)
Definition raylib_CheckCollisionRecs (rec1 rec2 : Rectangle.t) : bool :=
  (F32.ltb (Rectangle.x rec1) (F32.add (Rectangle.x rec2) (Rectangle.width rec2))
   && F32.gtb (F32.add (Rectangle.x rec1) (Rectangle.width rec1)) (Rectangle.x rec2))
  && (F32.ltb (Rectangle.y rec1) (F32.add (Rectangle.y rec2) (Rectangle.height rec2))
      && F32.gtb (F32.add (Rectangle.y rec1) (Rectangle.height rec1)) (Rectangle.y rec2)).

End Main.

(* ------------------------------------------------------------------ *)
(** ** Reference definitions, in the words of the specification *)
(* ------------------------------------------------------------------ *)

(** A tunnel has an orientation: it is horizontal or vertical.  The
    third value of the enumeration is given to no tunnel of the program. *)
Definition oriented (tn : Tunnel.t) : Prop :=
  Tunnel.direction tn <> NONE.

(** The half-open intervals [[s1, s1+l1)] and [[s2, s2+l2)] overlap. *)
Definition spans_overlap (s1 l1 s2 l2 : Z) : bool :=
  (s1 <? s2 + l2) && (s2 <? s1 + l1).

(** The coordinate [c] falls within [[s, s+l)]. *)
Definition in_span (c s l : Z) : bool :=
  (s <=? c) && (c <? s + l).

(** [Intersects] as the specification words it: same-orientation
    tunnels share the perpendicular coordinate and their spans overlap;
    opposite-orientation tunnels have a cross point. *)
Definition Intersects_spec (a b : Tunnel.t) : bool :=
  match Tunnel.direction a, Tunnel.direction b with
  | HORIZONTAL, HORIZONTAL =>
      (Tunnel.startY a =? Tunnel.startY b)
      && spans_overlap (Tunnel.startX a) (Tunnel.length a)
                       (Tunnel.startX b) (Tunnel.length b)
  | VERTICAL, VERTICAL =>
      (Tunnel.startX a =? Tunnel.startX b)
      && spans_overlap (Tunnel.startY a) (Tunnel.length a)
                       (Tunnel.startY b) (Tunnel.length b)
  | HORIZONTAL, VERTICAL =>
      in_span (Tunnel.startX b) (Tunnel.startX a) (Tunnel.length a)
      && in_span (Tunnel.startY a) (Tunnel.startY b) (Tunnel.length b)
  | VERTICAL, HORIZONTAL =>
      in_span (Tunnel.startX a) (Tunnel.startX b) (Tunnel.length b)
      && in_span (Tunnel.startY b) (Tunnel.startY a) (Tunnel.length a)
  | _, _ => false
  end.

(** The same reference read on sets of coordinates: two spans overlap
    when some coordinate lies in both. *)
Definition spans_meet (s1 l1 s2 l2 : Z) : Prop :=
  exists z, (s1 <= z < s1 + l1) /\ (s2 <= z < s2 + l2).

Definition within_span (c s l : Z) : Prop := s <= c < s + l.

Definition Intersects_ref (a b : Tunnel.t) : Prop :=
  match Tunnel.direction a, Tunnel.direction b with
  | HORIZONTAL, HORIZONTAL =>
      Tunnel.startY a = Tunnel.startY b
      /\ spans_meet (Tunnel.startX a) (Tunnel.length a)
                    (Tunnel.startX b) (Tunnel.length b)
  | VERTICAL, VERTICAL =>
      Tunnel.startX a = Tunnel.startX b
      /\ spans_meet (Tunnel.startY a) (Tunnel.length a)
                    (Tunnel.startY b) (Tunnel.length b)
  | HORIZONTAL, VERTICAL =>
      within_span (Tunnel.startX b) (Tunnel.startX a) (Tunnel.length a)
      /\ within_span (Tunnel.startY a) (Tunnel.startY b) (Tunnel.length b)
  | VERTICAL, HORIZONTAL =>
      within_span (Tunnel.startX a) (Tunnel.startX b) (Tunnel.length b)
      /\ within_span (Tunnel.startY b) (Tunnel.startY a) (Tunnel.length a)
  | _, _ => False
  end.

(** Two tunnels share a tile. *)
Definition share_tile (a b : Tunnel.t) : Prop :=
  exists x y, Tunnel.Contains a x y = true /\ Tunnel.Contains b x y = true.

(** The layout was built by accepting, one after the other, candidates
    that [IsValidTunnel] passed against the tunnels accepted before. *)
Inductive accepted : list Tunnel.t -> Prop :=
  | accepted_nil : accepted []
  | accepted_snoc ts tn :
      accepted ts -> World.IsValidTunnel ts tn = true -> accepted (ts ++ [tn]).

(** No two tunnels at different places of the list intersect. *)
Definition pairwise_disjoint (ts : list Tunnel.t) : Prop :=
  forall i j a b, i <> j -> ts !! i = Some a -> ts !! j = Some b ->
    Tunnel.Intersects a b = false.

(** What the generator gives to every tunnel it builds. *)
Definition generated_shape (dir : TunnelDirection) (tn : Tunnel.t) : Prop :=
  Tunnel.direction tn = dir /\ 4 <= Tunnel.length tn <= 8
  /\ Tunnel.activated tn = false.

(** The state of a generation loop that started from the tunnels [base],
    with [attempts = 0] and [calls0] calls of [rand()] behind it, for a
    category of direction [dir] and a target of [cap] tunnels in all. *)
Definition phase_inv (dir : TunnelDirection) (cap : nat)
    (base : list Tunnel.t) (calls0 : nat) (g : World.gen) : Prop :=
  exists new,
    World.gen_tunnels g = base ++ new
    /\ Forall (generated_shape dir) new
    /\ (accepted base -> accepted (World.gen_tunnels g))
    /\ (length (World.gen_tunnels g) <= Nat.max cap (length base))%nat
    /\ 0 <= World.gen_attempts g <= 50
    /\ World.gen_calls g = (calls0 + 3 * Z.to_nat (World.gen_attempts g))%nat.

(** Two tunnels with the same place, length and direction. *)
Definition same_geometry (a b : Tunnel.t) : Prop :=
  Tunnel.startX a = Tunnel.startX b /\ Tunnel.startY a = Tunnel.startY b
  /\ Tunnel.length a = Tunnel.length b
  /\ Tunnel.direction a = Tunnel.direction b.

(** The test of [CheckTunnelActivation] on one tunnel: it contains the
    player's tile and is still dormant. *)
Definition triggers (px py : Z) (tn : Tunnel.t) : bool :=
  Tunnel.Contains tn px py && negb (Tunnel.activated tn).

(** The home tunnel [h] of an enemy is one of the tunnels [ts], which sit
    from index [i] on, and it triggers. *)
Definition released (px py : Z) (i : nat) (ts : list Tunnel.t)
    (h : option nat) : bool :=
  match h with
  | Some j =>
      (i <=? j)%nat
      && match ts !! (j - i)%nat with
         | Some tn => triggers px py tn
         | None => false
         end
  | None => false
  end.

(** The tunnel that the pointer returned by [GetTunnelAt] points to. *)
Definition tunnel_found (w : World.t) (x y : Z) : option Tunnel.t :=
  i ← World.GetTunnelAt w x y; World.tunnels w !! i.

(** The tunnel at index [i] is dormant in [w] and activated in [w']. *)
Definition newly_activated (w w' : World.t) (i : nat) : Prop :=
  exists a a',
    World.tunnels w !! i = Some a /\ Tunnel.activated a = false
    /\ World.tunnels w' !! i = Some a' /\ Tunnel.activated a' = true.

Definition is_vertical (tn : Tunnel.t) : bool :=
  match Tunnel.direction tn with VERTICAL => true | _ => false end.

Definition is_horizontal (tn : Tunnel.t) : bool :=
  match Tunnel.direction tn with HORIZONTAL => true | _ => false end.

(** A world of the playing state around a player, for the worked
    examples; the fruit sits where the constructor of [World] puts it. *)
Definition sample_player (x y : Z) (lives score : Z) : Player.t :=
  Player.mk (Vector2.mk (F32.of_int x) (F32.of_int y)) true lives false
            (Vector2.mk (F32.of_int 1) (F32.of_int 0)) 0 score 0.

Definition sample_world (p : Player.t) (ms : list Monster.t)
    (ds : list Dragon.t) (ts : list Tunnel.t) (high : Z) : World.t :=
  World.mk p ms ds ts
    (Fruit.mk (Vector2.mk (F32.of_int (Z.quot SCREEN_W 2 - Z.quot TILE_SIZE 2))
                          (F32.of_int (Z.quot SCREEN_H 2 - Z.quot TILE_SIZE 2)))
              false)
    PLAYING high 0.

(** A deterministic stand-in for [rand()], for the worked examples. *)
Definition lcg_rand (k : nat) : N := ((N.of_nat k * 7919 + 13) mod 32768)%N.

(** A sequence of [rand()] values under which the first loop accepts one
    horizontal tunnel and the second loop seven vertical ones: 150 zeros,
    then the columns 6, 7, 8, ... *)
Definition column_rand (k : nat) : N :=
  if (k <? 150)%nat then 0%N
  else if ((k - 150) mod 3 =? 0)%nat then N.of_nat (4 + (k - 150) / 3)
       else 0%N.

(** [k] half pixels: the positions a patrolling enemy takes are the
    binary32 numbers [k / 2]. *)
Definition half (k : Z) : F32.float := F32.of_dyadic k (-1).

#[local] Instance spec_float_eq_dec : EqDecision spec_float.
Proof. solve_decision. Defined.

(** [f] holds of [0], ..., [n - 1]. *)
Fixpoint all_below (n : nat) (f : Z -> bool) : bool :=
  match n with
  | O => true
  | S n' => f (Z.of_nat n') && all_below n' f
  end.

(** A patrol of [n] frames.  [None]: one of the steps is undefined. *)
Fixpoint Monster_patrol (n : nat) (ts : list Tunnel.t) (m : Monster.t)
    : option Monster.t :=
  match n with
  | O => Some m
  | S n' => m' ← Monster.MoveInTunnel ts m; Monster_patrol n' ts m'
  end.

Fixpoint Dragon_patrol (n : nat) (ts : list Tunnel.t) (d : Dragon.t)
    : option Dragon.t :=
  match n with
  | O => Some d
  | S n' => d' ← Dragon.MoveInTunnel ts d; Dragon_patrol n' ts d'
  end.

(** The grid tile of the pixel position [p] lies within the span of the
    tunnel [h]; the tile is computed as [MoveInTunnel] computes it. *)
Definition in_home_span (h : Tunnel.t) (p : Vector2.t) : bool :=
  match grid_of_pixel (Vector2.x p), grid_of_pixel (Vector2.y p) with
  | Some gridX, Some gridY => Tunnel.Contains h gridX gridY
  | _, _ => false
  end.

(** The half-pixel coordinate [k] and the direction [d] of an enemy on
    patrol along [[start, start+len)]: it moves between the last half
    pixel of the first tile and the first pixel of the last tile, and at
    either end it heads back. *)
Definition patrol_range (start len k d : Z) : Prop :=
  64 * (start + 1) - 1 <= k <= 64 * (start + len - 1)
  /\ (d = 1 \/ d = -1)
  /\ (k = 64 * (start + 1) - 1 -> d = 1)
  /\ (k = 64 * (start + len - 1) -> d = -1).

Definition patrol_inv (h : Tunnel.t) (p : Vector2.t) (d : Z) : Prop :=
  match Tunnel.direction h with
  | HORIZONTAL =>
      exists k, Vector2.x p = half k
                /\ Vector2.y p = F32.of_int (Tunnel.startY h * TILE_SIZE)
                /\ patrol_range (Tunnel.startX h) (Tunnel.length h) k d
  | VERTICAL =>
      exists k, Vector2.y p = half k
                /\ Vector2.x p = F32.of_int (Tunnel.startX h * TILE_SIZE)
                /\ patrol_range (Tunnel.startY h) (Tunnel.length h) k d
  | NONE => False
  end.

(** A dragon in the state of the monster [m]. *)
Definition as_dragon (m : Monster.t) : Dragon.t :=
  Dragon.mk (Monster.pos m) (Monster.alive m) (Monster.inTunnel m)
            (Monster.chasing m) (Monster.homeTunnel m) (Monster.direction m).

(** One axis of a chase step at the speed [s]. *)
Definition chase_axis (s target p : F32.float) : F32.float :=
  if F32.gtb target p then F32.add p s
  else if F32.ltb target p then F32.sub p s
  else p.

(** The chase step of an enemy kind whose chase speed is [chaseSpeed]. *)
Definition chase_step (chaseSpeed : F32.float) (target : Vector2.t)
    (m : Monster.t) : Monster.t :=
  if negb (Monster.alive m) || Monster.inTunnel m then m
  else
    let s := if Monster.chasing m then chaseSpeed else F32.lit_0_5 in
    Monster.mk
      (Vector2.mk (chase_axis s (Vector2.x target) (Vector2.x (Monster.pos m)))
                  (chase_axis s (Vector2.y target) (Vector2.y (Monster.pos m))))
      (Monster.alive m) (Monster.inTunnel m) (Monster.chasing m)
      (Monster.homeTunnel m) (Monster.direction m).

(** The enemies [ResetLevel] builds: at the spawn point of a tunnel of
    the list, with a pointer to that tunnel. *)
Definition placed_monster (ts : list Tunnel.t) (m : Monster.t) : Prop :=
  exists i h, ts !! i = Some h
    /\ m = Monster.new (World.spawn_point h).1 (World.spawn_point h).2 (Some i).

Definition placed_dragon (ts : list Tunnel.t) (d : Dragon.t) : Prop :=
  exists i h, ts !! i = Some h
    /\ d = Dragon.new (World.spawn_point h).1 (World.spawn_point h).2 (Some i).

(** What a generated tunnel offers to the patrol of its enemy. *)
Definition patrol_ready (h : Tunnel.t) : Prop :=
  oriented h /\ World.out_of_bounds h = false /\ 4 <= Tunnel.length h <= 8.

(** A live monster, or dragon, whose bounds overlap the rectangle [r]. *)
Definition monster_hit (check : Rectangle.t -> Rectangle.t -> bool)
    (r : Rectangle.t) (m : Monster.t) : bool :=
  Monster.alive m && check r (Monster.Bounds m).

Definition dragon_hit (check : Rectangle.t -> Rectangle.t -> bool)
    (r : Rectangle.t) (d : Dragon.t) : bool :=
  Dragon.alive d && check r (Dragon.Bounds d).

(** Some live enemy overlaps the player. *)
Definition player_collides (check : Rectangle.t -> Rectangle.t -> bool)
    (w : World.t) : bool :=
  existsb (monster_hit check (Player.Bounds (World.player w))) (World.monsters w)
  || existsb (dragon_hit check (Player.Bounds (World.player w))) (World.dragons w).

(** The world when the frame update reaches its death resolution. *)
Definition before_death_resolution (check : Rectangle.t -> Rectangle.t -> bool)
    (w : World.t) : World.t :=
  Main.FruitCollision check (Main.HandleHarpoon check (Main.PlayerCollisions check w)).

(* ------------------------------------------------------------------ *)
(** ** The rest of the program: input, drawing, the main loop *)
(* ------------------------------------------------------------------ *)

(** What one iteration of the main loop reads from raylib and from the
    file system: the keys that are down, the keys pressed in this frame,
    the result of the restart button (the mouse is over it and its left
    button was pressed), and whether [highscore.txt] can be opened for
    writing by the first and by the second [SaveHighScore] of the frame. *)
Record Input := mkInput {
  KEY_RIGHT : bool;
  KEY_LEFT : bool;
  KEY_UP : bool;
  KEY_DOWN : bool;
  KEY_SPACE : bool;
  KEY_ENTER : bool;
  KEY_R : bool;
  restart_button : bool;
  out_ok1 : bool;
  out_ok2 : bool
}.

(** [Player::Move]. *)
Definition Player_Move (inp : Input) (p : Player.t) : Player.t :=
  let x0 := Vector2.x (Player.pos p) in
  let y0 := Vector2.y (Player.pos p) in
  let d0 := Player.harpoonDir p in
  let '(x1, d1) :=
    if KEY_RIGHT inp
    then (F32.add x0 Player.speed, Vector2.mk (F32.of_int 1) (F32.of_int 0))
    else (x0, d0) in
  let '(x2, d2) :=
    if KEY_LEFT inp
    then (F32.sub x1 Player.speed, Vector2.mk (F32.of_int (-1)) (F32.of_int 0))
    else (x1, d1) in
  let '(y1, d3) :=
    if KEY_UP inp
    then (F32.sub y0 Player.speed, Vector2.mk (F32.of_int 0) (F32.of_int (-1)))
    else (y0, d2) in
  let '(y2, d4) :=
    if KEY_DOWN inp
    then (F32.add y1 Player.speed, Vector2.mk (F32.of_int 0) (F32.of_int 1))
    else (y1, d3) in
  let x3 := if F32.ltb x2 (F32.of_int 0) then F32.of_int 0 else x2 in
  let y3 := if F32.ltb y2 (F32.of_int 0) then F32.of_int 0 else y2 in
  let x4 := if F32.gtb x3 (F32.of_int (SCREEN_W - Player.size))
            then F32.of_int (SCREEN_W - Player.size) else x3 in
  let y4 := if F32.gtb y3 (F32.of_int (SCREEN_H - Player.size))
            then F32.of_int (SCREEN_H - Player.size) else y3 in
  let '(has, timer) :=
    if KEY_SPACE inp then (true, 15)
    else (Player.hasHarpoon p, Player.harpoonTimer p) in
  Player.mk (Vector2.mk x4 y4) (Player.alive p) (Player.lives p) has d4 timer
            (Player.score p) (Player.deathFlashTimer p).

(** What [Player::Draw] writes to the player. *)
Definition Player_Draw (p : Player.t) : Player.t :=
  let '(has, timer) :=
    if Player.hasHarpoon p && (Player.harpoonTimer p >? 0) then
      let t := Player.harpoonTimer p - 1 in
      (if t <=? 0 then false else Player.hasHarpoon p, t)
    else (Player.hasHarpoon p, Player.harpoonTimer p) in
  let flash := if Player.deathFlashTimer p >? 0
               then Player.deathFlashTimer p - 1 else Player.deathFlashTimer p in
  Player.mk (Player.pos p) (Player.alive p) (Player.lives p) has
            (Player.harpoonDir p) timer (Player.score p) flash.

(** "Move monsters and dragons": the two loops of the frame update. *)
Definition move_monster (ts : list Tunnel.t) (target : Vector2.t)
    (m : Monster.t) : option Monster.t :=
  if Monster.inTunnel m then Monster.MoveInTunnel ts m
  else if Monster.chasing m then Some (Monster.MoveTowards target m)
  else Some m.

Definition move_dragon (ts : list Tunnel.t) (target : Vector2.t)
    (d : Dragon.t) : option Dragon.t :=
  if Dragon.inTunnel d then Dragon.MoveInTunnel ts d
  else if Dragon.chasing d then Some (Dragon.MoveTowards target d)
  else Some d.

Fixpoint move_monsters (ts : list Tunnel.t) (target : Vector2.t)
    (ms : list Monster.t) : option (list Monster.t) :=
  match ms with
  | [] => Some []
  | m :: rest =>
      m' ← move_monster ts target m;
      rest' ← move_monsters ts target rest;
      Some (m' :: rest')
  end.

Fixpoint move_dragons (ts : list Tunnel.t) (target : Vector2.t)
    (ds : list Dragon.t) : option (list Dragon.t) :=
  match ds with
  | [] => Some []
  | d :: rest =>
      d' ← move_dragon ts target d;
      rest' ← move_dragons ts target rest;
      Some (d' :: rest')
  end.

Definition MoveEnemies (w : World.t) : option World.t :=
  ms ← move_monsters (World.tunnels w) (Player.pos (World.player w))
                     (World.monsters w);
  ds ← move_dragons (World.tunnels w) (Player.pos (World.player w))
                    (World.dragons w);
  Some (World.mk (World.player w) ms ds (World.tunnels w) (World.fruit w)
                 (World.state w) (World.highScore w) (World.respawnTimer w)).

(** The [dug] member of [World]: [GRID_HEIGHT] rows of [GRID_WIDTH]
    flags. *)
Abbreviation Dug := (list (list bool)).

Definition dug_new : Dug :=
  replicate (Z.to_nat GRID_HEIGHT) (replicate (Z.to_nat GRID_WIDTH) false).

(** [dug[y][x]], when the two indices are in range. *)
Definition dug_get (dug : Dug) (y x : Z) : option bool :=
  if (0 <=? y) && (0 <=? x)
  then row ← dug !! Z.to_nat y; row !! Z.to_nat x
  else None.

(** [dug[y][x] = true].  [operator[]] does not check its index: a write
    out of range is undefined, [None]. *)
Definition dug_set (y x : Z) (dug : Dug) : option Dug :=
  match dug_get dug y x with
  | Some _ => Some (alter (fun row => <[Z.to_nat x := true]> row) (Z.to_nat y) dug)
  | None => None
  end.

(** [for (auto& row : dug) std::fill(row.begin(), row.end(), false)]. *)
Definition dug_clear (dug : Dug) : Dug := map (map (fun _ => false)) dug.

(** [n] rounds of [for (x = ..; x < startX + length; x++) dug[y][x] = true]
    from [x], and the same down a column. *)
Fixpoint mark_row (n : nat) (y x : Z) (dug : Dug) : option Dug :=
  match n with
  | O => Some dug
  | S n' => d ← dug_set y x dug; mark_row n' y (x + 1) d
  end.

Fixpoint mark_column (n : nat) (y x : Z) (dug : Dug) : option Dug :=
  match n with
  | O => Some dug
  | S n' => d ← dug_set y x dug; mark_column n' (y + 1) x d
  end.

(** "Mark tunnel areas as dug", for one tunnel: the loop runs
    [length] times, and not at all when [length] is not positive. *)
Definition mark_tunnel (tunnel : Tunnel.t) (dug : Dug) : option Dug :=
  match Tunnel.direction tunnel with
  | HORIZONTAL =>
      mark_row (Z.to_nat (Tunnel.length tunnel))
               (Tunnel.startY tunnel) (Tunnel.startX tunnel) dug
  | _ =>
      mark_column (Z.to_nat (Tunnel.length tunnel))
                  (Tunnel.startY tunnel) (Tunnel.startX tunnel) dug
  end.

Fixpoint mark_tunnels (ts : list Tunnel.t) (dug : Dug) : option Dug :=
  match ts with
  | [] => Some dug
  | tunnel :: rest => d ← mark_tunnel tunnel dug; mark_tunnels rest d
  end.

(** The player digs the tile it stands on, behind the bounds test of
    the frame update. *)
Definition dig (p : Player.t) (dug : Dug) : option Dug :=
  gx ← tile_of_pixel (Vector2.x (Player.pos p));
  gy ← tile_of_pixel (Vector2.y (Player.pos p));
  if (0 <=? gy) && (gy <? GRID_HEIGHT) && (0 <=? gx) && (gx <? GRID_WIDTH)
  then dug_set gy gx dug
  else Some dug.

Module Game.

(** The program state between two iterations of the main loop: the
    world, its [dug] mask, the high-score file and the number of calls of
    [rand()] made so far. *)
Record t := mk {
  world : World.t;
  dug : Dug;
  highscore_txt : option Z;
  rand_calls : nat
}.

(** The default member initialisers of [World], [Player] and [Fruit]. *)
Definition World_new : World.t :=
  World.mk
    (Player.mk (Vector2.mk (F32.of_int 100) (F32.of_int 100)) true START_LIVES
               false (Vector2.mk (F32.of_int 1) (F32.of_int 0)) 0 0 0)
    [] [] []
    (Fruit.mk (Vector2.mk (F32.of_int (Z.quot SCREEN_W 2 - Z.quot TILE_SIZE 2))
                          (F32.of_int (Z.quot SCREEN_H 2 - Z.quot TILE_SIZE 2)))
              false)
    SPLASH 0 0.

(** [LoadHighScore]: the file is read when it can be opened.  The file
    is taken to hold the number the program wrote to it. *)
Definition LoadHighScore (g : t) : t :=
  match highscore_txt g with
  | Some n => mk (World.set_highScore n (world g)) (dug g) (highscore_txt g)
                 (rand_calls g)
  | None => g
  end.

Section Loop.

Variable rand_seq : nat -> N.
Variable fuel : nat.
Variable CheckCollisionRecs : Rectangle.t -> Rectangle.t -> bool.

(** [ResetLevel] with its writes to [dug]: the mask is cleared first
    and the tunnels are marked once they are created. *)
Definition ResetLevel (g : t) : option t :=
  '(w, calls) ← World.ResetLevel rand_seq fuel (rand_calls g) (world g);
  d ← mark_tunnels (World.tunnels w) (dug_clear (dug g));
  Some (mk w d (highscore_txt g) calls).

Definition ResetAll (g : t) : option t :=
  let p := Player.set_alive true
             (Player.set_score 0
                (Player.set_lives START_LIVES (World.player (world g)))) in
  g1 ← ResetLevel (mk (World.set_player p (world g)) (dug g)
                      (highscore_txt g) (rand_calls g));
  Some (mk (World.set_respawnTimer 0 (World.set_state SPLASH (world g1)))
           (dug g1) (highscore_txt g1) (rand_calls g1)).

(** The [PLAYING] branch of the update. *)
Definition UpdatePlaying (inp : Input) (g : t) : option t :=
  let w := world g in
  if World.respawnTimer w >? 0 then
    let w1 := World.set_respawnTimer (World.respawnTimer w - 1) w in
    if World.respawnTimer w1 =? 0 then
      ResetLevel (mk (World.set_player
                        (Player.set_alive true (World.player w1)) w1)
                     (dug g) (highscore_txt g) (rand_calls g))
    else Some (mk w1 (dug g) (highscore_txt g) (rand_calls g))
  else
    let w1 := World.set_player (Player_Move inp (World.player w)) w in
    d ← dig (World.player w1) (dug g);
    w2 ← World.CheckTunnelActivation w1;
    w3 ← MoveEnemies w2;
    let '(w4, file) :=
      Main.ResolveCollisions CheckCollisionRecs (out_ok1 inp) (out_ok2 inp)
                             (highscore_txt g) w3 in
    Some (mk w4 d file (rand_calls g)).

(** The update half of one iteration of the main loop. *)
Definition Update (inp : Input) (g : t) : option t :=
  match World.state (world g) with
  | SPLASH =>
      if KEY_ENTER inp then
        ResetLevel (mk (World.set_state PLAYING (world g)) (dug g)
                       (highscore_txt g) (rand_calls g))
      else Some g
  | PLAYING => UpdatePlaying inp g
  | _ =>
      if KEY_ENTER inp || KEY_R inp then ResetAll g else Some g
  end.

(** What the drawing half writes to the state. *)
Definition Draw (inp : Input) (g : t) : option t :=
  match World.state (world g) with
  | SPLASH => Some g
  | PLAYING =>
      Some (mk (World.set_player (Player_Draw (World.player (world g)))
                                 (world g))
               (dug g) (highscore_txt g) (rand_calls g))
  | _ =>
      if restart_button inp || KEY_ENTER inp || KEY_R inp
      then ResetAll g else Some g
  end.

(** One iteration of the main loop. *)
Definition Frame (inp : Input) (g : t) : option t :=
  g1 ← Update inp g; Draw inp g1.

(** The iterations for a list of inputs, the first one first. *)
Fixpoint run (inps : list Input) (g : t) : option t :=
  match inps with
  | [] => Some g
  | inp :: rest => g1 ← Frame inp g; run rest g1
  end.

(** [main] before its loop: the world, the dug mask, [LoadHighScore],
    [ResetAll]. *)
Definition init (file : option Z) (calls : nat) : option t :=
  ResetAll (LoadHighScore (mk World_new dug_new file calls)).

End Loop.

End Game.

(** The positions the player takes: whole even pixels of the area the
    clamp of [Player::Move] allows. *)
Definition on_lattice (p : Player.t) : Prop :=
  exists i j, 0 <= i <= 384 /\ 0 <= j <= 272
    /\ Player.pos p = Vector2.mk (F32.of_int (2 * i)) (F32.of_int (2 * j)).

(** The four aims of the harpoon. *)
Definition unit_aim (d : Vector2.t) : Prop :=
  d = Vector2.mk (F32.of_int 1) (F32.of_int 0)
  \/ d = Vector2.mk (F32.of_int (-1)) (F32.of_int 0)
  \/ d = Vector2.mk (F32.of_int 0) (F32.of_int (-1))
  \/ d = Vector2.mk (F32.of_int 0) (F32.of_int 1).

(** The test of the harpoon block in the frame update. *)
Definition harpoon_active (p : Player.t) : bool :=
  Player.hasHarpoon p && (Player.harpoonTimer p >? 0).

(** [n] calls of [Player::Draw]. *)
Fixpoint Player_Draw_n (n : nat) (p : Player.t) : Player.t :=
  match n with
  | O => p
  | S n' => Player_Draw_n n' (Player_Draw p)
  end.

(** The mask has the size the constructor of [World] gives it. *)
Definition dug_dims (dug : Dug) : Prop :=
  length dug = Z.to_nat GRID_HEIGHT
  /\ forall k row, dug !! k = Some row -> length row = Z.to_nat GRID_WIDTH.

(** The tile [(x, y)] is dug; a tile outside the mask is not. *)
Definition dug_at (dug : Dug) (y x : Z) : bool :=
  match dug_get dug y x with
  | Some b => b
  | None => false
  end.

(** A patrolling live enemy points to a tunnel of the list and is in a
    state of the patrol along it. *)
Definition monster_ok (ts : list Tunnel.t) (m : Monster.t) : Prop :=
  Monster.inTunnel m = true -> Monster.alive m = true ->
  exists i h, Monster.homeTunnel m = Some i /\ ts !! i = Some h
              /\ patrol_inv h (Monster.pos m) (Monster.direction m).

Definition dragon_ok (ts : list Tunnel.t) (d : Dragon.t) : Prop :=
  Dragon.inTunnel d = true -> Dragon.alive d = true ->
  exists i h, Dragon.homeTunnel d = Some i /\ ts !! i = Some h
              /\ patrol_inv h (Dragon.pos d) (Dragon.direction d).

(** What holds of the program state between two iterations of the main
    loop. *)
Definition Game_inv (g : Game.t) : Prop :=
  on_lattice (World.player (Game.world g))
  /\ unit_aim (Player.harpoonDir (World.player (Game.world g)))
  /\ dug_dims (Game.dug g)
  /\ Forall patrol_ready (World.tunnels (Game.world g))
  /\ Forall (monster_ok (World.tunnels (Game.world g)))
            (World.monsters (Game.world g))
  /\ Forall (dragon_ok (World.tunnels (Game.world g)))
            (World.dragons (Game.world g)).

(** An enemy after the collision part of a frame: as it was, or killed. *)
Definition monster_kept (m' m : Monster.t) : Prop :=
  m' = m \/ (Monster.alive m = true /\ m' = Monster.set_alive false m).

Definition dragon_kept (d' d : Dragon.t) : Prop :=
  d' = d \/ (Dragon.alive d = true /\ d' = Dragon.set_alive false d).

(** What the collision part of a frame leaves in place. *)
Definition collisions_keep (w w' : World.t) : Prop :=
  World.tunnels w' = World.tunnels w
  /\ Player.pos (World.player w') = Player.pos (World.player w)
  /\ Player.harpoonDir (World.player w') = Player.harpoonDir (World.player w)
  /\ Player.hasHarpoon (World.player w') = Player.hasHarpoon (World.player w)
  /\ Player.harpoonTimer (World.player w') = Player.harpoonTimer (World.player w)
  /\ Fruit.pos (World.fruit w') = Fruit.pos (World.fruit w)
  /\ Forall2 monster_kept (World.monsters w') (World.monsters w)
  /\ Forall2 dragon_kept (World.dragons w') (World.dragons w).

(** The inputs of the worked examples: no key down, one key down. *)
Definition no_key : Input :=
  mkInput false false false false false false false false true true.

Definition key_enter : Input :=
  mkInput false false false false false true false false true true.

Definition key_right : Input :=
  mkInput true false false false false false false false true true.

Definition key_space : Input :=
  mkInput false false false false true false false false true true.

(** The live enemies, counted. *)
Definition live_monsters (ms : list Monster.t) : Z :=
  Z.of_nat (length (List.filter Monster.alive ms)).

Definition live_dragons (ds : list Dragon.t) : Z :=
  Z.of_nat (length (List.filter Dragon.alive ds)).

(** The points the level still holds: 100 for a live monster, 200 for a
    live dragon, 500 for the fruit. *)
Definition points_left (w : World.t) : Z :=
  100 * live_monsters (World.monsters w)
  + 200 * live_dragons (World.dragons w)
  + (if Fruit.collected (World.fruit w) then 0 else 500).

(** The points of a level of 8 dragons and the fruit, and of one such
    level for every life. *)
Definition level_points : Z := 8 * 200 + 500.

Definition max_score : Z := START_LIVES * level_points.

(** The high score the next start of the program reads from the file. *)
Definition loaded_highScore (file : option Z) : Z :=
  World.highScore
    (Game.world (Game.LoadHighScore (Game.mk Game.World_new dug_new file 0))).

(** The score, the lives and the high score between two iterations of
    the main loop.  [writes_ok] stands for: no write to the high-score
    file has failed so far. *)
Definition tally_inv (writes_ok : Prop) (file : option Z) (w : World.t)
    : Prop :=
  let p := World.player w in
  0 <= Player.score p
  /\ (forall v, file = Some v -> v <= World.highScore w)
  /\ (writes_ok -> loaded_highScore file = World.highScore w)
  /\ match World.state w with
     | SPLASH =>
         Player.score p = 0 /\ Player.lives p = START_LIVES
         /\ Player.alive p = true /\ World.respawnTimer w = 0
     | PLAYING =>
         1 <= Player.lives p <= START_LIVES
         /\ 0 <= World.respawnTimer w <= RESPAWN_DELAY
         /\ (if World.respawnTimer w >? 0
             then Player.score p + level_points * Player.lives p <= max_score
             else Player.alive p = true
                  /\ Player.score p + points_left w
                     + level_points * (Player.lives p - 1) <= max_score)
     | GAMEOVER =>
         Player.lives p = 0
         /\ Player.score p <= max_score
         /\ Player.score p <= World.highScore w
     | WIN =>
         0 <= Player.lives p <= START_LIVES
         /\ Player.score p <= max_score
         /\ Player.score p <= World.highScore w
         /\ Main.allMonstersDead (World.monsters w)
            && Main.allDragonsDead (World.dragons w) = true
     end.

(** An enemy after "Move monsters and dragons": its flags and its home
    are as before, and it has not moved if it is dead or neither on
    patrol nor chasing. *)
Definition monster_moved (m' m : Monster.t) : Prop :=
  Monster.alive m' = Monster.alive m
  /\ Monster.inTunnel m' = Monster.inTunnel m
  /\ Monster.chasing m' = Monster.chasing m
  /\ Monster.homeTunnel m' = Monster.homeTunnel m
  /\ (Monster.alive m = false -> m' = m)
  /\ (Monster.inTunnel m = false -> Monster.chasing m = false -> m' = m).

Definition dragon_moved (d' d : Dragon.t) : Prop :=
  Dragon.alive d' = Dragon.alive d
  /\ Dragon.inTunnel d' = Dragon.inTunnel d
  /\ Dragon.chasing d' = Dragon.chasing d
  /\ Dragon.homeTunnel d' = Dragon.homeTunnel d
  /\ (Dragon.alive d = false -> d' = d)
  /\ (Dragon.inTunnel d = false -> Dragon.chasing d = false -> d' = d).

(** Values of [rand()] that are all odd: no tunnel gets an enemy. *)
Definition odd_rand (k : nat) : N := 1%N.

(** An overlap test that always finds an overlap. *)
Definition always_overlap (rec1 rec2 : Rectangle.t) : bool := true.

(* ================================================================== *)
(** * Properties *)
(* ================================================================== *)

(* ------------------------------------------------------------------ *)
(** ** Tunnel geometry *)
(* ------------------------------------------------------------------ *)

(** Case analysis on every integer comparison of the goal. *)
Ltac zcases :=
  repeat match goal with
    | |- context [?a >=? ?b] => rewrite (Z.geb_leb a b)
    | |- context [?a >? ?b] => rewrite (Z.gtb_ltb a b)
    | |- context [?a <=? ?b] => destruct (Z.leb_spec a b)
    | |- context [?a <? ?b] => destruct (Z.ltb_spec a b)
    | |- context [?a =? ?b] => destruct (Z.eqb_spec a b)
    end.

(** The same for the comparisons of a hypothesis. *)
Ltac zcases_in H :=
  repeat match type of H with
    | context [?a >=? ?b] => rewrite (Z.geb_leb a b) in H
    | context [?a >? ?b] => rewrite (Z.gtb_ltb a b) in H
    | context [?a <=? ?b] => destruct (Z.leb_spec a b)
    | context [?a <? ?b] => destruct (Z.ltb_spec a b)
    | context [?a =? ?b] => destruct (Z.eqb_spec a b)
    end.

Lemma spans_overlap_meaning s1 l1 s2 l2 :
  0 < l1 -> 0 < l2 ->
  spans_overlap s1 l1 s2 l2 = true <->
  exists z, (s1 <= z < s1 + l1) /\ (s2 <= z < s2 + l2).
Proof.
  intros H1 H2. unfold spans_overlap. split.
  - intros H. zcases_in H; try discriminate.
    exists (Z.max s1 s2). lia.
  - intros [z [Ha Hb]]. zcases; simpl; try reflexivity; lia.
Qed.

Lemma Intersects_sym a b :
  oriented a -> oriented b -> Tunnel.Intersects a b = Tunnel.Intersects b a.
Proof.
  unfold oriented, Tunnel.Intersects. intros Ha Hb.
  destruct (Tunnel.direction a), (Tunnel.direction b); try congruence;
    zcases; simpl; try reflexivity; lia.
Qed.

Lemma Intersects_refines a b :
  oriented a -> oriented b -> Tunnel.Intersects a b = Intersects_spec a b.
Proof.
  unfold oriented, Tunnel.Intersects, Intersects_spec, spans_overlap, in_span.
  intros Ha Hb.
  destruct (Tunnel.direction a), (Tunnel.direction b); try congruence;
    zcases; simpl; try reflexivity; lia.
Qed.

Lemma Contains_both_Intersects a b x y :
  Tunnel.Contains a x y = true -> Tunnel.Contains b x y = true ->
  Tunnel.Intersects a b = true.
Proof.
  unfold Tunnel.Contains, Tunnel.Intersects. intros Ha Hb.
  destruct (Tunnel.direction a), (Tunnel.direction b); try discriminate;
    zcases_in Ha; try discriminate; zcases_in Hb; try discriminate;
    zcases; simpl; try reflexivity; lia.
Qed.

Lemma Intersects_share_tile a b :
  oriented a -> oriented b ->
  0 < Tunnel.length a -> 0 < Tunnel.length b ->
  Tunnel.Intersects a b = true <-> share_tile a b.
Proof.
  intros Oa Ob La Lb. split.
  - unfold oriented, Tunnel.Intersects, share_tile, Tunnel.Contains in *.
    intros H.
    destruct (Tunnel.direction a) eqn:Da, (Tunnel.direction b) eqn:Db;
      try congruence; zcases_in H; try discriminate.
    + exists (Z.max (Tunnel.startX a) (Tunnel.startX b)), (Tunnel.startY a).
      split; zcases; simpl; try reflexivity; lia.
    + exists (Tunnel.startX b), (Tunnel.startY a).
      split; zcases; simpl; try reflexivity; lia.
    + exists (Tunnel.startX a), (Tunnel.startY b).
      split; zcases; simpl; try reflexivity; lia.
    + exists (Tunnel.startX a), (Z.max (Tunnel.startY a) (Tunnel.startY b)).
      split; zcases; simpl; try reflexivity; lia.
  - intros (x & y & Ha & Hb). eapply Contains_both_Intersects; eauto.
Qed.

Lemma in_span_meaning c s0 l : in_span c s0 l = true <-> within_span c s0 l.
Proof.
  unfold in_span, within_span. split.
  - intros H. zcases_in H; try discriminate. lia.
  - intros H. zcases; simpl; try reflexivity; lia.
Qed.

Lemma Intersects_spec_ref a b :
  0 < Tunnel.length a -> 0 < Tunnel.length b ->
  Intersects_spec a b = true <-> Intersects_ref a b.
Proof.
  intros La Lb. unfold Intersects_spec, Intersects_ref.
  destruct (Tunnel.direction a), (Tunnel.direction b);
    try (split; [discriminate | contradiction]);
    rewrite andb_true_iff, ?Z.eqb_eq, ?in_span_meaning,
            ?(spans_overlap_meaning _ _ _ _ La Lb);
    reflexivity.
Qed.

(** C8.  On tunnels that have an orientation, [Tunnel::Intersects] is
    the reference predicate of the specification: two tunnels of the
    same orientation intersect iff they share the perpendicular
    coordinate and their half-open spans overlap, two tunnels of opposite
    orientations iff each one's fixed coordinate falls within the span of
    the other.  [Intersects] is symmetric.  For tunnels of positive
    length the overlap of two spans is a coordinate in both, and
    [Intersects] holds exactly when the two tunnels share a tile. *)
Theorem Intersects_correct (a b : Tunnel.t) :
  oriented a -> oriented b ->
  Tunnel.Intersects a b = Intersects_spec a b
  /\ Tunnel.Intersects a b = Tunnel.Intersects b a
  /\ (0 < Tunnel.length a -> 0 < Tunnel.length b ->
      (Tunnel.Intersects a b = true <-> Intersects_ref a b)
      /\ (Tunnel.Intersects a b = true <-> share_tile a b)).
Proof.
  intros Oa Ob. split; [|split].
  - apply Intersects_refines; assumption.
  - apply Intersects_sym; assumption.
  - intros La Lb. split.
    + rewrite Intersects_refines by assumption.
      apply Intersects_spec_ref; assumption.
    + apply Intersects_share_tile; assumption.
Qed.

Lemma Intersects_correct_witness :
  let a := Tunnel.new 2 5 6 HORIZONTAL in
  let b := Tunnel.new 4 3 4 VERTICAL in
  Tunnel.Intersects a b = true
  /\ Tunnel.Intersects a b = Intersects_spec a b
  /\ Tunnel.Intersects a b = Tunnel.Intersects b a.
Proof.
  intros a b.
  assert (Oa : oriented a) by (unfold oriented; simpl; discriminate).
  assert (Ob : oriented b) by (unfold oriented; simpl; discriminate).
  destruct (Intersects_correct a b Oa Ob) as (H1 & H2 & _).
  split; [reflexivity | split; assumption].
Defined.

(* ------------------------------------------------------------------ *)
(** ** Bounded loops *)
(* ------------------------------------------------------------------ *)

Section While.

Context {St : Type} (cond : St -> bool) (body : St -> St).

Lemma while_invariant (P : St -> Prop) :
  (forall s, P s -> cond s = true -> P (body s)) ->
  forall fuel s s', P s -> while fuel cond body s = Some s' ->
    P s' /\ cond s' = false.
Proof.
  intros Hstep fuel. induction fuel as [|fuel IH]; intros s s' Hs Hrun.
  - discriminate.
  - simpl in Hrun. destruct (cond s) eqn:Hc.
    + eapply IH; [|exact Hrun]. auto.
    + inversion Hrun; subst. auto.
Qed.

Lemma while_terminates (measure : St -> nat) :
  (forall s, cond s = true -> (measure (body s) < measure s)%nat) ->
  forall fuel s, (measure s < fuel)%nat ->
    exists s', while fuel cond body s = Some s'.
Proof.
  intros Hdec fuel. induction fuel as [|fuel IH]; intros s Hm.
  - lia.
  - simpl. destruct (cond s) eqn:Hc.
    + apply IH. specialize (Hdec s Hc). lia.
    + eauto.
Qed.

End While.

(* ------------------------------------------------------------------ *)
(** ** Tunnel generation *)
(* ------------------------------------------------------------------ *)

Lemma no_intersection_spec tn ts :
  World.no_intersection tn ts = true <->
  forall b, b ∈ ts -> Tunnel.Intersects tn b = false.
Proof.
  induction ts as [|c ts IH]; simpl.
  - split; [intros _ b Hb; inversion Hb | reflexivity].
  - destruct (Tunnel.Intersects tn c) eqn:Hc.
    + split; [discriminate|]. intros H.
      assert (Hin : c ∈ c :: ts) by left.
      specialize (H c Hin). congruence.
    + rewrite IH. split.
      * intros H b Hb. inversion Hb; subst; auto.
      * intros H b Hb. apply H. right. exact Hb.
Qed.

Lemma IsValidTunnel_spec ts tn :
  World.IsValidTunnel ts tn = true <->
  World.out_of_bounds tn = false /\ World.no_intersection tn ts = true.
Proof.
  unfold World.IsValidTunnel. destruct (World.out_of_bounds tn); intuition congruence.
Qed.

Lemma accepted_in_bounds ts :
  accepted ts -> Forall (fun tn => World.out_of_bounds tn = false) ts.
Proof.
  induction 1 as [|ts tn _ IH Hv].
  - constructor.
  - apply Forall_app. split; [exact IH|].
    constructor; [|constructor]. apply IsValidTunnel_spec in Hv. tauto.
Qed.

Lemma accepted_pairwise_disjoint ts :
  accepted ts -> Forall oriented ts -> pairwise_disjoint ts.
Proof.
  induction 1 as [|ts tn _ IH Hv]; intros Hor.
  - intros i j a b _ Ha. rewrite lookup_nil in Ha. discriminate.
  - apply Forall_app in Hor as [Hor Htn]. inversion Htn as [|? ? Otn _]; subst.
    specialize (IH Hor).
    apply IsValidTunnel_spec in Hv as [_ Hv].
    rewrite no_intersection_spec in Hv.
    assert (Hlast : forall k c, (ts ++ [tn]) !! k = Some c ->
              (k < length ts)%nat /\ ts !! k = Some c
              \/ k = length ts /\ c = tn).
    { intros k c Hk. destruct (decide (k < length ts)%nat) as [Hlt|Hge].
      - left. rewrite lookup_app_l in Hk by exact Hlt. auto.
      - right. rewrite lookup_app_r in Hk by lia.
        destruct (k - length ts)%nat as [|n] eqn:Hd; simpl in Hk.
        + inversion Hk. split; [lia|reflexivity].
        + rewrite lookup_nil in Hk. discriminate. }
    intros i j a b Hij Ha Hb.
    destruct (Hlast i a Ha) as [[Hi Ha']|[Hi ->]];
      destruct (Hlast j b Hb) as [[Hj Hb']|[Hj ->]].
    + eapply IH; eauto.
    + rewrite Intersects_sym.
      * apply Hv. eapply list_elem_of_lookup_2; eauto.
      * eapply Forall_lookup_1 in Hor; eauto.
      * exact Otn.
    + apply Hv. eapply list_elem_of_lookup_2; eauto.
    + lia.
Qed.

Section Phase.

Variable rand_seq : nat -> N.
Variables (dir : TunnelDirection) (cap : nat).
Variables (cond : World.gen -> bool) (body : World.gen -> World.gen).

Hypothesis cond_def : forall g,
  cond g = (Z.of_nat (length (World.gen_tunnels g)) <? Z.of_nat cap)
           && (World.gen_attempts g <? 50).

Hypothesis body_effect : forall g,
  exists tn,
    generated_shape dir tn
    /\ World.gen_attempts (body g) = World.gen_attempts g + 1
    /\ World.gen_calls (body g) = (World.gen_calls g + 3)%nat
    /\ (World.gen_tunnels (body g) = World.gen_tunnels g
        \/ World.IsValidTunnel (World.gen_tunnels g) tn = true
           /\ World.gen_tunnels (body g) = World.gen_tunnels g ++ [tn]).

Lemma phase_inv_init base calls0 :
  phase_inv dir cap base calls0 (World.mkgen base 0 calls0).
Proof.
  exists []. simpl. rewrite app_nil_r.
  repeat split; auto; lia.
Qed.

Lemma phase_inv_step base calls0 g :
  phase_inv dir cap base calls0 g -> cond g = true ->
  phase_inv dir cap base calls0 (body g).
Proof.
  intros (new & Hts & Hshape & Hacc & Hlen & Hatt & Hcalls) Hc.
  rewrite cond_def in Hc. apply andb_true_iff in Hc as [Hc1 Hc2].
  apply Z.ltb_lt in Hc1, Hc2.
  destruct (body_effect g) as (tn & Hsh & Ha & Hk & Ht).
  destruct Ht as [Ht | [Hv Ht]].
  - exists new. rewrite Ht, Ha, Hk.
    repeat split; auto; try lia.
    all: rewrite Hcalls, Z2Nat.inj_add by lia; simpl; lia.
  - exists (new ++ [tn]). rewrite Ht, Ha, Hk.
    split; [rewrite Hts, app_assoc; reflexivity|].
    split; [apply Forall_app; split; [exact Hshape | repeat constructor; apply Hsh]|].
    split; [intros Hb; constructor; auto|].
    split; [rewrite length_app; simpl; lia|].
    split; [lia|].
    rewrite Hcalls, Z2Nat.inj_add by lia. simpl. lia.
Qed.

Lemma phase_terminates fuel g :
  0 <= World.gen_attempts g -> (51 <= fuel)%nat ->
  exists g', while fuel cond body g = Some g'.
Proof.
  intros Hatt Hfuel.
  apply (while_terminates cond body
           (fun s => Z.to_nat (50 - World.gen_attempts s))).
  - intros s Hc. rewrite cond_def in Hc.
    apply andb_true_iff in Hc as [_ Hc]. apply Z.ltb_lt in Hc.
    destruct (body_effect s) as (_ & _ & Ha & _). rewrite Ha. lia.
  - lia.
Qed.

Lemma phase_result fuel base calls0 g' :
  while fuel cond body (World.mkgen base 0 calls0) = Some g' ->
  phase_inv dir cap base calls0 g'.
Proof.
  intros Hrun.
  eapply (while_invariant cond body (phase_inv dir cap base calls0)) in Hrun.
  - apply Hrun.
  - intros s. apply phase_inv_step.
  - apply phase_inv_init.
Qed.

End Phase.

Lemma rem_rand_bound (r : N) (n : Z) : 0 < n -> 0 <= Z.rem (Z.of_N r) n < n.
Proof. intros Hn. apply Z.rem_bound_pos; lia. Qed.

Lemma horizontal_body_effect rand_seq g :
  exists tn,
    generated_shape HORIZONTAL tn
    /\ World.gen_attempts (World.horizontal_body rand_seq g)
       = World.gen_attempts g + 1
    /\ World.gen_calls (World.horizontal_body rand_seq g)
       = (World.gen_calls g + 3)%nat
    /\ (World.gen_tunnels (World.horizontal_body rand_seq g) = World.gen_tunnels g
        \/ World.IsValidTunnel (World.gen_tunnels g) tn = true
           /\ World.gen_tunnels (World.horizontal_body rand_seq g)
              = World.gen_tunnels g ++ [tn]).
Proof.
  unfold World.horizontal_body, World.rand. cbv zeta.
  match goal with
  | |- context [World.IsValidTunnel _ ?c] => exists c; set (tn := c)
  end.
  split; [|split; [|split]].
  - unfold generated_shape, tn. simpl.
    pose proof (rem_rand_bound (rand_seq (S (S (World.gen_calls g)))) 5).
    repeat split; lia.
  - reflexivity.
  - simpl. lia.
  - simpl. destruct (World.IsValidTunnel (World.gen_tunnels g) tn); auto.
Qed.

Lemma vertical_body_effect rand_seq g :
  exists tn,
    generated_shape VERTICAL tn
    /\ World.gen_attempts (World.vertical_body rand_seq g)
       = World.gen_attempts g + 1
    /\ World.gen_calls (World.vertical_body rand_seq g)
       = (World.gen_calls g + 3)%nat
    /\ (World.gen_tunnels (World.vertical_body rand_seq g) = World.gen_tunnels g
        \/ World.IsValidTunnel (World.gen_tunnels g) tn = true
           /\ World.gen_tunnels (World.vertical_body rand_seq g)
              = World.gen_tunnels g ++ [tn]).
Proof.
  unfold World.vertical_body, World.rand. cbv zeta.
  match goal with
  | |- context [World.IsValidTunnel _ ?c] => exists c; set (tn := c)
  end.
  split; [|split; [|split]].
  - unfold generated_shape, tn. simpl.
    pose proof (rem_rand_bound (rand_seq (S (S (World.gen_calls g)))) 5).
    repeat split; lia.
  - reflexivity.
  - simpl. lia.
  - simpl. destruct (World.IsValidTunnel (World.gen_tunnels g) tn); auto.
Qed.

Lemma horizontal_phase_result rand_seq fuel calls g1 :
  World.horizontal_phase rand_seq fuel calls = Some g1 ->
  phase_inv HORIZONTAL 4 [] calls g1.
Proof.
  apply (phase_result HORIZONTAL 4 World.horizontal_cond
           (World.horizontal_body rand_seq)).
  - reflexivity.
  - apply horizontal_body_effect.
Qed.

Lemma vertical_phase_result rand_seq fuel g1 g2 :
  World.vertical_phase rand_seq fuel g1 = Some g2 ->
  phase_inv VERTICAL 8 (World.gen_tunnels g1) (World.gen_calls g1) g2.
Proof.
  apply (phase_result VERTICAL 8 World.vertical_cond
           (World.vertical_body rand_seq)).
  - reflexivity.
  - apply vertical_body_effect.
Qed.

(** What [CreateTunnels] returns, in terms of its two loops. *)
Lemma CreateTunnels_inv rand_seq fuel calls layout calls' :
  World.CreateTunnels rand_seq fuel calls = Some (layout, calls') ->
  exists g1 g2,
    World.horizontal_phase rand_seq fuel calls = Some g1
    /\ World.vertical_phase rand_seq fuel g1 = Some g2
    /\ layout = World.gen_tunnels g2 /\ calls' = World.gen_calls g2.
Proof.
  unfold World.CreateTunnels. intros H.
  destruct (World.horizontal_phase rand_seq fuel calls) as [g1|]; [|discriminate].
  simpl in H.
  destruct (World.vertical_phase rand_seq fuel g1) as [g2|] eqn:H2; [|discriminate].
  simpl in H. inversion H; subst. exists g1, g2. repeat split; auto.
Qed.

(** The shape of a generated layout: the horizontal tunnels, then the
    vertical ones, every one accepted by [IsValidTunnel]. *)
Lemma CreateTunnels_layout rand_seq fuel calls layout calls' :
  World.CreateTunnels rand_seq fuel calls = Some (layout, calls') ->
  exists hs vs,
    layout = hs ++ vs
    /\ Forall (generated_shape HORIZONTAL) hs
    /\ Forall (generated_shape VERTICAL) vs
    /\ (length hs <= 4)%nat /\ (length layout <= 8)%nat
    /\ accepted layout.
Proof.
  intros H. apply CreateTunnels_inv in H as (g1 & g2 & H1 & H2 & -> & ->).
  apply horizontal_phase_result in H1
    as (hs & Hhs & Hsh1 & Hacc1 & Hlen1 & _ & _).
  apply vertical_phase_result in H2
    as (vs & Hvs & Hsh2 & Hacc2 & Hlen2 & _ & _).
  simpl in Hhs, Hlen1. exists hs, vs.
  split; [rewrite Hvs, Hhs; reflexivity|].
  split; [exact Hsh1|]. split; [exact Hsh2|].
  split; [rewrite <- Hhs; lia|].
  split; [lia|].
  apply Hacc2, Hacc1. constructor.
Qed.

Lemma generated_shape_oriented dir tn :
  dir <> NONE -> generated_shape dir tn -> oriented tn.
Proof. unfold generated_shape, oriented. intros Hd [-> _]. exact Hd. Qed.

Lemma CreateTunnels_oriented rand_seq fuel calls layout calls' :
  World.CreateTunnels rand_seq fuel calls = Some (layout, calls') ->
  Forall oriented layout.
Proof.
  intros H. apply CreateTunnels_layout in H as (hs & vs & -> & Hh & Hv & _).
  apply Forall_app. split.
  - eapply Forall_impl; [exact Hh|]. intros tn.
    apply generated_shape_oriented. discriminate.
  - eapply Forall_impl; [exact Hv|]. intros tn.
    apply generated_shape_oriented. discriminate.
Qed.

Lemma CreateTunnels_disjoint rand_seq fuel calls layout calls' :
  World.CreateTunnels rand_seq fuel calls = Some (layout, calls') ->
  pairwise_disjoint layout.
Proof.
  intros H. apply accepted_pairwise_disjoint.
  - apply CreateTunnels_layout in H as (hs & vs & _ & _ & _ & _ & _ & Hacc).
    exact Hacc.
  - eapply CreateTunnels_oriented; eauto.
Qed.

Lemma same_geometry_refl a : same_geometry a a.
Proof. repeat split. Qed.

Lemma same_geometry_set_activated b a : same_geometry (Tunnel.set_activated b a) a.
Proof. repeat split. Qed.

Lemma Intersects_same_geometry a a' b b' :
  same_geometry a a' -> same_geometry b b' ->
  Tunnel.Intersects a b = Tunnel.Intersects a' b'.
Proof.
  intros (Ha1 & Ha2 & Ha3 & Ha4) (Hb1 & Hb2 & Hb3 & Hb4).
  unfold Tunnel.Intersects.
  rewrite Ha1, Ha2, Ha3, Ha4, Hb1, Hb2, Hb3, Hb4. reflexivity.
Qed.

Lemma Contains_same_geometry a a' x y :
  same_geometry a a' -> Tunnel.Contains a x y = Tunnel.Contains a' x y.
Proof.
  intros (Ha1 & Ha2 & Ha3 & Ha4). unfold Tunnel.Contains.
  rewrite Ha1, Ha2, Ha3, Ha4. reflexivity.
Qed.

Lemma pairwise_disjoint_same_geometry ts layout :
  Forall2 same_geometry ts layout -> pairwise_disjoint layout ->
  pairwise_disjoint ts.
Proof.
  intros Hg Hd i j a b Hij Ha Hb.
  destruct (Forall2_lookup_l _ _ _ _ _ Hg Ha) as (a' & Ha' & Ga).
  destruct (Forall2_lookup_l _ _ _ _ _ Hg Hb) as (b' & Hb' & Gb).
  rewrite (Intersects_same_geometry a a' b b' Ga Gb). eapply Hd; eauto.
Qed.

(** At most one tunnel of a disjoint list contains a given tile. *)
Lemma pairwise_disjoint_one_container ts x y i j a b :
  pairwise_disjoint ts ->
  ts !! i = Some a -> ts !! j = Some b ->
  Tunnel.Contains a x y = true -> Tunnel.Contains b x y = true -> i = j.
Proof.
  intros Hd Ha Hb Ca Cb. destruct (decide (i = j)) as [|Hij]; [assumption|].
  pose proof (Hd i j a b Hij Ha Hb) as Hn.
  rewrite (Contains_both_Intersects a b x y Ca Cb) in Hn. discriminate.
Qed.

(* ------------------------------------------------------------------ *)
(** ** Tunnel activation *)
(* ------------------------------------------------------------------ *)

Lemma activation_loop_tunnels px py ts : forall i ms ds,
  (World.activation_loop px py i ts ms ds).1.1
  = map (fun tn => if triggers px py tn
                   then Tunnel.set_activated true tn else tn) ts.
Proof.
  induction ts as [|tn ts IH]; intros i ms ds; simpl; [reflexivity|].
  fold (triggers px py tn). destruct (triggers px py tn).
  - specialize (IH (S i) (World.alert_monsters i ms) (World.alert_dragons i ds)).
    destruct (World.activation_loop px py (S i) ts _ _) as [[ts' ms'] ds'].
    simpl in *. rewrite IH. reflexivity.
  - specialize (IH (S i) ms ds).
    destruct (World.activation_loop px py (S i) ts _ _) as [[ts' ms'] ds'].
    simpl in *. rewrite IH. reflexivity.
Qed.

Lemma released_cons_here px py i tn ts :
  released px py i (tn :: ts) (Some i) = triggers px py tn.
Proof.
  unfold released. rewrite Nat.sub_diag. simpl.
  destruct (Nat.leb_spec i i); [reflexivity | lia].
Qed.

Lemma released_cons_other px py i tn ts h :
  h <> Some i ->
  released px py i (tn :: ts) h = released px py (S i) ts h.
Proof.
  intros Hh. unfold released. destruct h as [j|]; [|reflexivity].
  destruct (Nat.leb_spec i j), (Nat.leb_spec (S i) j); simpl; try lia;
    try reflexivity.
  - replace (j - i)%nat with (S (j - S i)) by lia. reflexivity.
  - assert (j = i) by lia. congruence.
Qed.

Lemma released_below px py i ts : released px py (S i) ts (Some i) = false.
Proof.
  unfold released. destruct (Nat.leb_spec (S i) i); [lia | reflexivity].
Qed.

Lemma activation_loop_monsters px py ts : forall i ms ds,
  (World.activation_loop px py i ts ms ds).1.2
  = map (fun m => if released px py i ts (Monster.homeTunnel m)
                  then Monster.alert m else m) ms.
Proof.
  induction ts as [|tn ts IH]; intros i ms ds; simpl.
  - induction ms as [|m ms IHm]; simpl; [reflexivity|].
    rewrite <- IHm. unfold released.
    destruct (Monster.homeTunnel m) as [j|]; [|reflexivity].
    rewrite lookup_nil, andb_false_r. reflexivity.
  - fold (triggers px py tn). destruct (triggers px py tn) eqn:Ht.
    + specialize (IH (S i) (World.alert_monsters i ms) (World.alert_dragons i ds)).
      destruct (World.activation_loop px py (S i) ts _ _) as [[ts' ms'] ds'].
      simpl in *. rewrite IH. unfold World.alert_monsters.
      rewrite map_map. apply map_ext. intros m.
      destruct (bool_decide (Monster.homeTunnel m = Some i)) eqn:Hd.
      * apply bool_decide_eq_true in Hd. simpl. rewrite Hd.
        rewrite released_below, released_cons_here, Ht. reflexivity.
      * apply bool_decide_eq_false in Hd.
        rewrite released_cons_other by exact Hd. reflexivity.
    + specialize (IH (S i) ms ds).
      destruct (World.activation_loop px py (S i) ts _ _) as [[ts' ms'] ds'].
      simpl in *. rewrite IH. apply map_ext. intros m.
      destruct (decide (Monster.homeTunnel m = Some i)) as [Hd|Hd].
      * rewrite Hd, released_below, released_cons_here, Ht. reflexivity.
      * rewrite released_cons_other by exact Hd. reflexivity.
Qed.

Lemma activation_loop_dragons px py ts : forall i ms ds,
  (World.activation_loop px py i ts ms ds).2
  = map (fun d => if released px py i ts (Dragon.homeTunnel d)
                  then Dragon.alert d else d) ds.
Proof.
  induction ts as [|tn ts IH]; intros i ms ds; simpl.
  - induction ds as [|d ds IHd]; simpl; [reflexivity|].
    rewrite <- IHd. unfold released.
    destruct (Dragon.homeTunnel d) as [j|]; [|reflexivity].
    rewrite lookup_nil, andb_false_r. reflexivity.
  - fold (triggers px py tn). destruct (triggers px py tn) eqn:Ht.
    + specialize (IH (S i) (World.alert_monsters i ms) (World.alert_dragons i ds)).
      destruct (World.activation_loop px py (S i) ts _ _) as [[ts' ms'] ds'].
      simpl in *. rewrite IH. unfold World.alert_dragons.
      rewrite map_map. apply map_ext. intros d.
      destruct (bool_decide (Dragon.homeTunnel d = Some i)) eqn:Hd.
      * apply bool_decide_eq_true in Hd. simpl. rewrite Hd.
        rewrite released_below, released_cons_here, Ht. reflexivity.
      * apply bool_decide_eq_false in Hd.
        rewrite released_cons_other by exact Hd. reflexivity.
    + specialize (IH (S i) ms ds).
      destruct (World.activation_loop px py (S i) ts _ _) as [[ts' ms'] ds'].
      simpl in *. rewrite IH. apply map_ext. intros d.
      destruct (decide (Dragon.homeTunnel d = Some i)) as [Hd|Hd].
      * rewrite Hd, released_below, released_cons_here, Ht. reflexivity.
      * rewrite released_cons_other by exact Hd. reflexivity.
Qed.

(** [CheckTunnelActivation], loop by loop. *)
Lemma CheckTunnelActivation_eq w px py :
  tile_of_pixel (Vector2.x (Player.pos (World.player w))) = Some px ->
  tile_of_pixel (Vector2.y (Player.pos (World.player w))) = Some py ->
  World.CheckTunnelActivation w
  = Some (World.mk
            (World.player w)
            (map (fun m => if released px py 0 (World.tunnels w) (Monster.homeTunnel m)
                           then Monster.alert m else m) (World.monsters w))
            (map (fun d => if released px py 0 (World.tunnels w) (Dragon.homeTunnel d)
                           then Dragon.alert d else d) (World.dragons w))
            (map (fun tn => if triggers px py tn
                            then Tunnel.set_activated true tn else tn)
                 (World.tunnels w))
            (World.fruit w) (World.state w) (World.highScore w)
            (World.respawnTimer w)).
Proof.
  intros Hx Hy. unfold World.CheckTunnelActivation. rewrite Hx, Hy. simpl.
  pose proof (activation_loop_tunnels px py (World.tunnels w) 0%nat
                (World.monsters w) (World.dragons w)) as H1.
  pose proof (activation_loop_monsters px py (World.tunnels w) 0%nat
                (World.monsters w) (World.dragons w)) as H2.
  pose proof (activation_loop_dragons px py (World.tunnels w) 0%nat
                (World.monsters w) (World.dragons w)) as H3.
  destruct (World.activation_loop px py 0 _ _ _) as [[ts' ms'] ds'].
  simpl in *. rewrite H1, H2, H3. reflexivity.
Qed.

Lemma CheckTunnelActivation_returns w w' :
  World.CheckTunnelActivation w = Some w' ->
  exists px py,
    tile_of_pixel (Vector2.x (Player.pos (World.player w))) = Some px
    /\ tile_of_pixel (Vector2.y (Player.pos (World.player w))) = Some py.
Proof.
  unfold World.CheckTunnelActivation. intros H.
  destruct (tile_of_pixel (Vector2.x _)) as [px|]; [|discriminate].
  destruct (tile_of_pixel (Vector2.y _)) as [py|]; [|discriminate].
  eauto.
Qed.

Lemma CheckTunnelActivation_geometry w w' :
  World.CheckTunnelActivation w = Some w' ->
  Forall2 same_geometry (World.tunnels w') (World.tunnels w).
Proof.
  intros H. destruct (CheckTunnelActivation_returns w w' H) as (px & py & Hx & Hy).
  rewrite (CheckTunnelActivation_eq w px py Hx Hy) in H. inversion H; subst.
  simpl. clear. induction (World.tunnels w) as [|tn ts IH]; simpl; constructor.
  - destruct (triggers px py tn);
      [apply same_geometry_set_activated | apply same_geometry_refl].
  - exact IH.
Qed.

(* ------------------------------------------------------------------ *)
(** ** Generated layouts *)
(* ------------------------------------------------------------------ *)

Lemma ResetLevel_tunnels rand_seq fuel calls w w' calls' :
  World.ResetLevel rand_seq fuel calls w = Some (w', calls') ->
  exists layout c,
    World.CreateTunnels rand_seq fuel calls = Some (layout, c)
    /\ World.tunnels w' = map (Tunnel.set_activated false) layout.
Proof.
  unfold World.ResetLevel. intros H.
  destruct (World.CreateTunnels rand_seq fuel calls) as [[layout c]|];
    [|discriminate].
  simpl in H.
  destruct (World.place_monsters _ _ _ _ _) as [ms c2].
  destruct (World.place_dragons _ _ _ _ _ _) as [ds c3].
  inversion H; subst. simpl. eauto.
Qed.

Lemma set_activated_geometry b layout :
  Forall2 same_geometry (map (Tunnel.set_activated b) layout) layout.
Proof.
  induction layout as [|tn ts IH]; simpl; constructor; [|exact IH].
  apply same_geometry_set_activated.
Qed.

Lemma Forall2_same_geometry_trans ts1 ts2 ts3 :
  Forall2 same_geometry ts1 ts2 -> Forall2 same_geometry ts2 ts3 ->
  Forall2 same_geometry ts1 ts3.
Proof.
  intros H12. revert ts3. induction H12 as [|a b l1 l2 Hab _ IH]; intros ts3 H23.
  - inversion H23. constructor.
  - inversion H23 as [|b' c l2' l3 Hbc Hrest]; subst. constructor.
    + destruct Hab as (?&?&?&?), Hbc as (?&?&?&?).
      repeat split; congruence.
    + apply IH. exact Hrest.
Qed.

(** C1.  In every layout that [CreateTunnels] produces, two tunnels at
    different places of the list do not intersect.  The property holds
    for the whole level: [ResetLevel] installs the layout, and the one
    function that writes to a tunnel afterwards, [CheckTunnelActivation],
    keeps the place, length and direction of every tunnel. *)
Theorem CreateTunnels_no_intersection rand_seq fuel calls layout calls' :
  World.CreateTunnels rand_seq fuel calls = Some (layout, calls') ->
  (forall i j T1 T2, i <> j ->
     layout !! i = Some T1 -> layout !! j = Some T2 ->
     Tunnel.Intersects T1 T2 = false)
  /\ (forall T1 T2, T1 ∈ layout -> T2 ∈ layout -> T1 <> T2 ->
        Tunnel.Intersects T1 T2 = false)
  /\ (forall w0 w c, World.ResetLevel rand_seq fuel calls w0 = Some (w, c) ->
        Forall2 same_geometry (World.tunnels w) layout
        /\ pairwise_disjoint (World.tunnels w))
  /\ (forall w w', Forall2 same_geometry (World.tunnels w) layout ->
        World.CheckTunnelActivation w = Some w' ->
        Forall2 same_geometry (World.tunnels w') layout
        /\ pairwise_disjoint (World.tunnels w')).
Proof.
  intros Hgen. pose proof (CreateTunnels_disjoint _ _ _ _ _ Hgen) as Hd.
  split; [exact Hd | split; [|split]].
  - intros T1 T2 H1 H2 Hne.
    apply list_elem_of_lookup in H1 as [i Hi].
    apply list_elem_of_lookup in H2 as [j Hj].
    apply (Hd i j T1 T2); [congruence | exact Hi | exact Hj].
  - intros w0 w c Hr.
    apply ResetLevel_tunnels in Hr as (layout' & c' & Hgen' & Hts).
    rewrite Hgen in Hgen'. inversion Hgen'; subst layout' c'.
    assert (Hg : Forall2 same_geometry (World.tunnels w) layout)
      by (rewrite Hts; apply set_activated_geometry).
    split; [exact Hg|]. eapply pairwise_disjoint_same_geometry; eauto.
  - intros w w' Hg Hact.
    assert (Hg' : Forall2 same_geometry (World.tunnels w') layout).
    { eapply Forall2_same_geometry_trans; [|exact Hg].
      apply CheckTunnelActivation_geometry. exact Hact. }
    split; [exact Hg'|]. eapply pairwise_disjoint_same_geometry; eauto.
Qed.

Lemma CreateTunnels_no_intersection_witness :
  exists layout c,
    World.CreateTunnels lcg_rand 51 0 = Some (layout, c)
    /\ length layout = 8%nat
    /\ forall i j T1 T2, i <> j ->
         layout !! i = Some T1 -> layout !! j = Some T2 ->
         Tunnel.Intersects T1 T2 = false.
Proof.
  destruct (World.CreateTunnels lcg_rand 51 0) as [[layout c]|] eqn:E.
  - exists layout, c. split; [reflexivity|]. split.
    + vm_compute in E. inversion E. reflexivity.
    + exact (proj1 (CreateTunnels_no_intersection lcg_rand 51 0 layout c E)).
  - vm_compute in E. discriminate.
Defined.

Lemma out_of_bounds_false tn :
  World.out_of_bounds tn = false ->
  match Tunnel.direction tn with
  | HORIZONTAL =>
      1 <= Tunnel.startX tn
      /\ Tunnel.startX tn + Tunnel.length tn < GRID_WIDTH - 1
      /\ 1 <= Tunnel.startY tn < GRID_HEIGHT - 1
  | _ =>
      1 <= Tunnel.startY tn
      /\ Tunnel.startY tn + Tunnel.length tn < GRID_HEIGHT - 1
      /\ 1 <= Tunnel.startX tn < GRID_WIDTH - 1
  end.
Proof.
  unfold World.out_of_bounds, GRID_WIDTH, GRID_HEIGHT. intros H.
  destruct (Tunnel.direction tn); zcases_in H; simpl in H;
    try discriminate; lia.
Qed.

(** C2.  Every tunnel of a generated layout lies within the one-tile
    border margin: along its axis the span [[start, start+length)] is
    inside [[1, GRID_WIDTH-1)] for a horizontal tunnel and inside
    [[1, GRID_HEIGHT-1)] for a vertical one, the fixed coordinate is
    inside the other interval, and so is every tile the tunnel contains. *)
Theorem CreateTunnels_within_margin rand_seq fuel calls layout calls' T :
  World.CreateTunnels rand_seq fuel calls = Some (layout, calls') ->
  T ∈ layout ->
  match Tunnel.direction T with
  | HORIZONTAL =>
      1 <= Tunnel.startX T
      /\ Tunnel.startX T + Tunnel.length T <= GRID_WIDTH - 1
      /\ 1 <= Tunnel.startY T < GRID_HEIGHT - 1
  | _ =>
      1 <= Tunnel.startY T
      /\ Tunnel.startY T + Tunnel.length T <= GRID_HEIGHT - 1
      /\ 1 <= Tunnel.startX T < GRID_WIDTH - 1
  end
  /\ forall x y, Tunnel.Contains T x y = true ->
       1 <= x < GRID_WIDTH - 1 /\ 1 <= y < GRID_HEIGHT - 1.
Proof.
  intros Hgen HT.
  apply CreateTunnels_layout in Hgen as (hs & vs & _ & _ & _ & _ & _ & Hacc).
  apply accepted_in_bounds in Hacc.
  rewrite Forall_forall in Hacc. specialize (Hacc T HT).
  apply out_of_bounds_false in Hacc.
  unfold Tunnel.Contains. split.
  - destruct (Tunnel.direction T); lia.
  - intros x y Hc. destruct (Tunnel.direction T);
      zcases_in Hc; simpl in Hc; try discriminate; lia.
Qed.

Lemma CreateTunnels_within_margin_witness :
  let T := Tunnel.new 15 10 5 HORIZONTAL in
  (1 <= Tunnel.startX T
   /\ Tunnel.startX T + Tunnel.length T <= GRID_WIDTH - 1
   /\ 1 <= Tunnel.startY T < GRID_HEIGHT - 1)
  /\ forall x y, Tunnel.Contains T x y = true ->
       1 <= x < GRID_WIDTH - 1 /\ 1 <= y < GRID_HEIGHT - 1.
Proof.
  intros T.
  destruct (World.CreateTunnels lcg_rand 51 0) as [[layout c]|] eqn:E.
  - assert (HT : T ∈ layout).
    { vm_compute in E. inversion E. left. }
    exact (CreateTunnels_within_margin lcg_rand 51 0 layout c T E HT).
  - vm_compute in E. discriminate.
Defined.

Lemma phase_inv_direction dir cap base calls0 g :
  phase_inv dir cap base calls0 g ->
  exists new, World.gen_tunnels g = base ++ new
              /\ Forall (fun tn => Tunnel.direction tn = dir) new.
Proof.
  intros (new & Hts & Hsh & _). exists new. split; [exact Hts|].
  eapply Forall_impl; [exact Hsh|]. intros tn H. apply H.
Qed.

(** C9, as the code has it.  [CreateTunnels] terminates for every
    sequence of [rand()] values: 51 tests of each loop condition are
    enough.  Each loop makes at most 50 attempts, of three calls of
    [rand()] each.  The first loop accepts at most 4 tunnels, all
    horizontal; the second appends vertical tunnels until the list holds
    8, so at most 4 of them when the first loop reached its target, and
    at most 8 in all.  Every tunnel of the result was accepted by
    [IsValidTunnel] against the tunnels before it.  A run that stays
    below the targets returns its shorter list like any other. *)
Theorem CreateTunnels_terminates rand_seq fuel calls :
  (51 <= fuel)%nat ->
  exists g1 g2 vs,
    World.horizontal_phase rand_seq fuel calls = Some g1
    /\ World.vertical_phase rand_seq fuel g1 = Some g2
    /\ World.CreateTunnels rand_seq fuel calls
       = Some (World.gen_tunnels g2, World.gen_calls g2)
    /\ 0 <= World.gen_attempts g1 <= 50
    /\ 0 <= World.gen_attempts g2 <= 50
    /\ World.gen_calls g2
       = (calls + 3 * Z.to_nat (World.gen_attempts g1)
                + 3 * Z.to_nat (World.gen_attempts g2))%nat
    /\ World.gen_tunnels g2 = World.gen_tunnels g1 ++ vs
    /\ Forall (fun tn => Tunnel.direction tn = HORIZONTAL) (World.gen_tunnels g1)
    /\ Forall (fun tn => Tunnel.direction tn = VERTICAL) vs
    /\ (length (World.gen_tunnels g1) <= 4)%nat
    /\ (length (World.gen_tunnels g2) <= 8)%nat
    /\ (length (World.gen_tunnels g1) = 4%nat -> (length vs <= 4)%nat)
    /\ accepted (World.gen_tunnels g2).
Proof.
  intros Hfuel.
  destruct (phase_terminates HORIZONTAL 4 World.horizontal_cond
              (World.horizontal_body rand_seq) (fun _ => eq_refl)
              (horizontal_body_effect rand_seq) fuel
              (World.mkgen [] 0 calls)) as [g1 H1]; [simpl; lia | exact Hfuel |].
  destruct (phase_terminates VERTICAL 8 World.vertical_cond
              (World.vertical_body rand_seq) (fun _ => eq_refl)
              (vertical_body_effect rand_seq) fuel
              (World.mkgen (World.gen_tunnels g1) 0 (World.gen_calls g1)))
    as [g2 H2]; [simpl; lia | exact Hfuel |].
  fold (World.horizontal_phase rand_seq fuel calls) in H1.
  fold (World.vertical_phase rand_seq fuel g1) in H2.
  pose proof (horizontal_phase_result _ _ _ _ H1) as I1.
  pose proof (vertical_phase_result _ _ _ _ H2) as I2.
  destruct (phase_inv_direction _ _ _ _ _ I1) as (hs & Hhs & Hdh).
  destruct (phase_inv_direction _ _ _ _ _ I2) as (vs & Hvs & Hdv).
  destruct I1 as (hs' & _ & _ & Hacc1 & Hlen1 & Hatt1 & Hc1).
  destruct I2 as (vs' & _ & _ & Hacc2 & Hlen2 & Hatt2 & Hc2).
  simpl in Hhs, Hlen1.
  exists g1, g2, vs.
  split; [exact H1|]. split; [exact H2|].
  split; [unfold World.CreateTunnels; rewrite H1; simpl; rewrite H2; reflexivity|].
  split; [exact Hatt1|]. split; [exact Hatt2|].
  split; [rewrite Hc2, Hc1; reflexivity|].
  split; [exact Hvs|].
  split; [rewrite Hhs; exact Hdh|].
  split; [exact Hdv|].
  split; [lia|]. split; [lia|].
  split.
  - intros H4. rewrite Hvs, length_app in Hlen2. lia.
  - apply Hacc2, Hacc1. constructor.
Qed.

Lemma CreateTunnels_terminates_witness :
  exists layout c,
    World.CreateTunnels lcg_rand 51 0 = Some (layout, c)
    /\ (length layout <= 8)%nat /\ accepted layout.
Proof.
  destruct (CreateTunnels_terminates lcg_rand 51 0)
    as (g1 & g2 & vs & _ & _ & Hrun & _ & _ & _ & _ & _ & _ & _ & Hlen & _ & Hacc).
  - apply le_n.
  - exists (World.gen_tunnels g2), (World.gen_calls g2). auto.
Defined.

(** C9, as the specification words it, fails: the second loop is bounded by the
    total of 8 and not by 4 vertical tunnels.  Under [column_rand] the
    first loop accepts one horizontal tunnel in its 50 attempts and the
    second loop accepts seven vertical ones. *)
Lemma CreateTunnels_more_than_four_vertical :
  exists layout c,
    World.CreateTunnels column_rand 51 0 = Some (layout, c)
    /\ length (List.filter is_horizontal layout) = 1%nat
    /\ length (List.filter is_vertical layout) = 7%nat
    /\ ~ (length (List.filter is_vertical layout) <= 4)%nat.
Proof.
  destruct (World.CreateTunnels column_rand 51 0) as [[layout c]|] eqn:E.
  - exists layout, c. vm_compute in E. inversion E; subst.
    split; [reflexivity|]. split; [reflexivity|]. split; [reflexivity|].
    simpl. lia.
  - vm_compute in E. discriminate.
Qed.

(* ------------------------------------------------------------------ *)
(** ** One tunnel per tile *)
(* ------------------------------------------------------------------ *)

Lemma tunnel_at_ge ts x y : forall i k,
  World.tunnel_at i ts x y = Some k -> (i <= k)%nat.
Proof.
  induction ts as [|tn ts IH]; intros i k H; simpl in H; [discriminate|].
  destruct (Tunnel.Contains tn x y).
  - inversion H. lia.
  - apply IH in H. lia.
Qed.

(** The tunnel behind the returned pointer is the first one of the list
    that contains the tile. *)
Lemma tunnel_at_find ts x y : forall i,
  (k ← World.tunnel_at i ts x y; ts !! (k - i)%nat)
  = List.find (fun tn => Tunnel.Contains tn x y) ts.
Proof.
  induction ts as [|tn ts IH]; intros i; simpl; [reflexivity|].
  destruct (Tunnel.Contains tn x y) eqn:Hc.
  - simpl. rewrite Nat.sub_diag. reflexivity.
  - rewrite <- (IH (S i)).
    destruct (World.tunnel_at (S i) ts x y) as [k|] eqn:Hk; [|reflexivity].
    simpl. apply tunnel_at_ge in Hk.
    replace (k - i)%nat with (S (k - S i)) by lia. reflexivity.
Qed.

Lemma tunnel_found_find w x y :
  tunnel_found w x y
  = List.find (fun tn => Tunnel.Contains tn x y) (World.tunnels w).
Proof.
  unfold tunnel_found, World.GetTunnelAt.
  rewrite <- (tunnel_at_find (World.tunnels w) x y 0).
  destruct (World.tunnel_at 0 (World.tunnels w) x y) as [k|]; [|reflexivity].
  simpl. rewrite Nat.sub_0_r. reflexivity.
Qed.

Section OneContainer.

Variables x y : Z.

Let holds (tn : Tunnel.t) : Prop := Tunnel.Contains tn x y = true.

Lemma find_head_filter ts :
  List.find (fun tn => Tunnel.Contains tn x y) ts = head (filter holds ts).
Proof.
  induction ts as [|tn ts IH]; simpl; [reflexivity|].
  rewrite filter_cons. unfold holds at 1.
  destruct (decide (Tunnel.Contains tn x y = true)) as [Hc|Hc].
  - rewrite Hc. reflexivity.
  - apply not_true_is_false in Hc. rewrite Hc. exact IH.
Qed.

Lemma one_container_filter ts :
  (forall i j a b, ts !! i = Some a -> ts !! j = Some b ->
     holds a -> holds b -> i = j) ->
  (length (filter holds ts) <= 1)%nat.
Proof.
  induction ts as [|tn ts IH]; intros Huniq; [simpl; lia|].
  rewrite filter_cons. destruct (decide (holds tn)) as [Hc|Hc].
  - assert (Hnil : filter holds ts = []).
    { destruct (filter holds ts) as [|b rest] eqn:Hf; [reflexivity|].
      assert (Hb : b ∈ filter holds ts) by (rewrite Hf; left).
      apply list_elem_of_filter in Hb as [Hb Hin].
      apply list_elem_of_lookup in Hin as [j Hj].
      specialize (Huniq 0%nat (S j) tn b eq_refl Hj Hc Hb). discriminate. }
    rewrite Hnil. simpl. lia.
  - apply IH. intros i j a b Ha Hb Pa Pb.
    specialize (Huniq (S i) (S j) a b Ha Hb Pa Pb). lia.
Qed.

Lemma find_permutation ts ts' :
  (forall i j a b, ts !! i = Some a -> ts !! j = Some b ->
     holds a -> holds b -> i = j) ->
  ts ≡ₚ ts' ->
  List.find (fun tn => Tunnel.Contains tn x y) ts'
  = List.find (fun tn => Tunnel.Contains tn x y) ts.
Proof.
  intros Huniq Hperm. rewrite !find_head_filter.
  pose proof (one_container_filter ts Huniq) as Hlen.
  assert (Hp : filter holds ts ≡ₚ filter holds ts')
    by (rewrite Hperm; reflexivity).
  destruct (filter holds ts) as [|a [|b rest]]; simpl in Hlen; [| |lia].
  - apply Permutation_nil_l in Hp. rewrite <- Hp. reflexivity.
  - apply Permutation_singleton_l in Hp. rewrite <- Hp. reflexivity.
Qed.

End OneContainer.

Lemma newly_activated_triggers w w' px py i :
  tile_of_pixel (Vector2.x (Player.pos (World.player w))) = Some px ->
  tile_of_pixel (Vector2.y (Player.pos (World.player w))) = Some py ->
  World.CheckTunnelActivation w = Some w' ->
  newly_activated w w' i ->
  exists a, World.tunnels w !! i = Some a /\ Tunnel.Contains a px py = true.
Proof.
  intros Hx Hy Hact (a & a' & Ha & Hd & Ha' & Hon).
  rewrite (CheckTunnelActivation_eq w px py Hx Hy) in Hact.
  inversion Hact; subst w'. simpl in Ha'.
  rewrite list_lookup_fmap, Ha in Ha'. simpl in Ha'. inversion Ha'; subst a'.
  exists a. split; [exact Ha|].
  unfold triggers in Hon. destruct (Tunnel.Contains a px py); [reflexivity|].
  simpl in Hon. congruence.
Qed.

(** C10.  In a generated layout at most one tunnel contains a given
    tile.  Hence the tunnel that [GetTunnelAt] returns does not depend on
    the order of the tunnel list, and one run of [CheckTunnelActivation]
    activates at most one tunnel. *)
Theorem layout_one_tunnel_per_tile rand_seq fuel calls layout calls' :
  World.CreateTunnels rand_seq fuel calls = Some (layout, calls') ->
  (forall x y i j a b,
     layout !! i = Some a -> layout !! j = Some b ->
     Tunnel.Contains a x y = true -> Tunnel.Contains b x y = true -> i = j)
  /\ (forall w w' x y,
        Forall2 same_geometry (World.tunnels w) layout ->
        World.tunnels w ≡ₚ World.tunnels w' ->
        tunnel_found w' x y = tunnel_found w x y)
  /\ (forall w w' i j,
        Forall2 same_geometry (World.tunnels w) layout ->
        World.CheckTunnelActivation w = Some w' ->
        newly_activated w w' i -> newly_activated w w' j -> i = j).
Proof.
  intros Hgen. pose proof (CreateTunnels_disjoint _ _ _ _ _ Hgen) as Hd.
  split; [|split].
  - intros x y i j a b. apply pairwise_disjoint_one_container. exact Hd.
  - intros w w' x y Hg Hperm. rewrite !tunnel_found_find.
    apply find_permutation; [|exact Hperm].
    intros i j a b Ha Hb.
    apply (pairwise_disjoint_one_container (World.tunnels w) x y i j a b);
      [|exact Ha|exact Hb].
    eapply pairwise_disjoint_same_geometry; eauto.
  - intros w w' i j Hg Hact Hi Hj.
    destruct (CheckTunnelActivation_returns w w' Hact) as (px & py & Hx & Hy).
    destruct (newly_activated_triggers w w' px py i Hx Hy Hact Hi) as (a & Ha & Ca).
    destruct (newly_activated_triggers w w' px py j Hx Hy Hact Hj) as (b & Hb & Cb).
    eapply pairwise_disjoint_one_container with (ts := World.tunnels w); eauto.
    eapply pairwise_disjoint_same_geometry; eauto.
Qed.

Lemma layout_one_tunnel_per_tile_witness :
  exists layout c,
    World.CreateTunnels lcg_rand 51 0 = Some (layout, c)
    /\ layout !! 0%nat = Some (Tunnel.new 15 10 5 HORIZONTAL)
    /\ forall x y i j a b,
         layout !! i = Some a -> layout !! j = Some b ->
         Tunnel.Contains a x y = true -> Tunnel.Contains b x y = true ->
         i = j.
Proof.
  destruct (World.CreateTunnels lcg_rand 51 0) as [[layout c]|] eqn:E.
  - exists layout, c. split; [reflexivity|]. split.
    + vm_compute in E. inversion E. reflexivity.
    + exact (proj1 (layout_one_tunnel_per_tile lcg_rand 51 0 layout c E)).
  - vm_compute in E. discriminate.
Defined.

(** C6.  One run of [CheckTunnelActivation]: every dormant tunnel that
    contains the player's tile is activated ([activated = true] after
    the run, its place, length and direction as before), and in the same
    run every monster and every dragon whose home tunnel it is leaves the
    tunnel and chases ([inTunnel = false], [chasing = true]), however
    many of them share the tunnel; nothing else of such an enemy
    changes. *)
Theorem CheckTunnelActivation_broadcast (w : World.t) (px py : Z) :
  tile_of_pixel (Vector2.x (Player.pos (World.player w))) = Some px ->
  tile_of_pixel (Vector2.y (Player.pos (World.player w))) = Some py ->
  exists w',
    World.CheckTunnelActivation w = Some w'
    /\ forall i tn,
         World.tunnels w !! i = Some tn ->
         Tunnel.Contains tn px py = true -> Tunnel.activated tn = false ->
         World.tunnels w' !! i = Some (Tunnel.set_activated true tn)
         /\ (exists tn',
               World.tunnels w' !! i = Some tn'
               /\ Tunnel.activated tn' = true
               /\ same_geometry tn' tn
               /\ Tunnel.dug tn' = Tunnel.dug tn)
         /\ (forall k m, World.monsters w !! k = Some m ->
               Monster.homeTunnel m = Some i ->
               World.monsters w' !! k = Some (Monster.alert m)
               /\ Monster.inTunnel (Monster.alert m) = false
               /\ Monster.chasing (Monster.alert m) = true
               /\ (exists m',
                     World.monsters w' !! k = Some m'
                     /\ Monster.inTunnel m' = false
                     /\ Monster.chasing m' = true
                     /\ Monster.pos m' = Monster.pos m
                     /\ Monster.alive m' = Monster.alive m
                     /\ Monster.homeTunnel m' = Monster.homeTunnel m
                     /\ Monster.direction m' = Monster.direction m))
         /\ (forall k d, World.dragons w !! k = Some d ->
               Dragon.homeTunnel d = Some i ->
               World.dragons w' !! k = Some (Dragon.alert d)
               /\ Dragon.inTunnel (Dragon.alert d) = false
               /\ Dragon.chasing (Dragon.alert d) = true
               /\ (exists d',
                     World.dragons w' !! k = Some d'
                     /\ Dragon.inTunnel d' = false
                     /\ Dragon.chasing d' = true
                     /\ Dragon.pos d' = Dragon.pos d
                     /\ Dragon.alive d' = Dragon.alive d
                     /\ Dragon.homeTunnel d' = Dragon.homeTunnel d
                     /\ Dragon.direction d' = Dragon.direction d)).
Proof.
  intros Hx Hy. eexists. split; [apply (CheckTunnelActivation_eq w px py Hx Hy)|].
  intros i tn Hi Hc Hd. simpl.
  assert (Ht : triggers px py tn = true)
    by (unfold triggers; rewrite Hc, Hd; reflexivity).
  assert (Hr : released px py 0 (World.tunnels w) (Some i) = true).
  { unfold released. simpl. rewrite Nat.sub_0_r, Hi. exact Ht. }
  assert (Hti : map (fun tn0 => if triggers px py tn0
                                then Tunnel.set_activated true tn0 else tn0)
                    (World.tunnels w) !! i
                = Some (Tunnel.set_activated true tn)).
  { rewrite list_lookup_fmap, Hi. simpl. rewrite Ht. reflexivity. }
  split; [exact Hti|]. split; [|split].
  - exists (Tunnel.set_activated true tn). split; [exact Hti|].
    split; [reflexivity|].
    split; [apply same_geometry_set_activated | reflexivity].
  - intros k m Hk Hh.
    assert (Hmk : map (fun m0 => if released px py 0 (World.tunnels w)
                                      (Monster.homeTunnel m0)
                                 then Monster.alert m0 else m0)
                      (World.monsters w) !! k
                  = Some (Monster.alert m)).
    { rewrite list_lookup_fmap, Hk. simpl. rewrite Hh, Hr. reflexivity. }
    split; [exact Hmk|]. do 2 (split; [reflexivity|]).
    exists (Monster.alert m). split; [exact Hmk|]. repeat split.
  - intros k d Hk Hh.
    assert (Hdk : map (fun d0 => if released px py 0 (World.tunnels w)
                                      (Dragon.homeTunnel d0)
                                 then Dragon.alert d0 else d0)
                      (World.dragons w) !! k
                  = Some (Dragon.alert d)).
    { rewrite list_lookup_fmap, Hk. simpl. rewrite Hh, Hr. reflexivity. }
    split; [exact Hdk|]. do 2 (split; [reflexivity|]).
    exists (Dragon.alert d). split; [exact Hdk|]. repeat split.
Qed.

(** Scenario A: the player stands on a tile of a dormant tunnel that is
    the home of two monsters and of a dragon; the tunnel is activated and
    all three are released by the same run. *)
Lemma CheckTunnelActivation_broadcast_witness :
  let tn := Tunnel.new 2 2 4 HORIZONTAL in
  let m1 := Monster.new 128 64 (Some 0%nat) in
  let m2 := Monster.new 96 64 (Some 0%nat) in
  let d := Dragon.new 160 64 (Some 0%nat) in
  let w := sample_world (sample_player 80 70 3 0) [m1; m2] [d] [tn] 0 in
  exists w',
    World.CheckTunnelActivation w = Some w'
    /\ World.tunnels w' = [Tunnel.set_activated true tn]
    /\ World.monsters w' = [Monster.alert m1; Monster.alert m2]
    /\ World.dragons w' = [Dragon.alert d]
    /\ Forall (fun t => Tunnel.activated t = true) (World.tunnels w')
    /\ Forall (fun m => Monster.inTunnel m = false /\ Monster.chasing m = true)
              (World.monsters w')
    /\ Forall (fun d => Dragon.inTunnel d = false /\ Dragon.chasing d = true)
              (World.dragons w').
Proof.
  intros tn m1 m2 d w.
  destruct (CheckTunnelActivation_broadcast w 2 2 eq_refl eq_refl)
    as (w' & Hrun & Hall).
  exists w'. split; [exact Hrun|].
  destruct (Hall 0%nat tn eq_refl eq_refl eq_refl)
    as (_ & (tn' & Ht' & Hact & _) & Hms & Hds).
  destruct (Hms 0%nat m1 eq_refl eq_refl) as (_ & _ & _ & (m1' & Hm1 & I1 & C1 & _)).
  destruct (Hms 1%nat m2 eq_refl eq_refl) as (_ & _ & _ & (m2' & Hm2 & I2 & C2 & _)).
  destruct (Hds 0%nat d eq_refl eq_refl) as (_ & _ & _ & (d' & Hd' & I3 & C3 & _)).
  vm_compute in Hrun. inversion Hrun; subst w'.
  cbn [World.tunnels World.monsters World.dragons] in *.
  do 3 (split; [reflexivity|]).
  inversion Ht'; subst tn'. inversion Hm1; subst m1'.
  inversion Hm2; subst m2'. inversion Hd'; subst d'.
  split; [repeat constructor; exact Hact|].
  split; repeat constructor; assumption.
Defined.

(* ------------------------------------------------------------------ *)
(** ** binary32 facts on the pixel range of the screen *)
(* ------------------------------------------------------------------ *)

Lemma all_below_spec n f :
  all_below n f = true -> forall k, 0 <= k < Z.of_nat n -> f k = true.
Proof.
  induction n as [|n IH]; intros H k Hk; [lia|].
  simpl in H. apply andb_true_iff in H as [H0 H1].
  destruct (decide (k = Z.of_nat n)) as [->|Hne]; [exact H0|].
  apply IH; [exact H1 | lia].
Qed.

(** Adding or subtracting half a pixel is exact, and so are the
    conversions, for every position of the screen. *)
Lemma half_step_up k :
  0 <= k < 1700 ->
  F32.add (half k) (F32.mul F32.lit_0_5 (F32.of_int 1)) = half (k + 1).
Proof.
  intros Hk.
  assert (Hall : all_below 1700
           (fun k => bool_decide
              (F32.add (half k) (F32.mul F32.lit_0_5 (F32.of_int 1))
               = half (k + 1))) = true)
    by (vm_compute; reflexivity).
  pose proof (all_below_spec _ _ Hall k) as H. cbv beta in H.
  apply bool_decide_eq_true_1 in H; [exact H | lia].
Qed.

Lemma half_step_down k :
  0 <= k < 1700 ->
  F32.add (half k) (F32.mul F32.lit_0_5 (F32.of_int (-1))) = half (k - 1).
Proof.
  intros Hk.
  assert (Hall : all_below 1700
           (fun k => bool_decide
              (F32.add (half k) (F32.mul F32.lit_0_5 (F32.of_int (-1)))
               = half (k - 1))) = true)
    by (vm_compute; reflexivity).
  pose proof (all_below_spec _ _ Hall k) as H. cbv beta in H.
  apply bool_decide_eq_true_1 in H; [exact H | lia].
Qed.

Lemma to_int_half k :
  0 <= k < 1700 -> F32.to_int (half k) = Some (Z.quot k 2).
Proof.
  intros Hk.
  assert (Hall : all_below 1700
           (fun k => bool_decide (F32.to_int (half k) = Some (Z.quot k 2))) = true)
    by (vm_compute; reflexivity).
  pose proof (all_below_spec _ _ Hall k) as H. cbv beta in H.
  apply bool_decide_eq_true_1 in H; [exact H | lia].
Qed.

Lemma of_int_half z :
  0 <= z < 850 -> F32.of_int z = half (2 * z).
Proof.
  intros Hz.
  assert (Hall : all_below 850
           (fun z => bool_decide (F32.of_int z = half (2 * z))) = true)
    by (vm_compute; reflexivity).
  pose proof (all_below_spec _ _ Hall z) as H. cbv beta in H.
  apply bool_decide_eq_true_1 in H; [exact H | lia].
Qed.

Lemma grid_of_pixel_half k :
  0 <= k < 1700 -> grid_of_pixel (half k) = Some (k / 64).
Proof.
  intros Hk. unfold grid_of_pixel. rewrite to_int_half by exact Hk.
  simpl. f_equal. unfold TILE_SIZE.
  Z.to_euclidean_division_equations. lia.
Qed.

Lemma grid_of_pixel_tile z :
  0 <= z < 26 -> grid_of_pixel (F32.of_int (z * TILE_SIZE)) = Some z.
Proof.
  intros Hz. unfold TILE_SIZE. rewrite of_int_half by lia.
  rewrite grid_of_pixel_half by lia. f_equal.
  Z.to_euclidean_division_equations. lia.
Qed.

(* ------------------------------------------------------------------ *)
(** ** Patrol *)
(* ------------------------------------------------------------------ *)

Lemma patrol_range_up start len k :
  0 <= start -> 2 <= len ->
  patrol_range start len k 1 ->
  patrol_range start len (k + 1)
    (if ((k + 1) / 64 <=? start) || ((k + 1) / 64 >=? start + len - 1)
     then 1 * -1 else 1).
Proof.
  unfold patrol_range. intros Hs Hl (Hr & _ & _ & HR).
  assert (Hk : k < 64 * (start + len - 1)) by lia.
  zcases; simpl; Z.to_euclidean_division_equations; lia.
Qed.

Lemma patrol_range_down start len k :
  0 <= start -> 2 <= len ->
  patrol_range start len k (-1) ->
  patrol_range start len (k - 1)
    (if ((k - 1) / 64 <=? start) || ((k - 1) / 64 >=? start + len - 1)
     then -1 * -1 else -1).
Proof.
  unfold patrol_range. intros Hs Hl (Hr & _ & HL & _).
  assert (Hk : 64 * (start + 1) - 1 < k) by lia.
  zcases; simpl; Z.to_euclidean_division_equations; lia.
Qed.

Lemma patrol_range_tile start len k d :
  0 <= start -> 2 <= len ->
  patrol_range start len k d -> start <= k / 64 < start + len.
Proof.
  unfold patrol_range. intros Hs Hl (Hr & _).
  Z.to_euclidean_division_equations. lia.
Qed.

(** The bounds of a tunnel that passed the first half of
    [IsValidTunnel], for either coordinate. *)
Lemma out_of_bounds_false_range h :
  World.out_of_bounds h = false -> 0 <= Tunnel.length h ->
  1 <= Tunnel.startX h < 24 /\ 1 <= Tunnel.startY h < 17
  /\ (Tunnel.direction h = HORIZONTAL -> Tunnel.startX h + Tunnel.length h < 24)
  /\ (Tunnel.direction h <> HORIZONTAL -> Tunnel.startY h + Tunnel.length h < 17).
Proof.
  intros H Hl. apply out_of_bounds_false in H.
  unfold GRID_WIDTH, GRID_HEIGHT in H.
  destruct (Tunnel.direction h); repeat split; try congruence; lia.
Qed.

Lemma Monster_patrol_step ts i h m :
  ts !! i = Some h -> World.out_of_bounds h = false -> 2 <= Tunnel.length h ->
  Monster.alive m = true -> Monster.inTunnel m = true ->
  Monster.homeTunnel m = Some i ->
  patrol_inv h (Monster.pos m) (Monster.direction m) ->
  exists m',
    Monster.MoveInTunnel ts m = Some m'
    /\ Monster.alive m' = true /\ Monster.inTunnel m' = true
    /\ Monster.homeTunnel m' = Some i
    /\ patrol_inv h (Monster.pos m') (Monster.direction m').
Proof.
  intros Hi Hb Hl Ha Ht Hh Hinv.
  destruct (out_of_bounds_false_range h Hb) as (Bx & By & BH & BV); [lia|].
  destruct m as [[px py] al it ch ho d]. simpl in *. subst al it ho.
  unfold Monster.MoveInTunnel, patrol_inv in *. simpl in *. rewrite Hi. simpl.
  destruct (Tunnel.direction h) eqn:D; [| |contradiction].
  - specialize (BH eq_refl).
    destruct Hinv as (k & -> & -> & Hr).
    pose proof Hr as (Hk & [-> | ->] & _).
    + unfold Monster.speed. rewrite half_step_up by lia.
      rewrite grid_of_pixel_half by lia. simpl.
      eexists. split; [reflexivity|]. simpl.
      do 3 (split; [reflexivity|]). exists (k + 1).
      do 2 (split; [reflexivity|]).
      apply patrol_range_up; [lia | lia | exact Hr].
    + unfold Monster.speed. rewrite half_step_down by lia.
      rewrite grid_of_pixel_half by lia. simpl.
      eexists. split; [reflexivity|]. simpl.
      do 3 (split; [reflexivity|]). exists (k - 1).
      do 2 (split; [reflexivity|]).
      apply patrol_range_down; [lia | lia | exact Hr].
  - assert (BV' : Tunnel.startY h + Tunnel.length h < 17) by (apply BV; congruence).
    destruct Hinv as (k & -> & -> & Hr).
    pose proof Hr as (Hk & [-> | ->] & _).
    + unfold Monster.speed. rewrite half_step_up by lia.
      rewrite grid_of_pixel_half by lia. simpl.
      eexists. split; [reflexivity|]. simpl.
      do 3 (split; [reflexivity|]). exists (k + 1).
      do 2 (split; [reflexivity|]).
      apply patrol_range_up; [lia | lia | exact Hr].
    + unfold Monster.speed. rewrite half_step_down by lia.
      rewrite grid_of_pixel_half by lia. simpl.
      eexists. split; [reflexivity|]. simpl.
      do 3 (split; [reflexivity|]). exists (k - 1).
      do 2 (split; [reflexivity|]).
      apply patrol_range_down; [lia | lia | exact Hr].
Qed.

Lemma patrol_inv_in_home_span h p d :
  World.out_of_bounds h = false -> 2 <= Tunnel.length h ->
  patrol_inv h p d -> in_home_span h p = true.
Proof.
  intros Hb Hl Hinv.
  destruct (out_of_bounds_false_range h Hb) as (Bx & By & BH & BV); [lia|].
  destruct p as [px py].
  unfold patrol_inv, in_home_span, Tunnel.Contains in *. simpl in *.
  destruct (Tunnel.direction h) eqn:D; [| |contradiction].
  - specialize (BH eq_refl). destruct Hinv as (k & -> & -> & Hr).
    assert (Ht : Tunnel.startX h <= k / 64 < Tunnel.startX h + Tunnel.length h)
      by (apply (patrol_range_tile _ _ _ d); [lia | exact Hl | exact Hr]).
    destruct Hr as (Hk & _).
    rewrite grid_of_pixel_half, grid_of_pixel_tile by lia.
    zcases; simpl; try reflexivity; lia.
  - assert (BV' : Tunnel.startY h + Tunnel.length h < 17) by (apply BV; congruence).
    destruct Hinv as (k & -> & -> & Hr).
    assert (Ht : Tunnel.startY h <= k / 64 < Tunnel.startY h + Tunnel.length h)
      by (apply (patrol_range_tile _ _ _ d); [lia | exact Hl | exact Hr]).
    destruct Hr as (Hk & _).
    rewrite grid_of_pixel_half, grid_of_pixel_tile by lia.
    zcases; simpl; try reflexivity; lia.
Qed.

Lemma Monster_patrol_inv ts i h : forall n m,
  ts !! i = Some h -> World.out_of_bounds h = false -> 2 <= Tunnel.length h ->
  Monster.alive m = true -> Monster.inTunnel m = true ->
  Monster.homeTunnel m = Some i ->
  patrol_inv h (Monster.pos m) (Monster.direction m) ->
  exists m',
    Monster_patrol n ts m = Some m'
    /\ patrol_inv h (Monster.pos m') (Monster.direction m').
Proof.
  induction n as [|n IH]; intros m Hi Hb Hl Ha Ht Hh Hinv; simpl.
  - eauto.
  - destruct (Monster_patrol_step ts i h m Hi Hb Hl Ha Ht Hh Hinv)
      as (m1 & Hstep & Ha1 & Ht1 & Hh1 & Hinv1).
    rewrite Hstep. simpl. apply IH; assumption.
Qed.

(** The spawn point of a tunnel of three tiles or more is strictly
    between the two turning points. *)
Lemma spawn_patrol_inv h i :
  oriented h -> World.out_of_bounds h = false -> 3 <= Tunnel.length h ->
  patrol_inv h
    (Monster.pos (Monster.new (World.spawn_point h).1 (World.spawn_point h).2 (Some i)))
    1.
Proof.
  intros Ho Hb Hl.
  destruct (out_of_bounds_false_range h Hb) as (Bx & By & BH & BV); [lia|].
  unfold patrol_inv, World.spawn_point, oriented, patrol_range in *.
  destruct (Tunnel.direction h) eqn:D; [| |congruence]; simpl.
  - specialize (BH eq_refl).
    exists (2 * ((Tunnel.startX h + Z.quot (Tunnel.length h) 2) * TILE_SIZE)).
    split; [|split; [reflexivity|]].
    + apply of_int_half. unfold TILE_SIZE.
      Z.to_euclidean_division_equations. lia.
    + unfold TILE_SIZE. Z.to_euclidean_division_equations. lia.
  - assert (BV' : Tunnel.startY h + Tunnel.length h < 17) by (apply BV; congruence).
    exists (2 * ((Tunnel.startY h + Z.quot (Tunnel.length h) 2) * TILE_SIZE)).
    split; [|split; [reflexivity|]].
    + apply of_int_half. unfold TILE_SIZE.
      Z.to_euclidean_division_equations. lia.
    + unfold TILE_SIZE. Z.to_euclidean_division_equations. lia.
Qed.

(** The two classes have the same patrol step. *)
Lemma Dragon_MoveInTunnel_as_dragon ts m :
  Dragon.MoveInTunnel ts (as_dragon m)
  = as_dragon <$> Monster.MoveInTunnel ts m.
Proof.
  unfold Dragon.MoveInTunnel, Monster.MoveInTunnel, as_dragon. simpl.
  destruct (negb (Monster.alive m) || negb (Monster.inTunnel m)); [reflexivity|].
  destruct (Monster.homeTunnel m) as [i|]; [|reflexivity]. simpl.
  destruct (ts !! i) as [h|]; [|reflexivity]. simpl.
  unfold Dragon.speed, Monster.speed.
  destruct (Tunnel.direction h);
    match goal with
    | |- context [grid_of_pixel ?p] => destruct (grid_of_pixel p)
    end; reflexivity.
Qed.

Lemma Dragon_patrol_as_dragon ts : forall n m,
  Dragon_patrol n ts (as_dragon m) = as_dragon <$> Monster_patrol n ts m.
Proof.
  induction n as [|n IH]; intros m; simpl; [reflexivity|].
  rewrite Dragon_MoveInTunnel_as_dragon.
  destruct (Monster.MoveInTunnel ts m) as [m1|]; [|reflexivity].
  simpl. apply IH.
Qed.

Lemma as_dragon_surjective d : exists m, d = as_dragon m.
Proof.
  destruct d as [p al it ch ho dir].
  exists (Monster.mk p al it ch ho dir). reflexivity.
Qed.

Lemma Dragon_patrol_inv ts i h n d :
  ts !! i = Some h -> World.out_of_bounds h = false -> 2 <= Tunnel.length h ->
  Dragon.alive d = true -> Dragon.inTunnel d = true ->
  Dragon.homeTunnel d = Some i ->
  patrol_inv h (Dragon.pos d) (Dragon.direction d) ->
  exists d',
    Dragon_patrol n ts d = Some d'
    /\ patrol_inv h (Dragon.pos d') (Dragon.direction d').
Proof.
  intros Hi Hb Hl Ha Ht Hh Hinv.
  destruct (as_dragon_surjective d) as [m ->]. simpl in *.
  destruct (Monster_patrol_inv ts i h n m Hi Hb Hl Ha Ht Hh Hinv)
    as (m' & Hrun & Hinv').
  exists (as_dragon m'). rewrite Dragon_patrol_as_dragon, Hrun. auto.
Qed.

Lemma place_monsters_placed rand_seq all : forall ts i ms calls,
  (forall k h, ts !! k = Some h -> all !! (i + k)%nat = Some h) ->
  Forall (placed_monster all) ms ->
  Forall (placed_monster all) (World.place_monsters rand_seq i ts ms calls).1.
Proof.
  induction ts as [|tn ts IH]; intros i ms calls Hidx Hms; simpl; [exact Hms|].
  assert (Hnext : forall k h, ts !! k = Some h -> all !! (S i + k)%nat = Some h).
  { intros k h Hk. specialize (Hidx (S k) h Hk).
    replace (S i + k)%nat with (i + S k)%nat by lia. exact Hidx. }
  destruct (Z.rem (Z.of_N (rand_seq calls)) 2 =? 0).
  - destruct (World.spawn_point tn) as [x y] eqn:Hsp.
    apply IH; [exact Hnext|].
    apply Forall_app. split; [exact Hms|]. constructor; [|constructor].
    exists i, tn. split.
    + specialize (Hidx 0%nat tn eq_refl). rewrite Nat.add_0_r in Hidx. exact Hidx.
    + rewrite Hsp. reflexivity.
  - apply IH; assumption.
Qed.

Lemma place_dragons_placed rand_seq all monsters : forall ts i ds calls,
  (forall k h, ts !! k = Some h -> all !! (i + k)%nat = Some h) ->
  Forall (placed_dragon all) ds ->
  Forall (placed_dragon all)
         (World.place_dragons rand_seq i ts monsters ds calls).1.
Proof.
  induction ts as [|tn ts IH]; intros i ds calls Hidx Hds; simpl; [exact Hds|].
  assert (Hnext : forall k h, ts !! k = Some h -> all !! (S i + k)%nat = Some h).
  { intros k h Hk. specialize (Hidx (S k) h Hk).
    replace (S i + k)%nat with (i + S k)%nat by lia. exact Hidx. }
  destruct (World.hasMonster i monsters); [apply IH; assumption|].
  destruct (Z.rem (Z.of_N (rand_seq calls)) 2 =? 0).
  - destruct (World.spawn_point tn) as [x y] eqn:Hsp.
    apply IH; [exact Hnext|].
    apply Forall_app. split; [exact Hds|]. constructor; [|constructor].
    exists i, tn. split.
    + specialize (Hidx 0%nat tn eq_refl). rewrite Nat.add_0_r in Hidx. exact Hidx.
    + rewrite Hsp. reflexivity.
  - apply IH; assumption.
Qed.

Lemma CreateTunnels_patrol_ready rand_seq fuel calls layout calls' :
  World.CreateTunnels rand_seq fuel calls = Some (layout, calls') ->
  Forall patrol_ready layout.
Proof.
  intros Hgen.
  pose proof (CreateTunnels_oriented _ _ _ _ _ Hgen) as Hor.
  apply CreateTunnels_layout in Hgen
    as (hs & vs & -> & Hh & Hv & _ & _ & Hacc).
  apply accepted_in_bounds in Hacc.
  assert (Hlen : Forall (fun h => 4 <= Tunnel.length h <= 8) (hs ++ vs)).
  { apply Forall_app. split; (eapply Forall_impl; [eassumption|]);
      intros h (_ & Hl & _); exact Hl. }
  rewrite Forall_forall in *. intros h Hin.
  split; [|split]; auto.
Qed.

Lemma patrol_ready_set_activated b h :
  patrol_ready h -> patrol_ready (Tunnel.set_activated b h).
Proof. intros H. exact H. Qed.

Lemma ResetLevel_enemies rand_seq fuel calls w0 w c :
  World.ResetLevel rand_seq fuel calls w0 = Some (w, c) ->
  Forall patrol_ready (World.tunnels w)
  /\ Forall (placed_monster (World.tunnels w)) (World.monsters w)
  /\ Forall (placed_dragon (World.tunnels w)) (World.dragons w).
Proof.
  unfold World.ResetLevel. intros H.
  destruct (World.CreateTunnels rand_seq fuel calls) as [[layout c1]|] eqn:Hgen;
    [|discriminate].
  simpl in H.
  pose proof (place_monsters_placed rand_seq
                (map (Tunnel.set_activated false) layout)
                (map (Tunnel.set_activated false) layout) 0 [] c1
                (fun k h Hk => Hk) (List.Forall_nil _)) as Hm.
  destruct (World.place_monsters _ _ _ _ _) as [ms c2].
  pose proof (place_dragons_placed rand_seq
                (map (Tunnel.set_activated false) layout) ms
                (map (Tunnel.set_activated false) layout) 0 [] c2
                (fun k h Hk => Hk) (List.Forall_nil _)) as Hd.
  destruct (World.place_dragons _ _ _ _ _ _) as [ds c3].
  inversion H; subst. simpl in *.
  split; [|split; assumption].
  apply CreateTunnels_patrol_ready in Hgen.
  apply Forall_fmap. eapply Forall_impl; [exact Hgen|].
  intros h Hh. apply patrol_ready_set_activated. exact Hh.
Qed.

Lemma placed_monster_stays ts m n :
  Forall patrol_ready ts -> placed_monster ts m ->
  exists i h m',
    Monster.homeTunnel m = Some i /\ ts !! i = Some h
    /\ in_home_span h (Monster.pos m) = true
    /\ Monster_patrol n ts m = Some m'
    /\ in_home_span h (Monster.pos m') = true.
Proof.
  intros Hready (i & h & Hi & ->).
  rewrite Forall_lookup in Hready.
  destruct (Hready i h Hi) as (Ho & Hb & Hl).
  pose proof (spawn_patrol_inv h i Ho Hb ltac:(lia)) as Hinv.
  destruct (Monster_patrol_inv ts i h n
              (Monster.new (World.spawn_point h).1 (World.spawn_point h).2 (Some i))
              Hi Hb ltac:(lia) eq_refl eq_refl eq_refl Hinv)
    as (m' & Hrun & Hinv').
  exists i, h, m'. split; [reflexivity|]. split; [exact Hi|].
  split; [|split; [exact Hrun|]].
  - eapply patrol_inv_in_home_span; [exact Hb | lia | exact Hinv].
  - eapply patrol_inv_in_home_span; [exact Hb | lia | exact Hinv'].
Qed.

Lemma placed_dragon_stays ts d n :
  Forall patrol_ready ts -> placed_dragon ts d ->
  exists i h d',
    Dragon.homeTunnel d = Some i /\ ts !! i = Some h
    /\ in_home_span h (Dragon.pos d) = true
    /\ Dragon_patrol n ts d = Some d'
    /\ in_home_span h (Dragon.pos d') = true.
Proof.
  intros Hready (i & h & Hi & ->).
  destruct (placed_monster_stays ts
              (Monster.new (World.spawn_point h).1 (World.spawn_point h).2 (Some i))
              n Hready) as (i' & h' & m' & Hh & Hi' & Hin & Hrun & Hin').
  { exists i, h. auto. }
  simpl in Hh. inversion Hh; subst i'. rewrite Hi in Hi'. inversion Hi'; subst h'.
  exists i, h, (as_dragon m'). split; [reflexivity|]. split; [exact Hi|].
  split; [exact Hin|]. split; [|exact Hin'].
  change (Dragon.new (World.spawn_point h).1 (World.spawn_point h).2 (Some i))
    with (as_dragon (Monster.new (World.spawn_point h).1
                                 (World.spawn_point h).2 (Some i))).
  rewrite Dragon_patrol_as_dragon, Hrun. reflexivity.
Qed.

(** C7, as the code has it.  A live patrolling enemy whose coordinate
    along its home tunnel is a whole number of half pixels between the
    last half pixel of the first tile and the first pixel of the last
    tile, and which heads inward at either of these two points, stays in
    such a state for any number of [MoveInTunnel] steps; no step is
    undefined, and its grid tile stays within the span of the tunnel.
    Every monster and every dragon that [ResetLevel] places is in such a
    state, so it never leaves its home tunnel while it patrols. *)
Theorem patrol_stays_in_tunnel :
  (forall ts i h m n,
     ts !! i = Some h -> World.out_of_bounds h = false ->
     2 <= Tunnel.length h ->
     Monster.alive m = true -> Monster.inTunnel m = true ->
     Monster.homeTunnel m = Some i ->
     patrol_inv h (Monster.pos m) (Monster.direction m) ->
     in_home_span h (Monster.pos m) = true
     /\ exists m',
          Monster_patrol n ts m = Some m'
          /\ patrol_inv h (Monster.pos m') (Monster.direction m')
          /\ in_home_span h (Monster.pos m') = true)
  /\ (forall ts i h d n,
        ts !! i = Some h -> World.out_of_bounds h = false ->
        2 <= Tunnel.length h ->
        Dragon.alive d = true -> Dragon.inTunnel d = true ->
        Dragon.homeTunnel d = Some i ->
        patrol_inv h (Dragon.pos d) (Dragon.direction d) ->
        in_home_span h (Dragon.pos d) = true
        /\ exists d',
             Dragon_patrol n ts d = Some d'
             /\ patrol_inv h (Dragon.pos d') (Dragon.direction d')
             /\ in_home_span h (Dragon.pos d') = true)
  /\ (forall rand_seq fuel calls w0 w c,
        World.ResetLevel rand_seq fuel calls w0 = Some (w, c) ->
        (forall m n, m ∈ World.monsters w ->
           exists i h m',
             Monster.homeTunnel m = Some i /\ World.tunnels w !! i = Some h
             /\ in_home_span h (Monster.pos m) = true
             /\ Monster_patrol n (World.tunnels w) m = Some m'
             /\ in_home_span h (Monster.pos m') = true)
        /\ (forall d n, d ∈ World.dragons w ->
              exists i h d',
                Dragon.homeTunnel d = Some i /\ World.tunnels w !! i = Some h
                /\ in_home_span h (Dragon.pos d) = true
                /\ Dragon_patrol n (World.tunnels w) d = Some d'
                /\ in_home_span h (Dragon.pos d') = true)).
Proof.
  split; [|split].
  - intros ts i h m n Hi Hb Hl Ha Ht Hh Hinv.
    split; [eapply patrol_inv_in_home_span; eauto|].
    destruct (Monster_patrol_inv ts i h n m Hi Hb Hl Ha Ht Hh Hinv)
      as (m' & Hrun & Hinv').
    exists m'. split; [exact Hrun|]. split; [exact Hinv'|].
    eapply patrol_inv_in_home_span; eauto.
  - intros ts i h d n Hi Hb Hl Ha Ht Hh Hinv.
    split; [eapply patrol_inv_in_home_span; eauto|].
    destruct (Dragon_patrol_inv ts i h n d Hi Hb Hl Ha Ht Hh Hinv)
      as (d' & Hrun & Hinv').
    exists d'. split; [exact Hrun|]. split; [exact Hinv'|].
    eapply patrol_inv_in_home_span; eauto.
  - intros rand_seq fuel calls w0 w c Hreset.
    apply ResetLevel_enemies in Hreset as (Hready & Hms & Hds).
    rewrite Forall_forall in Hms. rewrite Forall_forall in Hds. split.
    + intros m n Hin. apply placed_monster_stays; auto.
    + intros d n Hin. apply placed_dragon_stays; auto.
Qed.

(** A monster placed in the middle of a tunnel of four tiles, after 200
    frames of patrol. *)
Lemma patrol_stays_in_tunnel_witness :
  let h := Tunnel.new 2 2 4 HORIZONTAL in
  let m := Monster.new 128 64 (Some 0%nat) in
  exists m',
    Monster_patrol 200 [h] m = Some m'
    /\ in_home_span h (Monster.pos m') = true.
Proof.
  intros h m.
  assert (Hinv : patrol_inv h (Monster.pos m) (Monster.direction m)).
  { exists 256. split; [reflexivity|]. split; [reflexivity|].
    unfold patrol_range. simpl. lia. }
  destruct (proj1 patrol_stays_in_tunnel [h] 0%nat h m 200%nat
              eq_refl eq_refl ltac:(simpl; lia) eq_refl eq_refl eq_refl Hinv)
    as (_ & m' & Hrun & _ & Hin).
  exists m'. split; assumption.
Defined.

(** C7, as the specification words it, fails: being on a tile of the span is not
    enough.  A live patrolling monster on the first pixel of the first
    tile of its tunnel, heading outward, is on the tile before the
    tunnel after one step. *)
Lemma patrol_leaves_tunnel_from_edge :
  let h := Tunnel.new 2 2 4 HORIZONTAL in
  let m := Monster.mk (Vector2.mk (F32.of_int 64) (F32.of_int 64))
                      true true false (Some 0%nat) (-1) in
  in_home_span h (Monster.pos m) = true
  /\ grid_of_pixel (Vector2.x (Monster.pos m)) = Some 2
  /\ exists m',
       Monster.MoveInTunnel [h] m = Some m'
       /\ Monster.alive m' = true /\ Monster.inTunnel m' = true
       /\ grid_of_pixel (Vector2.x (Monster.pos m')) = Some 1
       /\ in_home_span h (Monster.pos m') = false.
Proof.
  intros h m. split; [reflexivity|]. split; [reflexivity|].
  eexists. split; [vm_compute; reflexivity|].
  repeat split; reflexivity.
Qed.

(* ------------------------------------------------------------------ *)
(** ** The two enemy kinds *)
(* ------------------------------------------------------------------ *)

Lemma Monster_MoveTowards_chase_step target m :
  Monster.MoveTowards target m = chase_step Monster.chaseSpeed target m.
Proof. reflexivity. Qed.

Lemma Dragon_MoveTowards_chase_step target m :
  Dragon.MoveTowards target (as_dragon m)
  = as_dragon (chase_step Dragon.chaseSpeed target m).
Proof.
  unfold Dragon.MoveTowards, chase_step, as_dragon. simpl.
  destruct (negb (Monster.alive m) || Monster.inTunnel m); reflexivity.
Qed.

(** C3, as the code has it.  The patrol steps of the two classes are the
    same function of the state.  The chase steps have the same shape but
    not the same speed: a chasing monster moves 1.2 pixels per axis and
    frame, a chasing dragon 1.5.  They agree on every state that does not
    move at chase speed. *)
Theorem Monster_Dragon_behaviour :
  (forall ts m,
     Dragon.MoveInTunnel ts (as_dragon m)
     = as_dragon <$> Monster.MoveInTunnel ts m)
  /\ (forall target m,
        Monster.MoveTowards target m = chase_step F32.lit_1_2 target m)
  /\ (forall target m,
        Dragon.MoveTowards target (as_dragon m)
        = as_dragon (chase_step F32.lit_1_5 target m))
  /\ (forall target m,
        Monster.alive m && negb (Monster.inTunnel m) && Monster.chasing m = false ->
        Dragon.MoveTowards target (as_dragon m)
        = as_dragon (Monster.MoveTowards target m)).
Proof.
  split; [|split; [|split]].
  - apply Dragon_MoveInTunnel_as_dragon.
  - apply Monster_MoveTowards_chase_step.
  - apply Dragon_MoveTowards_chase_step.
  - intros target m H.
    rewrite Dragon_MoveTowards_chase_step, Monster_MoveTowards_chase_step.
    unfold chase_step.
    destruct (Monster.alive m), (Monster.inTunnel m), (Monster.chasing m);
      simpl in *; try reflexivity; discriminate.
Qed.

(** C3, as the specification words it, fails on the chase step: from the same
    state and for the same target, the monster and the dragon end at
    different positions. *)
Lemma chase_step_differs :
  let m := Monster.mk (Vector2.mk (F32.of_int 128) (F32.of_int 64))
                      true false true (Some 0%nat) 1 in
  let target := Vector2.mk (F32.of_int 100) (F32.of_int 100) in
  Dragon.MoveTowards target (as_dragon m)
  <> as_dragon (Monster.MoveTowards target m).
Proof.
  intros m target H. vm_compute in H. discriminate.
Qed.

(* ------------------------------------------------------------------ *)
(** ** Harpoon *)
(* ------------------------------------------------------------------ *)

Section Harpoon.

Variable check : Rectangle.t -> Rectangle.t -> bool.
Variable r : Rectangle.t.

Lemma harpoon_monsters_spec ms : forall score,
  Main.harpoon_monsters check r ms score
  = (map (fun m => if monster_hit check r m
                   then Monster.set_alive false m else m) ms,
     score + 100 * Z.of_nat (length (List.filter (monster_hit check r) ms))).
Proof.
  induction ms as [|m ms IH]; intros score; simpl.
  - f_equal. lia.
  - fold (monster_hit check r m). destruct (monster_hit check r m).
    + rewrite IH. simpl length. f_equal. lia.
    + rewrite IH. reflexivity.
Qed.

Lemma harpoon_dragons_spec ds : forall score,
  Main.harpoon_dragons check r ds score
  = (map (fun d => if dragon_hit check r d
                   then Dragon.set_alive false d else d) ds,
     score + 200 * Z.of_nat (length (List.filter (dragon_hit check r) ds))).
Proof.
  induction ds as [|d ds IH]; intros score; simpl.
  - f_equal. lia.
  - fold (dragon_hit check r d). destruct (dragon_hit check r d).
    + rewrite IH. simpl length. f_equal. lia.
    + rewrite IH. reflexivity.
Qed.

(** After the harpoon block no enemy is hit any more. *)
Lemma monsters_hit_once ms :
  List.filter (monster_hit check r)
    (map (fun m => if monster_hit check r m
                   then Monster.set_alive false m else m) ms) = [].
Proof.
  induction ms as [|m ms IH]; simpl; [reflexivity|].
  destruct (monster_hit check r m) eqn:Hm; simpl.
  - exact IH.
  - rewrite Hm. exact IH.
Qed.

Lemma dragons_hit_once ds :
  List.filter (dragon_hit check r)
    (map (fun d => if dragon_hit check r d
                   then Dragon.set_alive false d else d) ds) = [].
Proof.
  induction ds as [|d ds IH]; simpl; [reflexivity|].
  destruct (dragon_hit check r d) eqn:Hd; simpl.
  - exact IH.
  - rewrite Hd. exact IH.
Qed.

Lemma monsters_not_hit ms :
  List.filter (monster_hit check r) ms = [] ->
  map (fun m => if monster_hit check r m
                then Monster.set_alive false m else m) ms = ms.
Proof.
  induction ms as [|m ms IH]; simpl; [reflexivity|].
  destruct (monster_hit check r m); [discriminate|].
  intros H. rewrite IH by exact H. reflexivity.
Qed.

Lemma dragons_not_hit ds :
  List.filter (dragon_hit check r) ds = [] ->
  map (fun d => if dragon_hit check r d
                then Dragon.set_alive false d else d) ds = ds.
Proof.
  induction ds as [|d ds IH]; simpl; [reflexivity|].
  destruct (dragon_hit check r d); [discriminate|].
  intros H. rewrite IH by exact H. reflexivity.
Qed.

End Harpoon.

Lemma HandleHarpoon_active check w :
  Player.hasHarpoon (World.player w) = true ->
  0 < Player.harpoonTimer (World.player w) ->
  Main.HandleHarpoon check w
  = World.mk
      (Player.set_score
         (Player.score (World.player w)
          + 100 * Z.of_nat (length (List.filter
                    (monster_hit check (Main.harpoonRect (World.player w)))
                    (World.monsters w)))
          + 200 * Z.of_nat (length (List.filter
                    (dragon_hit check (Main.harpoonRect (World.player w)))
                    (World.dragons w))))
         (World.player w))
      (map (fun m => if monster_hit check (Main.harpoonRect (World.player w)) m
                     then Monster.set_alive false m else m) (World.monsters w))
      (map (fun d => if dragon_hit check (Main.harpoonRect (World.player w)) d
                     then Dragon.set_alive false d else d) (World.dragons w))
      (World.tunnels w) (World.fruit w) (World.state w) (World.highScore w)
      (World.respawnTimer w).
Proof.
  intros Hh Ht. unfold Main.HandleHarpoon.
  rewrite Hh. apply Z.gtb_lt in Ht. rewrite Ht. simpl.
  rewrite harpoon_monsters_spec, harpoon_dragons_spec. reflexivity.
Qed.

Lemma set_score_same p : Player.set_score (Player.score p) p = p.
Proof. destruct p. reflexivity. Qed.

Lemma harpoonRect_set_score s p :
  Main.harpoonRect (Player.set_score s p) = Main.harpoonRect p.
Proof. reflexivity. Qed.

Lemma HandleHarpoon_idempotent check w :
  Main.HandleHarpoon check (Main.HandleHarpoon check w)
  = Main.HandleHarpoon check w.
Proof.
  destruct (Player.hasHarpoon (World.player w)
            && (Player.harpoonTimer (World.player w) >? 0)) eqn:E.
  - apply andb_true_iff in E as [Hh Ht]. apply Z.gtb_lt in Ht.
    rewrite (HandleHarpoon_active check w Hh Ht).
    set (r := Main.harpoonRect (World.player w)).
    set (ms := map _ (World.monsters w)).
    set (ds := map _ (World.dragons w)).
    set (s := _ + _ + _).
    rewrite HandleHarpoon_active by (simpl; assumption).
    simpl. rewrite harpoonRect_set_score. fold r.
    unfold ms at 1 2, ds at 1 2.
    rewrite monsters_hit_once, dragons_hit_once.
    fold ms ds.
    rewrite (monsters_not_hit check r ms) by apply monsters_hit_once.
    rewrite (dragons_not_hit check r ds) by apply dragons_hit_once.
    simpl. f_equal. unfold Player.set_score. simpl. f_equal. lia.
  - unfold Main.HandleHarpoon. rewrite E. rewrite E. reflexivity.
Qed.

(** C4.  While the harpoon is active, the harpoon block kills every live
    enemy whose bounds overlap the harpoon rectangle and leaves every
    other enemy as it is, a dead one included; the score grows by 100 for
    each monster killed and by 200 for each dragon killed, so by exactly
    300 for one monster and one dragon hit in the same frame.  With no
    live enemy under the rectangle the world does not change, and running
    the block a second time changes nothing. *)
Theorem HandleHarpoon_scoring check (w : World.t) :
  Player.hasHarpoon (World.player w) = true ->
  0 < Player.harpoonTimer (World.player w) ->
  let r := Main.harpoonRect (World.player w) in
  let w' := Main.HandleHarpoon check w in
  let killed_monsters :=
    Z.of_nat (length (List.filter (monster_hit check r) (World.monsters w))) in
  let killed_dragons :=
    Z.of_nat (length (List.filter (dragon_hit check r) (World.dragons w))) in
  (forall k m, World.monsters w !! k = Some m ->
     World.monsters w' !! k
     = Some (if Monster.alive m && check r (Monster.Bounds m)
             then Monster.set_alive false m else m))
  /\ (forall k d, World.dragons w !! k = Some d ->
        World.dragons w' !! k
        = Some (if Dragon.alive d && check r (Dragon.Bounds d)
                then Dragon.set_alive false d else d))
  /\ (forall k m, World.monsters w !! k = Some m -> Monster.alive m = false ->
        World.monsters w' !! k = Some m)
  /\ (forall k d, World.dragons w !! k = Some d -> Dragon.alive d = false ->
        World.dragons w' !! k = Some d)
  /\ Player.score (World.player w')
     = Player.score (World.player w)
       + 100 * killed_monsters + 200 * killed_dragons
  /\ (killed_monsters = 1 -> killed_dragons = 1 ->
      Player.score (World.player w') = Player.score (World.player w) + 300)
  /\ (killed_monsters = 0 -> killed_dragons = 0 -> w' = w)
  /\ Main.HandleHarpoon check w' = w'.
Proof.
  intros Hh Ht r w' km kd.
  assert (Hw' : w' = _) by (apply (HandleHarpoon_active check w Hh Ht)).
  fold r in Hw'. fold km kd in Hw'.
  assert (Hm : forall k m, World.monsters w !! k = Some m ->
     World.monsters w' !! k
     = Some (if Monster.alive m && check r (Monster.Bounds m)
             then Monster.set_alive false m else m)).
  { intros k m Hk. rewrite Hw'. simpl. rewrite list_lookup_fmap, Hk. reflexivity. }
  assert (Hd : forall k d, World.dragons w !! k = Some d ->
     World.dragons w' !! k
     = Some (if Dragon.alive d && check r (Dragon.Bounds d)
             then Dragon.set_alive false d else d)).
  { intros k d Hk. rewrite Hw'. simpl. rewrite list_lookup_fmap, Hk. reflexivity. }
  assert (Hs : Player.score (World.player w')
               = Player.score (World.player w) + 100 * km + 200 * kd)
    by (rewrite Hw'; reflexivity).
  split; [exact Hm|]. split; [exact Hd|].
  split; [intros k m Hk Ha; rewrite (Hm k m Hk), Ha; reflexivity|].
  split; [intros k d Hk Ha; rewrite (Hd k d Hk), Ha; reflexivity|].
  split; [exact Hs|].
  split; [intros H1 H2; rewrite Hs, H1, H2; lia|].
  split.
  - intros H1 H2. rewrite Hw', H1, H2.
    rewrite monsters_not_hit, dragons_not_hit.
    + replace (Player.score (World.player w) + 100 * 0 + 200 * 0)
        with (Player.score (World.player w)) by lia.
      rewrite set_score_same. destruct w. reflexivity.
    + apply length_zero_iff_nil. unfold kd in H2. lia.
    + apply length_zero_iff_nil. unfold km in H1. lia.
  - apply HandleHarpoon_idempotent.
Qed.

(** Scenario B: the player at (100, 100) fires to the right; the harpoon
    rectangle overlaps a live monster, a dead monster and a live dragon.
    The score grows by exactly 300, the two live enemies die and the dead
    monster is left as it was. *)
Lemma HandleHarpoon_scoring_witness :
  let p := Player.mk (Vector2.mk (F32.of_int 100) (F32.of_int 100)) true 3
                     true (Vector2.mk (F32.of_int 1) (F32.of_int 0)) 15 40 0 in
  let m := Monster.new 130 100 (Some 0%nat) in
  let corpse := Monster.set_alive false (Monster.new 120 100 (Some 1%nat)) in
  let d := Dragon.new 150 90 (Some 2%nat) in
  let w := sample_world p [m; corpse] [d] [] 0 in
  let w' := Main.HandleHarpoon Main.raylib_CheckCollisionRecs w in
  Main.raylib_CheckCollisionRecs (Main.harpoonRect p) (Monster.Bounds corpse) = true
  /\ Player.score (World.player w') = 40 + 300
  /\ World.monsters w' = [Monster.set_alive false m; corpse]
  /\ World.dragons w' = [Dragon.set_alive false d].
Proof.
  intros p m corpse d w w'.
  destruct (HandleHarpoon_scoring Main.raylib_CheckCollisionRecs w
              eq_refl ltac:(simpl; lia))
    as (_ & _ & _ & _ & _ & H300 & _).
  split; [reflexivity|]. split.
  - apply H300; reflexivity.
  - split; reflexivity.
Defined.

(* ------------------------------------------------------------------ *)
(** ** Death resolution *)
(* ------------------------------------------------------------------ *)

Section Death.

Variable check : Rectangle.t -> Rectangle.t -> bool.

Lemma monsters_hit_player_spec ms : forall p,
  Main.monsters_hit_player check ms p
  = if existsb (monster_hit check (Player.Bounds p)) ms
    then Player.set_alive false p else p.
Proof.
  unfold Main.monsters_hit_player.
  induction ms as [|m ms IH]; intros p; simpl; [reflexivity|].
  fold (monster_hit check (Player.Bounds p) m).
  destruct (monster_hit check (Player.Bounds p) m); simpl.
  - rewrite IH. destruct (existsb _ ms); reflexivity.
  - apply IH.
Qed.

Lemma dragons_hit_player_spec ds : forall p,
  Main.dragons_hit_player check ds p
  = if existsb (dragon_hit check (Player.Bounds p)) ds
    then Player.set_alive false p else p.
Proof.
  unfold Main.dragons_hit_player.
  induction ds as [|d ds IH]; intros p; simpl; [reflexivity|].
  fold (dragon_hit check (Player.Bounds p) d).
  destruct (dragon_hit check (Player.Bounds p) d); simpl.
  - rewrite IH. destruct (existsb _ ds); reflexivity.
  - apply IH.
Qed.

Lemma PlayerCollisions_spec w :
  Main.PlayerCollisions check w
  = if player_collides check w
    then World.set_player (Player.set_alive false (World.player w)) w
    else w.
Proof.
  unfold Main.PlayerCollisions, player_collides.
  rewrite monsters_hit_player_spec.
  destruct (existsb (monster_hit check _) (World.monsters w)); simpl.
  - rewrite dragons_hit_player_spec. destruct (existsb _ _); reflexivity.
  - rewrite dragons_hit_player_spec. destruct (existsb _ _); [reflexivity|].
    destruct w. reflexivity.
Qed.

(** The harpoon and the fruit change the score and nothing else of
    what the death resolution reads. *)
Lemma HandleHarpoon_keeps w :
  let w' := Main.HandleHarpoon check w in
  Player.alive (World.player w') = Player.alive (World.player w)
  /\ Player.lives (World.player w') = Player.lives (World.player w)
  /\ World.state w' = World.state w
  /\ World.highScore w' = World.highScore w
  /\ World.respawnTimer w' = World.respawnTimer w.
Proof.
  unfold Main.HandleHarpoon.
  destruct (Player.hasHarpoon _ && _); [|repeat split].
  destruct (Main.harpoon_monsters _ _ _ _) as [ms s1].
  destruct (Main.harpoon_dragons _ _ _ _) as [ds s2].
  repeat split.
Qed.

Lemma FruitCollision_keeps w :
  let w' := Main.FruitCollision check w in
  Player.alive (World.player w') = Player.alive (World.player w)
  /\ Player.lives (World.player w') = Player.lives (World.player w)
  /\ World.state w' = World.state w
  /\ World.highScore w' = World.highScore w
  /\ World.respawnTimer w' = World.respawnTimer w
  /\ World.monsters w' = World.monsters w
  /\ World.dragons w' = World.dragons w.
Proof.
  unfold Main.FruitCollision. destruct (negb _ && _); repeat split.
Qed.

Lemma before_death_resolution_keeps w :
  player_collides check w = true ->
  let w3 := before_death_resolution check w in
  Player.alive (World.player w3) = false
  /\ Player.lives (World.player w3) = Player.lives (World.player w)
  /\ World.state w3 = World.state w
  /\ World.highScore w3 = World.highScore w
  /\ World.respawnTimer w3 = World.respawnTimer w.
Proof.
  intros Hc. unfold before_death_resolution.
  destruct (FruitCollision_keeps
              (Main.HandleHarpoon check (Main.PlayerCollisions check w)))
    as (F1 & F2 & F3 & F4 & F5 & _).
  destruct (HandleHarpoon_keeps (Main.PlayerCollisions check w))
    as (H1 & H2 & H3 & H4 & H5).
  cbv zeta in *. rewrite F1, F2, F3, F4, F5, H1, H2, H3, H4, H5.
  rewrite PlayerCollisions_spec, Hc. repeat split.
Qed.

End Death.

(** C5.  The player overlaps a live enemy, so the frame update reaches
    its death resolution with [alive = false].  With one life left the
    resolution sets [lives] to 0 and the state to [GAMEOVER], and
    [highScore] and the file take the score when, and only when, the
    score is greater than [highScore]; the file is written if it could be
    opened.  With more than one life it takes one life, starts the
    respawn countdown at [RESPAWN_DELAY] and leaves the state, the high
    score and the file as they are.  When an enemy is still alive after
    the harpoon block, the win test that ends the frame changes nothing. *)
Theorem DeathResolution_last_life check (ok ok2 : bool) (file : option Z)
    (w : World.t) :
  player_collides check w = true ->
  let w3 := before_death_resolution check w in
  let res := Main.DeathResolution ok file w3 in
  let score := Player.score (World.player w3) in
  (Player.lives (World.player w) = 1 ->
     Player.lives (World.player res.1) = 0
     /\ World.state res.1 = GAMEOVER
     /\ World.highScore res.1
        = (if score >? World.highScore w then score else World.highScore w)
     /\ res.2 = (if (score >? World.highScore w) && ok then Some score else file)
     /\ World.respawnTimer res.1 = World.respawnTimer w)
  /\ (1 < Player.lives (World.player w) ->
        Player.lives (World.player res.1) = Player.lives (World.player w) - 1
        /\ World.respawnTimer res.1 = RESPAWN_DELAY
        /\ World.state res.1 = World.state w
        /\ World.highScore res.1 = World.highScore w
        /\ res.2 = file)
  /\ Player.deathFlashTimer (World.player res.1) = DEATH_FLASH_TIME
  /\ (Main.allMonstersDead (World.monsters w3)
      && Main.allDragonsDead (World.dragons w3) = false ->
      Main.ResolveCollisions check ok ok2 file w = res).
Proof.
  intros Hc w3 res score.
  destruct (before_death_resolution_keeps check w Hc)
    as (Ha & Hl & Hs & Hh & Hr).
  fold w3 in Ha, Hl, Hs, Hh, Hr.
  assert (Hres : res = Main.DeathResolution ok file w3) by reflexivity.
  unfold Main.DeathResolution in Hres. rewrite Ha in Hres. simpl in Hres.
  rewrite Hl in Hres.
  split; [|split; [|split]].
  - intros H1. rewrite H1 in Hres. simpl in Hres.
    unfold World.SaveHighScore in Hres. simpl in Hres.
    fold score in Hres. rewrite Hh in Hres.
    destruct (score >? World.highScore w); rewrite Hres; simpl;
      rewrite ?Hr; repeat split; try assumption.
  - intros H1. assert (Hgt : (Player.lives (World.player w) - 1 >? 0) = true)
      by (apply Z.gtb_lt; lia).
    rewrite Hgt in Hres. rewrite Hres. simpl.
    repeat split; assumption.
  - rewrite Hres.
    destruct (Player.lives (World.player w) - 1 >? 0); simpl; [reflexivity|].
    destruct (World.SaveHighScore ok file _) as [w2 f2] eqn:Hsave.
    unfold World.SaveHighScore in Hsave.
    destruct (_ >? _) in Hsave; inversion Hsave; reflexivity.
  - intros Hlive. unfold Main.ResolveCollisions.
    fold (before_death_resolution check w). fold w3. fold res.
    destruct res as [w4 f4] eqn:Eres. unfold Main.WinCheck.
    assert (Hm : World.monsters w4 = World.monsters w3
                 /\ World.dragons w4 = World.dragons w3).
    { assert (E : w4 = (w4, f4).1) by reflexivity. rewrite E, Hres.
      destruct (Player.lives (World.player w) - 1 >? 0); simpl; [split; reflexivity|].
      unfold World.SaveHighScore.
      destruct (_ >? _); simpl; split; reflexivity. }
    destruct Hm as [-> ->]. rewrite Hlive. reflexivity.
Qed.

(** Scenario C: the player, on its last life and with 250 points,
    overlaps a live monster; the stored high score is 200. *)
Lemma DeathResolution_last_life_witness :
  let w := sample_world (sample_player 100 100 1 250)
             [Monster.new 110 100 (Some 0%nat)] [] [] 200 in
  let res := Main.DeathResolution true (Some 200)
               (before_death_resolution Main.raylib_CheckCollisionRecs w) in
  Player.lives (World.player res.1) = 0
  /\ World.state res.1 = GAMEOVER
  /\ World.highScore res.1 = 250
  /\ res.2 = Some 250.
Proof.
  intros w res.
  destruct (DeathResolution_last_life Main.raylib_CheckCollisionRecs
              true true (Some 200) w eq_refl)
    as (Hlast & _).
  destruct (Hlast eq_refl) as (H1 & H2 & H3 & H4 & _).
  repeat split; assumption.
Defined.

(** The frame that takes the last life can still end in [WIN]: the
    harpoon block runs after the collision test, and when it kills the
    last enemy the win test overwrites [GAMEOVER]. *)
Remark last_life_and_last_enemy :
  let p := Player.mk (Vector2.mk (F32.of_int 100) (F32.of_int 100)) true 1
                     true (Vector2.mk (F32.of_int 1) (F32.of_int 0)) 15 0 0 in
  let w := sample_world p [Monster.new 110 100 (Some 0%nat)] [] [] 0 in
  let res := Main.ResolveCollisions Main.raylib_CheckCollisionRecs
               true true None w in
  Player.lives (World.player res.1) = 0 /\ World.state res.1 = WIN.
Proof. split; reflexivity. Qed.

(** The third value of [TunnelDirection] is outside the reference
    definition: a tunnel without orientation contains no tile, and
    [Intersects] is not symmetric on such tunnels. *)
Remark Intersects_without_orientation :
  let a := Tunnel.new 1 0 2 NONE in
  let b := Tunnel.new 0 0 2 NONE in
  Tunnel.Intersects a b = true /\ Tunnel.Intersects b a = false
  /\ forall x y, Tunnel.Contains a x y = false.
Proof. repeat split. Qed.

(** A run below the targets: when [rand()] returns 0 at every call, each
    loop proposes the same tunnel 50 times; the first loop accepts it
    once, the second never, and [CreateTunnels] returns the one tunnel
    after 300 calls of [rand()]. *)
Remark CreateTunnels_short_layout :
  World.CreateTunnels (fun _ => 0%N) 51 0
  = Some ([Tunnel.new 2 2 4 HORIZONTAL], 300%nat).
Proof. vm_compute. reflexivity. Qed.

(* ================================================================== *)
(** * Further properties of the program *)
(* ================================================================== *)

(* ------------------------------------------------------------------ *)
(** ** Normalised rectangles *)
(* ------------------------------------------------------------------ *)




(* ------------------------------------------------------------------ *)
(** ** The player: movement and drawing *)
(* ------------------------------------------------------------------ *)

Lemma clamp_low lim v :
  F32.ltb (F32.of_int lim) (F32.of_int 0) = false ->
  F32.ltb
    (if F32.gtb (if F32.ltb v (F32.of_int 0) then F32.of_int 0 else v)
                (F32.of_int lim)
     then F32.of_int lim
     else if F32.ltb v (F32.of_int 0) then F32.of_int 0 else v)
    (F32.of_int 0) = false.
Proof.
  intros Hlim.
  destruct (F32.ltb v (F32.of_int 0)) eqn:Hv.
  - destruct (F32.gtb (F32.of_int 0) (F32.of_int lim)); [exact Hlim | reflexivity].
  - destruct (F32.gtb v (F32.of_int lim)); [exact Hlim | exact Hv].
Qed.

Lemma clamp_high lim v :
  F32.gtb (F32.of_int 0) (F32.of_int lim) = false ->
  F32.gtb (F32.of_int lim) (F32.of_int lim) = false ->
  F32.gtb
    (if F32.gtb (if F32.ltb v (F32.of_int 0) then F32.of_int 0 else v)
                (F32.of_int lim)
     then F32.of_int lim
     else if F32.ltb v (F32.of_int 0) then F32.of_int 0 else v)
    (F32.of_int lim) = false.
Proof.
  intros H0 Hlim.
  destruct (F32.ltb v (F32.of_int 0)) eqn:Hv.
  - rewrite H0. exact H0.
  - destruct (F32.gtb v (F32.of_int lim)) eqn:Hg; [exact Hlim | exact Hg].
Qed.

(** X2.  After [Player::Move] the player's position is never left of or
    above the window and never beyond [SCREEN_W - size], [SCREEN_H - size],
    whatever the position before and whatever keys are down; the move
    leaves [alive], [lives], [score] and the death flash as they are. *)
Theorem Player_Move_clamped (inp : Input) (p : Player.t) :
  let p' := Player_Move inp p in
  F32.ltb (Vector2.x (Player.pos p')) (F32.of_int 0) = false
  /\ F32.gtb (Vector2.x (Player.pos p')) (F32.of_int (SCREEN_W - Player.size))
     = false
  /\ F32.ltb (Vector2.y (Player.pos p')) (F32.of_int 0) = false
  /\ F32.gtb (Vector2.y (Player.pos p')) (F32.of_int (SCREEN_H - Player.size))
     = false
  /\ Player.alive p' = Player.alive p
  /\ Player.lives p' = Player.lives p
  /\ Player.score p' = Player.score p
  /\ Player.deathFlashTimer p' = Player.deathFlashTimer p.
Proof.
  unfold Player_Move.
  destruct (KEY_RIGHT inp), (KEY_LEFT inp), (KEY_UP inp), (KEY_DOWN inp),
           (KEY_SPACE inp);
    cbv beta iota zeta
        delta [Player.pos Player.alive Player.lives Player.score
               Player.deathFlashTimer Vector2.x Vector2.y];
    (split; [apply clamp_low; reflexivity|]);
    (split; [apply clamp_high; reflexivity|]);
    (split; [apply clamp_low; reflexivity|]);
    (split; [apply clamp_high; reflexivity|]);
    repeat split.
Qed.

Lemma Player_Draw_inactive p : forall n,
  harpoon_active p = false ->
  Player.hasHarpoon (Player_Draw_n n p) = Player.hasHarpoon p
  /\ Player.harpoonTimer (Player_Draw_n n p) = Player.harpoonTimer p.
Proof.
  intros n. revert p. induction n as [|n IH]; intros p Hp; simpl; [auto|].
  assert (Hd : Player.hasHarpoon (Player_Draw p) = Player.hasHarpoon p
               /\ Player.harpoonTimer (Player_Draw p) = Player.harpoonTimer p).
  { unfold Player_Draw. unfold harpoon_active in Hp. rewrite Hp. auto. }
  destruct Hd as [H1 H2].
  destruct (IH (Player_Draw p)) as [I1 I2].
  - unfold harpoon_active. rewrite H1, H2. exact Hp.
  - rewrite I1, I2. auto.
Qed.

Lemma Player_Draw_flash p : forall n,
  Player.deathFlashTimer (Player_Draw_n n p)
  = Z.max (Z.min 0 (Player.deathFlashTimer p))
          (Player.deathFlashTimer p - Z.of_nat n).
Proof.
  intros n. revert p. induction n as [|n IH]; intros p.
  - simpl. lia.
  - cbn [Player_Draw_n]. rewrite IH.
    assert (Hd : Player.deathFlashTimer (Player_Draw p)
                 = if Player.deathFlashTimer p >? 0
                   then Player.deathFlashTimer p - 1
                   else Player.deathFlashTimer p).
    { unfold Player_Draw.
      destruct (Player.hasHarpoon p && (Player.harpoonTimer p >? 0));
        reflexivity. }
    rewrite Hd. destruct (Z.gtb_spec (Player.deathFlashTimer p) 0); lia.
Qed.

Lemma harpoon_countdown : forall n p,
  Player.hasHarpoon p = true -> 0 < Player.harpoonTimer p ->
  Player.hasHarpoon (Player_Draw_n n p) = (Z.of_nat n <? Player.harpoonTimer p)
  /\ Player.harpoonTimer (Player_Draw_n n p)
     = Z.max 0 (Player.harpoonTimer p - Z.of_nat n).
Proof.
  induction n as [|n IH]; intros p Hh Ht.
  - simpl. rewrite Hh. split; [|lia].
    destruct (Z.ltb_spec (Z.of_nat 0) (Player.harpoonTimer p));
      [reflexivity | simpl in *; lia].
  - cbn [Player_Draw_n].
    assert (Hstep : Player.hasHarpoon (Player_Draw p)
                    = negb (Player.harpoonTimer p - 1 <=? 0)
                    /\ Player.harpoonTimer (Player_Draw p)
                       = Player.harpoonTimer p - 1).
    { unfold Player_Draw. rewrite Hh.
      destruct (Z.gtb_spec (Player.harpoonTimer p) 0); [|lia]. simpl.
      destruct (Player.harpoonTimer p - 1 <=? 0); auto. }
    destruct Hstep as [S1 S2].
    destruct (Z.leb_spec (Player.harpoonTimer p - 1) 0) as [Hlast|Hmore];
      simpl in S1.
    + destruct (Player_Draw_inactive (Player_Draw p) n) as [I1 I2].
      { unfold harpoon_active. rewrite S1. reflexivity. }
      rewrite I1, I2, S1, S2. split; [|lia].
      destruct (Z.ltb_spec (Z.of_nat (S n)) (Player.harpoonTimer p));
        [lia | reflexivity].
    + destruct (IH (Player_Draw p) S1 ltac:(lia)) as [I1 I2].
      rewrite I1, I2, S2. split; [|lia].
      destruct (Z.ltb_spec (Z.of_nat n) (Player.harpoonTimer p - 1)),
               (Z.ltb_spec (Z.of_nat (S n)) (Player.harpoonTimer p));
        try reflexivity; lia.
Qed.

(** X3.  A harpoon with [t] frames left stays active, for the test of
    the frame update, through exactly [t] calls of [Player::Draw]: after
    [n] calls it is active iff [n < t], and from the [t]-th call on
    [hasHarpoon] is false and the timer is 0.  The death flash counts
    down to 0 in the same way and stays there. *)
Theorem harpoon_lifetime (p : Player.t) (n : nat) :
  Player.hasHarpoon p = true -> 0 < Player.harpoonTimer p ->
  let q := Player_Draw_n n p in
  harpoon_active q = (Z.of_nat n <? Player.harpoonTimer p)
  /\ Player.hasHarpoon q = (Z.of_nat n <? Player.harpoonTimer p)
  /\ Player.harpoonTimer q = Z.max 0 (Player.harpoonTimer p - Z.of_nat n)
  /\ Player.deathFlashTimer q
     = Z.max (Z.min 0 (Player.deathFlashTimer p))
             (Player.deathFlashTimer p - Z.of_nat n).
Proof.
  intros Hh Ht q. destruct (harpoon_countdown n p Hh Ht) as [H1 H2].
  fold q in H1, H2.
  split; [|split; [exact H1|split; [exact H2|apply Player_Draw_flash]]].
  unfold harpoon_active. rewrite H1, H2.
  destruct (Z.ltb_spec (Z.of_nat n) (Player.harpoonTimer p)); [|reflexivity].
  simpl. apply Z.gtb_lt. lia.
Qed.

(** The harpoon fired by the space key is active for the collision
    tests of 15 frames. *)
Lemma harpoon_lifetime_witness :
  let inp := mkInput false false false false true false false false true true in
  let p := Player_Move inp (sample_player 100 100 3 0) in
  harpoon_active (Player_Draw_n 14 p) = true
  /\ harpoon_active (Player_Draw_n 15 p) = false.
Proof.
  intros inp p.
  destruct (harpoon_lifetime p 14 eq_refl ltac:(simpl; lia)) as (H14 & _).
  destruct (harpoon_lifetime p 15 eq_refl ltac:(simpl; lia)) as (H15 & _).
  split; [rewrite H14 | rewrite H15]; reflexivity.
Defined.

(* ------------------------------------------------------------------ *)
(** ** The player on the pixel lattice *)
(* ------------------------------------------------------------------ *)

Lemma all_from_spec lo n f :
  all_below n (fun k => f (k + lo)) = true ->
  forall z, lo <= z < lo + Z.of_nat n -> f z = true.
Proof.
  intros H z Hz.
  pose proof (all_below_spec n _ H (z - lo)) as Hk. cbv beta in Hk.
  replace (z - lo + lo) with z in Hk by lia. apply Hk. lia.
Qed.

(** binary32 is exact on the whole pixels around the window. *)
Lemma add_speed z :
  -4 <= z < 796 -> F32.add (F32.of_int z) Player.speed = F32.of_int (z + 2).
Proof.
  intros Hz.
  assert (Hall : all_below 800
            (fun k => bool_decide
               (F32.add (F32.of_int (k + -4)) Player.speed
                = F32.of_int (k + -4 + 2))) = true)
    by (vm_compute; reflexivity).
  pose proof (all_from_spec (-4) 800
                (fun z => bool_decide (F32.add (F32.of_int z) Player.speed
                                       = F32.of_int (z + 2))) Hall z) as H.
  apply bool_decide_eq_true_1 in H; [exact H | lia].
Qed.

Lemma sub_speed z :
  -4 <= z < 796 -> F32.sub (F32.of_int z) Player.speed = F32.of_int (z - 2).
Proof.
  intros Hz.
  assert (Hall : all_below 800
            (fun k => bool_decide
               (F32.sub (F32.of_int (k + -4)) Player.speed
                = F32.of_int (k + -4 - 2))) = true)
    by (vm_compute; reflexivity).
  pose proof (all_from_spec (-4) 800
                (fun z => bool_decide (F32.sub (F32.of_int z) Player.speed
                                       = F32.of_int (z - 2))) Hall z) as H.
  apply bool_decide_eq_true_1 in H; [exact H | lia].
Qed.

Lemma ltb_zero z :
  -4 <= z < 796 -> F32.ltb (F32.of_int z) (F32.of_int 0) = (z <? 0).
Proof.
  intros Hz.
  assert (Hall : all_below 800
            (fun k => Bool.eqb (F32.ltb (F32.of_int (k + -4)) (F32.of_int 0))
                               (k + -4 <? 0)) = true)
    by (vm_compute; reflexivity).
  pose proof (all_from_spec (-4) 800
                (fun z => Bool.eqb (F32.ltb (F32.of_int z) (F32.of_int 0))
                                   (z <? 0)) Hall z) as H.
  apply Bool.eqb_prop. apply H. lia.
Qed.

Lemma gtb_limit lim z :
  lim = SCREEN_W - Player.size \/ lim = SCREEN_H - Player.size ->
  -4 <= z < 796 -> F32.gtb (F32.of_int z) (F32.of_int lim) = (z >? lim).
Proof.
  intros Hlim Hz.
  assert (Hall : forall l, all_below 800
            (fun k => Bool.eqb (F32.gtb (F32.of_int (k + -4)) (F32.of_int l))
                               (k + -4 >? l)) = true ->
            F32.gtb (F32.of_int z) (F32.of_int l) = (z >? l)).
  { intros l Hl.
    pose proof (all_from_spec (-4) 800
                  (fun z => Bool.eqb (F32.gtb (F32.of_int z) (F32.of_int l))
                                     (z >? l)) Hl z) as H.
    apply Bool.eqb_prop. apply H. lia. }
  destruct Hlim as [-> | ->]; apply Hall; vm_compute; reflexivity.
Qed.

Lemma tile_of_pixel_int z :
  0 <= z < 800 -> tile_of_pixel (F32.of_int z) = Some (z / 32).
Proof.
  intros Hz.
  assert (Hall : all_below 800
            (fun k => bool_decide (tile_of_pixel (F32.of_int k) = Some (k / 32)))
          = true)
    by (vm_compute; reflexivity).
  pose proof (all_below_spec 800 _ Hall z) as H. cbv beta in H.
  apply bool_decide_eq_true_1 in H; [exact H | lia].
Qed.

(** The clamp of [Player::Move] on a whole pixel. *)
Lemma clamp_lattice lim z :
  lim = SCREEN_W - Player.size \/ lim = SCREEN_H - Player.size ->
  -4 <= z < 796 ->
  (if F32.gtb (if F32.ltb (F32.of_int z) (F32.of_int 0)
               then F32.of_int 0 else F32.of_int z)
              (F32.of_int lim)
   then F32.of_int lim
   else if F32.ltb (F32.of_int z) (F32.of_int 0)
        then F32.of_int 0 else F32.of_int z)
  = F32.of_int (Z.min lim (Z.max 0 z)).
Proof.
  intros Hlim Hz. rewrite (ltb_zero z Hz).
  assert (Hl : lim = 768 \/ lim = 544) by (destruct Hlim as [-> | ->]; auto).
  destruct (Z.ltb_spec z 0).
  - rewrite (gtb_limit lim 0 Hlim) by lia.
    destruct (Z.gtb_spec 0 lim); [lia|]. f_equal. lia.
  - rewrite (gtb_limit lim z Hlim Hz).
    destruct (Z.gtb_spec z lim); f_equal; lia.
Qed.

Lemma Player_Move_lattice inp p :
  on_lattice p -> on_lattice (Player_Move inp p).
Proof.
  intros (i & j & Hi & Hj & Hpos). unfold Player_Move. rewrite Hpos.
  cbv beta iota zeta delta [Vector2.x Vector2.y].
  destruct (KEY_RIGHT inp), (KEY_LEFT inp), (KEY_UP inp), (KEY_DOWN inp),
           (KEY_SPACE inp);
    cbv beta iota zeta;
    rewrite ?add_speed, ?sub_speed, ?add_speed, ?sub_speed by lia;
    rewrite !clamp_lattice by (auto; lia);
    unfold on_lattice; cbn [Player.pos];
    match goal with
    | |- context [Vector2.mk (F32.of_int ?a) (F32.of_int ?b)] =>
        exists (a / 2), (b / 2)
    end;
    unfold SCREEN_W, SCREEN_H, GRID_WIDTH, GRID_HEIGHT, Player.size, TILE_SIZE;
    (split; [Z.to_euclidean_division_equations; lia|]);
    (split; [Z.to_euclidean_division_equations; lia|]);
    f_equal; f_equal; Z.to_euclidean_division_equations; lia.
Qed.

Lemma Player_Move_aim inp p :
  unit_aim (Player.harpoonDir p) -> unit_aim (Player.harpoonDir (Player_Move inp p)).
Proof.
  intros H. unfold Player_Move.
  destruct (KEY_RIGHT inp), (KEY_LEFT inp), (KEY_UP inp), (KEY_DOWN inp),
           (KEY_SPACE inp);
    cbv beta iota zeta; cbn [Player.harpoonDir]; unfold unit_aim; auto.
Qed.

Lemma on_lattice_tile p :
  on_lattice p ->
  exists gx gy,
    tile_of_pixel (Vector2.x (Player.pos p)) = Some gx
    /\ tile_of_pixel (Vector2.y (Player.pos p)) = Some gy
    /\ 0 <= gx < GRID_WIDTH /\ 0 <= gy < GRID_HEIGHT.
Proof.
  intros (i & j & Hi & Hj & ->). simpl.
  exists (2 * i / 32), (2 * j / 32).
  rewrite !tile_of_pixel_int by lia.
  unfold GRID_WIDTH, GRID_HEIGHT.
  repeat split; Z.to_euclidean_division_equations; lia.
Qed.

(* ------------------------------------------------------------------ *)
(** ** The dug mask *)
(* ------------------------------------------------------------------ *)

Lemma dug_get_in_range dug y x :
  dug_dims dug -> 0 <= y < GRID_HEIGHT -> 0 <= x < GRID_WIDTH ->
  is_Some (dug_get dug y x).
Proof.
  intros [Hlen Hrow] Hy Hx. unfold dug_get.
  destruct (Z.leb_spec 0 y), (Z.leb_spec 0 x); try lia. simpl.
  destruct (lookup_lt_is_Some_2 dug (Z.to_nat y)) as [row Hr]; [lia|].
  rewrite Hr. simpl. apply lookup_lt_is_Some_2.
  rewrite (Hrow _ _ Hr). lia.
Qed.

Lemma dug_new_dims : dug_dims dug_new.
Proof.
  unfold dug_dims, dug_new. rewrite length_replicate. split; [reflexivity|].
  intros k row Hk. apply lookup_replicate in Hk as [-> _].
  apply length_replicate.
Qed.

Lemma dug_clear_dims dug : dug_dims dug -> dug_dims (dug_clear dug).
Proof.
  intros [Hlen Hrow]. unfold dug_dims, dug_clear.
  rewrite length_map. split; [exact Hlen|].
  intros k row Hk. rewrite list_lookup_fmap in Hk.
  destruct (dug !! k) as [r|] eqn:Hr; [|discriminate].
  inversion Hk; subst. rewrite length_map. eauto.
Qed.

Lemma dug_clear_at dug y x : dug_at (dug_clear dug) y x = false.
Proof.
  unfold dug_at, dug_get, dug_clear.
  destruct ((0 <=? y) && (0 <=? x)); [|reflexivity].
  rewrite list_lookup_fmap. destruct (dug !! Z.to_nat y) as [r|]; [|reflexivity].
  simpl. rewrite list_lookup_fmap. destruct (r !! Z.to_nat x); reflexivity.
Qed.

(** A write in range is defined, keeps the size and sets one tile. *)
Lemma dug_set_spec dug y x :
  dug_dims dug -> 0 <= y < GRID_HEIGHT -> 0 <= x < GRID_WIDTH ->
  exists dug',
    dug_set y x dug = Some dug' /\ dug_dims dug'
    /\ forall y' x',
         dug_at dug' y' x' = dug_at dug y' x' || ((y' =? y) && (x' =? x)).
Proof.
  intros Hd Hy Hx. pose proof Hd as [Hlen Hrow].
  destruct (dug_get_in_range dug y x Hd Hy Hx) as [b Hb].
  unfold dug_set. rewrite Hb. eexists. split; [reflexivity|]. split.
  - split; [rewrite length_alter; exact Hlen|].
    intros k row Hk. destruct (decide (k = Z.to_nat y)) as [->|Hne].
    + rewrite list_lookup_alter_eq in Hk.
      destruct (dug !! Z.to_nat y) as [r|] eqn:Hr; [|discriminate].
      inversion Hk; subst. rewrite length_insert. eauto.
    + rewrite list_lookup_alter_ne in Hk by congruence. eauto.
  - intros y' x'. unfold dug_at, dug_get.
    destruct (Z.leb_spec 0 y'), (Z.leb_spec 0 x'); simpl;
      try (destruct (Z.eqb_spec y' y), (Z.eqb_spec x' x); simpl;
           try reflexivity; lia).
    destruct (Z.eqb_spec y' y) as [->|Hy'].
    + rewrite list_lookup_alter_eq.
      destruct (dug !! Z.to_nat y) as [r|] eqn:Hr; simpl.
      * destruct (Z.eqb_spec x' x) as [->|Hx'].
        -- rewrite list_lookup_insert_eq by (rewrite (Hrow _ _ Hr); lia).
           rewrite orb_true_r. reflexivity.
        -- rewrite list_lookup_insert_ne by lia.
           rewrite orb_false_r. reflexivity.
      * apply lookup_ge_None in Hr. lia.
    + rewrite list_lookup_alter_ne by lia. simpl.
      rewrite orb_false_r. reflexivity.
Qed.

Lemma mark_row_spec : forall n dug y x,
  dug_dims dug -> 0 <= y < GRID_HEIGHT ->
  0 <= x -> x + Z.of_nat n <= GRID_WIDTH ->
  exists dug',
    mark_row n y x dug = Some dug' /\ dug_dims dug'
    /\ forall y' x',
         dug_at dug' y' x'
         = dug_at dug y' x'
           || ((y' =? y) && (x <=? x') && (x' <? x + Z.of_nat n)).
Proof.
  induction n as [|n IH]; intros dug y x Hd Hy Hx Hn.
  - exists dug. split; [reflexivity|]. split; [exact Hd|].
    intros y' x'. destruct (Z.eqb_spec y' y), (Z.leb_spec x x'),
      (Z.ltb_spec x' (x + Z.of_nat 0)); simpl; rewrite ?orb_false_r;
      try reflexivity; lia.
  - destruct (dug_set_spec dug y x Hd Hy ltac:(lia)) as (d1 & Hs & Hd1 & Hc1).
    destruct (IH d1 y (x + 1) Hd1 Hy ltac:(lia) ltac:(lia))
      as (d2 & Hm & Hd2 & Hc2).
    exists d2. cbn [mark_row]. rewrite Hs. simpl. split; [exact Hm|].
    split; [exact Hd2|]. intros y' x'. rewrite Hc2, Hc1.
    destruct (dug_at dug y' x'); [reflexivity|]. simpl.
    destruct (Z.eqb_spec y' y), (Z.eqb_spec x' x), (Z.leb_spec (x + 1) x'),
      (Z.ltb_spec x' (x + 1 + Z.of_nat n)), (Z.leb_spec x x'),
      (Z.ltb_spec x' (x + Z.of_nat (S n))); simpl; try reflexivity; lia.
Qed.

Lemma mark_column_spec : forall n dug y x,
  dug_dims dug -> 0 <= x < GRID_WIDTH ->
  0 <= y -> y + Z.of_nat n <= GRID_HEIGHT ->
  exists dug',
    mark_column n y x dug = Some dug' /\ dug_dims dug'
    /\ forall y' x',
         dug_at dug' y' x'
         = dug_at dug y' x'
           || ((x' =? x) && (y <=? y') && (y' <? y + Z.of_nat n)).
Proof.
  induction n as [|n IH]; intros dug y x Hd Hx Hy Hn.
  - exists dug. split; [reflexivity|]. split; [exact Hd|].
    intros y' x'. destruct (Z.eqb_spec x' x), (Z.leb_spec y y'),
      (Z.ltb_spec y' (y + Z.of_nat 0)); simpl; rewrite ?orb_false_r;
      try reflexivity; lia.
  - destruct (dug_set_spec dug y x Hd ltac:(lia) Hx) as (d1 & Hs & Hd1 & Hc1).
    destruct (IH d1 (y + 1) x Hd1 Hx ltac:(lia) ltac:(lia))
      as (d2 & Hm & Hd2 & Hc2).
    exists d2. cbn [mark_column]. rewrite Hs. simpl. split; [exact Hm|].
    split; [exact Hd2|]. intros y' x'. rewrite Hc2, Hc1.
    destruct (dug_at dug y' x'); [reflexivity|]. simpl.
    destruct (Z.eqb_spec y' y), (Z.eqb_spec x' x), (Z.leb_spec (y + 1) y'),
      (Z.ltb_spec y' (y + 1 + Z.of_nat n)), (Z.leb_spec y y'),
      (Z.ltb_spec y' (y + Z.of_nat (S n))); simpl; try reflexivity; lia.
Qed.

Lemma mark_tunnel_spec h dug :
  dug_dims dug -> patrol_ready h ->
  exists dug',
    mark_tunnel h dug = Some dug' /\ dug_dims dug'
    /\ forall y x, dug_at dug' y x = dug_at dug y x || Tunnel.Contains h x y.
Proof.
  intros Hd (Ho & Hb & Hl).
  destruct (out_of_bounds_false_range h Hb ltac:(lia)) as (Bx & By & BH & BV).
  unfold mark_tunnel, Tunnel.Contains, oriented in *.
  destruct (Tunnel.direction h) eqn:D; [| |congruence].
  - specialize (BH eq_refl).
    destruct (mark_row_spec (Z.to_nat (Tunnel.length h)) dug
                (Tunnel.startY h) (Tunnel.startX h) Hd)
      as (d' & Hm & Hd' & Hc); unfold GRID_HEIGHT, GRID_WIDTH; try lia.
    exists d'. split; [exact Hm|]. split; [exact Hd'|].
    intros y x. rewrite Hc. rewrite Z2Nat.id by lia. reflexivity.
  - assert (BV' : Tunnel.startY h + Tunnel.length h < 17) by (apply BV; congruence).
    destruct (mark_column_spec (Z.to_nat (Tunnel.length h)) dug
                (Tunnel.startY h) (Tunnel.startX h) Hd)
      as (d' & Hm & Hd' & Hc); unfold GRID_HEIGHT, GRID_WIDTH; try lia.
    exists d'. split; [exact Hm|]. split; [exact Hd'|].
    intros y x. rewrite Hc. rewrite Z2Nat.id by lia. reflexivity.
Qed.

Lemma mark_tunnels_spec : forall ts dug,
  dug_dims dug -> Forall patrol_ready ts ->
  exists dug',
    mark_tunnels ts dug = Some dug' /\ dug_dims dug'
    /\ forall y x,
         dug_at dug' y x
         = dug_at dug y x || existsb (fun h => Tunnel.Contains h x y) ts.
Proof.
  induction ts as [|h ts IH]; intros dug Hd Hready.
  - exists dug. split; [reflexivity|]. split; [exact Hd|].
    intros y x. simpl. rewrite orb_false_r. reflexivity.
  - inversion Hready as [|? ? Hh Hts]; subst.
    destruct (mark_tunnel_spec h dug Hd Hh) as (d1 & Hm & Hd1 & Hc1).
    destruct (IH d1 Hd1 Hts) as (d2 & Hms & Hd2 & Hc2).
    exists d2. cbn [mark_tunnels]. rewrite Hm. simpl.
    split; [exact Hms|]. split; [exact Hd2|].
    intros y x. rewrite Hc2, Hc1. cbn [existsb]. rewrite orb_assoc. reflexivity.
Qed.

(* ------------------------------------------------------------------ *)
(** ** The collision part of a frame, block by block *)
(* ------------------------------------------------------------------ *)

Lemma Forall2_monster_kept_refl ms : Forall2 monster_kept ms ms.
Proof. induction ms; constructor; [left; reflexivity | assumption]. Qed.

Lemma Forall2_dragon_kept_refl ds : Forall2 dragon_kept ds ds.
Proof. induction ds; constructor; [left; reflexivity | assumption]. Qed.

Lemma monster_kept_trans m1 m2 m3 :
  monster_kept m3 m2 -> monster_kept m2 m1 -> monster_kept m3 m1.
Proof.
  intros [->|[A3 ->]] [->|[A2 ->]]; unfold monster_kept; auto.
Qed.

Lemma dragon_kept_trans d1 d2 d3 :
  dragon_kept d3 d2 -> dragon_kept d2 d1 -> dragon_kept d3 d1.
Proof.
  intros [->|[A3 ->]] [->|[A2 ->]]; unfold dragon_kept; auto.
Qed.

Lemma collisions_keep_refl w : collisions_keep w w.
Proof.
  repeat split; auto using Forall2_monster_kept_refl, Forall2_dragon_kept_refl.
Qed.

Lemma collisions_keep_trans w1 w2 w3 :
  collisions_keep w1 w2 -> collisions_keep w2 w3 -> collisions_keep w1 w3.
Proof.
  intros (A1 & A2 & A3 & A4 & A5 & A6 & A7 & A8)
         (B1 & B2 & B3 & B4 & B5 & B6 & B7 & B8).
  unfold collisions_keep.
  rewrite B1, B2, B3, B4, B5, B6, A1, A2, A3, A4, A5, A6.
  repeat split.
  - clear -A7 B7. revert A7. generalize (World.monsters w1).
    induction B7 as [|m3 m2 l3 l2 H32 _ IH]; intros l1 A7; inversion A7; subst;
      constructor; eauto using monster_kept_trans.
  - clear -A8 B8. revert A8. generalize (World.dragons w1).
    induction B8 as [|d3 d2 l3 l2 H32 _ IH]; intros l1 A8; inversion A8; subst;
      constructor; eauto using dragon_kept_trans.
Qed.

Section Blocks.

Variable check : Rectangle.t -> Rectangle.t -> bool.

Lemma PlayerCollisions_keep w :
  collisions_keep w (Main.PlayerCollisions check w).
Proof.
  rewrite PlayerCollisions_spec. destruct (player_collides check w);
    [|apply collisions_keep_refl].
  repeat split; auto using Forall2_monster_kept_refl, Forall2_dragon_kept_refl.
Qed.

Lemma harpoon_map_monsters r ms :
  Forall2 monster_kept
    (map (fun m => if monster_hit check r m
                   then Monster.set_alive false m else m) ms) ms.
Proof.
  induction ms as [|m ms IH]; simpl; constructor; [|exact IH].
  unfold monster_hit. destruct (Monster.alive m) eqn:Ha; simpl;
    [|left; reflexivity].
  destruct (check r (Monster.Bounds m)); [right | left]; auto.
Qed.

Lemma harpoon_map_dragons r ds :
  Forall2 dragon_kept
    (map (fun d => if dragon_hit check r d
                   then Dragon.set_alive false d else d) ds) ds.
Proof.
  induction ds as [|d ds IH]; simpl; constructor; [|exact IH].
  unfold dragon_hit. destruct (Dragon.alive d) eqn:Ha; simpl;
    [|left; reflexivity].
  destruct (check r (Dragon.Bounds d)); [right | left]; auto.
Qed.

Lemma HandleHarpoon_keep w : collisions_keep w (Main.HandleHarpoon check w).
Proof.
  destruct (Player.hasHarpoon (World.player w)
            && (Player.harpoonTimer (World.player w) >? 0)) eqn:E.
  - apply andb_true_iff in E as [Hh Ht]. apply Z.gtb_lt in Ht.
    rewrite (HandleHarpoon_active check w Hh Ht).
    unfold collisions_keep. cbn [World.tunnels World.player World.fruit
      World.monsters World.dragons].
    repeat split; auto using harpoon_map_monsters, harpoon_map_dragons.
  - unfold Main.HandleHarpoon. rewrite E. apply collisions_keep_refl.
Qed.

Lemma FruitCollision_keep w : collisions_keep w (Main.FruitCollision check w).
Proof.
  unfold Main.FruitCollision. destruct (negb _ && _);
    [|apply collisions_keep_refl].
  repeat split; auto using Forall2_monster_kept_refl, Forall2_dragon_kept_refl.
Qed.

Lemma SaveHighScore_keep ok file w :
  collisions_keep w (World.SaveHighScore ok file w).1.
Proof.
  unfold World.SaveHighScore. destruct (_ >? _); simpl;
    [|apply collisions_keep_refl].
  repeat split; auto using Forall2_monster_kept_refl, Forall2_dragon_kept_refl.
Qed.

Lemma DeathResolution_keep ok file w :
  collisions_keep w (Main.DeathResolution ok file w).1.
Proof.
  unfold Main.DeathResolution.
  destruct (negb (Player.alive (World.player w)));
    [|apply collisions_keep_refl].
  destruct (_ >? 0).
  - repeat split;
      auto using Forall2_monster_kept_refl, Forall2_dragon_kept_refl.
  - pose proof (SaveHighScore_keep ok file
        (World.set_player
           (Player.set_deathFlashTimer DEATH_FLASH_TIME
              (Player.set_lives (Player.lives (World.player w) - 1)
                 (World.player w))) w)) as H.
    destruct (World.SaveHighScore ok file _) as [w2 f2]. simpl in *.
    destruct H as (A1 & A2 & A3 & A4 & A5 & A6 & A7 & A8).
    repeat split; assumption.
Qed.

Lemma WinCheck_keep ok file w :
  collisions_keep w (Main.WinCheck ok file w).1.
Proof.
  unfold Main.WinCheck. destruct (_ && _); [|apply collisions_keep_refl].
  pose proof (SaveHighScore_keep ok file w) as H.
  destruct (World.SaveHighScore ok file w) as [w2 f2]. simpl in *.
  destruct H as (A1 & A2 & A3 & A4 & A5 & A6 & A7 & A8).
  repeat split; assumption.
Qed.

Lemma ResolveCollisions_keep ok1 ok2 file w :
  collisions_keep w (Main.ResolveCollisions check ok1 ok2 file w).1.
Proof.
  unfold Main.ResolveCollisions.
  pose proof (DeathResolution_keep ok1 file
    (Main.FruitCollision check
       (Main.HandleHarpoon check (Main.PlayerCollisions check w)))) as Hd.
  destruct (Main.DeathResolution ok1 file _) as [w4 f1]. simpl in Hd.
  pose proof (WinCheck_keep ok2 f1 w4) as Hw.
  eapply collisions_keep_trans; [|exact Hw].
  eapply collisions_keep_trans; [|exact Hd].
  eapply collisions_keep_trans; [|apply FruitCollision_keep].
  eapply collisions_keep_trans; [|apply HandleHarpoon_keep].
  apply PlayerCollisions_keep.
Qed.

End Blocks.

(* ------------------------------------------------------------------ *)
(** ** The invariant of the main loop *)
(* ------------------------------------------------------------------ *)

Lemma patrol_inv_same_geometry h h' p d :
  same_geometry h' h -> patrol_inv h p d -> patrol_inv h' p d.
Proof.
  intros (G1 & G2 & G3 & G4). unfold patrol_inv.
  rewrite G1, G2, G3, G4. auto.
Qed.

Lemma patrol_ready_same_geometry h h' :
  same_geometry h' h -> patrol_ready h -> patrol_ready h'.
Proof.
  intros (G1 & G2 & G3 & G4). unfold patrol_ready, oriented, World.out_of_bounds.
  rewrite G1, G2, G3, G4. auto.
Qed.

Section Regeometry.

Variable f : Tunnel.t -> Tunnel.t.
Hypothesis f_geometry : forall tn, same_geometry (f tn) tn.

Lemma patrol_ready_map ts :
  Forall patrol_ready ts -> Forall patrol_ready (map f ts).
Proof.
  intros H. apply Forall_fmap. eapply Forall_impl; [exact H|].
  intros tn. apply patrol_ready_same_geometry, f_geometry.
Qed.

Lemma monster_ok_map ts m : monster_ok ts m -> monster_ok (map f ts) m.
Proof.
  intros H Ht Ha. destruct (H Ht Ha) as (i & h & Hh & Hi & Hinv).
  exists i, (f h). split; [exact Hh|]. split.
  - rewrite list_lookup_fmap, Hi. reflexivity.
  - eapply patrol_inv_same_geometry; [apply f_geometry | exact Hinv].
Qed.

Lemma dragon_ok_map ts d : dragon_ok ts d -> dragon_ok (map f ts) d.
Proof.
  intros H Ht Ha. destruct (H Ht Ha) as (i & h & Hh & Hi & Hinv).
  exists i, (f h). split; [exact Hh|]. split.
  - rewrite list_lookup_fmap, Hi. reflexivity.
  - eapply patrol_inv_same_geometry; [apply f_geometry | exact Hinv].
Qed.

End Regeometry.

Lemma monster_ok_kept ts m m' :
  monster_kept m' m -> monster_ok ts m -> monster_ok ts m'.
Proof.
  intros [->|[_ ->]] H; [exact H|]. intros _ Ha. simpl in Ha. discriminate.
Qed.

Lemma dragon_ok_kept ts d d' :
  dragon_kept d' d -> dragon_ok ts d -> dragon_ok ts d'.
Proof.
  intros [->|[_ ->]] H; [exact H|]. intros _ Ha. simpl in Ha. discriminate.
Qed.

Lemma Dragon_patrol_step ts i h d :
  ts !! i = Some h -> World.out_of_bounds h = false -> 2 <= Tunnel.length h ->
  Dragon.alive d = true -> Dragon.inTunnel d = true ->
  Dragon.homeTunnel d = Some i ->
  patrol_inv h (Dragon.pos d) (Dragon.direction d) ->
  exists d',
    Dragon.MoveInTunnel ts d = Some d'
    /\ Dragon.alive d' = true /\ Dragon.inTunnel d' = true
    /\ Dragon.homeTunnel d' = Some i
    /\ patrol_inv h (Dragon.pos d') (Dragon.direction d').
Proof.
  intros Hi Hb Hl Ha Ht Hh Hinv.
  destruct (as_dragon_surjective d) as [m ->]. simpl in *.
  destruct (Monster_patrol_step ts i h m Hi Hb Hl Ha Ht Hh Hinv)
    as (m' & Hstep & A & B & C & D).
  exists (as_dragon m'). rewrite Dragon_MoveInTunnel_as_dragon, Hstep.
  simpl. auto.
Qed.

Lemma Monster_MoveTowards_flags target m :
  Monster.inTunnel (Monster.MoveTowards target m) = Monster.inTunnel m
  /\ Monster.alive (Monster.MoveTowards target m) = Monster.alive m
  /\ Monster.chasing (Monster.MoveTowards target m) = Monster.chasing m
  /\ Monster.homeTunnel (Monster.MoveTowards target m) = Monster.homeTunnel m.
Proof.
  unfold Monster.MoveTowards.
  destruct (negb (Monster.alive m) || Monster.inTunnel m); repeat split.
Qed.

Lemma Dragon_MoveTowards_flags target d :
  Dragon.inTunnel (Dragon.MoveTowards target d) = Dragon.inTunnel d
  /\ Dragon.alive (Dragon.MoveTowards target d) = Dragon.alive d
  /\ Dragon.chasing (Dragon.MoveTowards target d) = Dragon.chasing d
  /\ Dragon.homeTunnel (Dragon.MoveTowards target d) = Dragon.homeTunnel d.
Proof.
  unfold Dragon.MoveTowards.
  destruct (negb (Dragon.alive d) || Dragon.inTunnel d); repeat split.
Qed.

Lemma move_monster_ok ts target m :
  Forall patrol_ready ts -> monster_ok ts m ->
  exists m', move_monster ts target m = Some m' /\ monster_ok ts m'.
Proof.
  intros Hready Hok. unfold move_monster.
  destruct (Monster.inTunnel m) eqn:Ht.
  - destruct (Monster.alive m) eqn:Ha.
    + destruct (Hok Ht Ha) as (i & h & Hh & Hi & Hinv).
      rewrite Forall_lookup in Hready.
      destruct (Hready i h Hi) as (_ & Hb & Hl).
      destruct (Monster_patrol_step ts i h m Hi Hb ltac:(lia) Ha Ht Hh Hinv)
        as (m' & Hstep & _ & _ & Hh' & Hinv').
      exists m'. split; [exact Hstep|]. intros _ _. eauto.
    + exists m. unfold Monster.MoveInTunnel. rewrite Ha. simpl.
      split; [reflexivity | exact Hok].
  - destruct (Monster_MoveTowards_flags target m) as (F1 & _).
    destruct (Monster.chasing m).
    + eexists. split; [reflexivity|]. intros Hin. congruence.
    + exists m. split; [reflexivity | exact Hok].
Qed.

Lemma move_dragon_ok ts target d :
  Forall patrol_ready ts -> dragon_ok ts d ->
  exists d', move_dragon ts target d = Some d' /\ dragon_ok ts d'.
Proof.
  intros Hready Hok. unfold move_dragon.
  destruct (Dragon.inTunnel d) eqn:Ht.
  - destruct (Dragon.alive d) eqn:Ha.
    + destruct (Hok Ht Ha) as (i & h & Hh & Hi & Hinv).
      rewrite Forall_lookup in Hready.
      destruct (Hready i h Hi) as (_ & Hb & Hl).
      destruct (Dragon_patrol_step ts i h d Hi Hb ltac:(lia) Ha Ht Hh Hinv)
        as (d' & Hstep & _ & _ & Hh' & Hinv').
      exists d'. split; [exact Hstep|]. intros _ _. eauto.
    + exists d. unfold Dragon.MoveInTunnel. rewrite Ha. simpl.
      split; [reflexivity | exact Hok].
  - destruct (Dragon_MoveTowards_flags target d) as (F1 & _).
    destruct (Dragon.chasing d).
    + eexists. split; [reflexivity|]. intros Hin. congruence.
    + exists d. split; [reflexivity | exact Hok].
Qed.

Lemma move_monsters_ok ts target ms :
  Forall patrol_ready ts -> Forall (monster_ok ts) ms ->
  exists ms', move_monsters ts target ms = Some ms'
              /\ Forall (monster_ok ts) ms'.
Proof.
  intros Hready. induction ms as [|m ms IH]; intros Hok.
  - exists []. split; [reflexivity | constructor].
  - inversion Hok as [|? ? Hm Hms]; subst.
    destruct (move_monster_ok ts target m Hready Hm) as (m' & Em & Om).
    destruct (IH Hms) as (ms' & Ems & Oms).
    exists (m' :: ms'). cbn [move_monsters]. rewrite Em. simpl. rewrite Ems.
    split; [reflexivity | constructor; assumption].
Qed.

Lemma move_dragons_ok ts target ds :
  Forall patrol_ready ts -> Forall (dragon_ok ts) ds ->
  exists ds', move_dragons ts target ds = Some ds'
              /\ Forall (dragon_ok ts) ds'.
Proof.
  intros Hready. induction ds as [|d ds IH]; intros Hok.
  - exists []. split; [reflexivity | constructor].
  - inversion Hok as [|? ? Hd Hds]; subst.
    destruct (move_dragon_ok ts target d Hready Hd) as (d' & Ed & Od).
    destruct (IH Hds) as (ds' & Eds & Ods).
    exists (d' :: ds'). cbn [move_dragons]. rewrite Ed. simpl. rewrite Eds.
    split; [reflexivity | constructor; assumption].
Qed.

Lemma CreateTunnels_returns rand_seq fuel calls :
  (51 <= fuel)%nat ->
  exists layout c, World.CreateTunnels rand_seq fuel calls = Some (layout, c).
Proof.
  intros Hfuel.
  destruct (phase_terminates HORIZONTAL 4 World.horizontal_cond
              (World.horizontal_body rand_seq) (fun _ => eq_refl)
              (horizontal_body_effect rand_seq) fuel
              (World.mkgen [] 0 calls)) as [g1 H1]; [simpl; lia | exact Hfuel |].
  destruct (phase_terminates VERTICAL 8 World.vertical_cond
              (World.vertical_body rand_seq) (fun _ => eq_refl)
              (vertical_body_effect rand_seq) fuel
              (World.mkgen (World.gen_tunnels g1) 0 (World.gen_calls g1)))
    as [g2 H2]; [simpl; lia | exact Hfuel |].
  exists (World.gen_tunnels g2), (World.gen_calls g2).
  unfold World.CreateTunnels, World.horizontal_phase, World.vertical_phase.
  rewrite H1. simpl. rewrite H2. reflexivity.
Qed.

(** What [World::ResetLevel] returns. *)
Lemma World_ResetLevel_returns rand_seq fuel calls w :
  (51 <= fuel)%nat ->
  exists w' c,
    World.ResetLevel rand_seq fuel calls w = Some (w', c)
    /\ World.player w' = Player.ResetTo 100 100 (World.player w)
    /\ World.fruit w' = Fruit.mk (Fruit.pos (World.fruit w)) false
    /\ World.state w' = World.state w
    /\ World.highScore w' = World.highScore w
    /\ World.respawnTimer w' = World.respawnTimer w.
Proof.
  intros Hfuel.
  destruct (CreateTunnels_returns rand_seq fuel calls Hfuel) as (layout & c & Hgen).
  unfold World.ResetLevel. rewrite Hgen. simpl.
  destruct (World.place_monsters _ _ _ _ _) as [ms c2].
  destruct (World.place_dragons _ _ _ _ _ _) as [ds c3].
  eexists _, _. split; [reflexivity|]. repeat split.
Qed.

Lemma placed_monster_ok ts m :
  Forall patrol_ready ts -> placed_monster ts m -> monster_ok ts m.
Proof.
  intros Hready (i & h & Hi & ->) _ _.
  rewrite Forall_lookup in Hready. destruct (Hready i h Hi) as (Ho & Hb & Hl).
  exists i, h. split; [reflexivity|]. split; [exact Hi|].
  apply spawn_patrol_inv; [exact Ho | exact Hb | lia].
Qed.

Lemma placed_dragon_ok ts d :
  Forall patrol_ready ts -> placed_dragon ts d -> dragon_ok ts d.
Proof.
  intros Hready (i & h & Hi & ->) _ _.
  rewrite Forall_lookup in Hready. destruct (Hready i h Hi) as (Ho & Hb & Hl).
  exists i, h. split; [reflexivity|]. split; [exact Hi|].
  apply (spawn_patrol_inv h i); [exact Ho | exact Hb | lia].
Qed.

Lemma ResetTo_lattice p : on_lattice (Player.ResetTo 100 100 p).
Proof. exists 50, 50. repeat split; lia. Qed.

Lemma ResetTo_aim p : unit_aim (Player.harpoonDir (Player.ResetTo 100 100 p)).
Proof. left. reflexivity. Qed.

Lemma Player_Draw_pos p :
  Player.pos (Player_Draw p) = Player.pos p
  /\ Player.harpoonDir (Player_Draw p) = Player.harpoonDir p.
Proof.
  unfold Player_Draw.
  destruct (Player.hasHarpoon p && (Player.harpoonTimer p >? 0));
    split; reflexivity.
Qed.

Ltac split_inv :=
  unfold Game_inv;
  cbn [Game.world Game.dug World.player World.tunnels World.monsters
       World.dragons World.set_player];
  (split; [|split; [|split; [|split; [|split]]]]).

Section LoopInvariant.

Variable rand_seq : nat -> N.
Variable fuel : nat.
Variable check : Rectangle.t -> Rectangle.t -> bool.
Hypothesis enough_fuel : (51 <= fuel)%nat.

Lemma Game_ResetLevel_spec g :
  dug_dims (Game.dug g) ->
  exists w' c d',
    World.ResetLevel rand_seq fuel (Game.rand_calls g) (Game.world g)
    = Some (w', c)
    /\ mark_tunnels (World.tunnels w') (dug_clear (Game.dug g)) = Some d'
    /\ Game.ResetLevel rand_seq fuel g
       = Some (Game.mk w' d' (Game.highscore_txt g) c)
    /\ (forall y x,
          dug_at d' y x
          = existsb (fun h => Tunnel.Contains h x y) (World.tunnels w'))
    /\ Game_inv (Game.mk w' d' (Game.highscore_txt g) c).
Proof.
  intros Hd.
  destruct (World_ResetLevel_returns rand_seq fuel (Game.rand_calls g)
              (Game.world g) enough_fuel)
    as (w' & c & Hreset & Hp & _).
  destruct (ResetLevel_enemies _ _ _ _ _ _ Hreset) as (Hready & Hms & Hds).
  destruct (mark_tunnels_spec (World.tunnels w') (dug_clear (Game.dug g))
              (dug_clear_dims _ Hd) Hready) as (d' & Hmark & Hd' & Hat).
  exists w', c, d'. split; [exact Hreset|]. split; [exact Hmark|].
  split; [unfold Game.ResetLevel; rewrite Hreset; simpl; rewrite Hmark;
          reflexivity|].
  split; [intros y x; rewrite Hat, dug_clear_at; reflexivity|].
  unfold Game_inv. cbn [Game.world Game.dug]. rewrite Hp.
  split; [apply ResetTo_lattice|]. split; [apply ResetTo_aim|].
  split; [exact Hd'|]. split; [exact Hready|]. split.
  - eapply Forall_impl; [exact Hms|]. intros m. apply placed_monster_ok, Hready.
  - eapply Forall_impl; [exact Hds|]. intros d. apply placed_dragon_ok, Hready.
Qed.

Lemma Game_ResetLevel_inv g :
  dug_dims (Game.dug g) ->
  exists g', Game.ResetLevel rand_seq fuel g = Some g' /\ Game_inv g'.
Proof.
  intros Hd. destruct (Game_ResetLevel_spec g Hd)
    as (w' & c & d' & _ & _ & Hr & _ & Hinv). eauto.
Qed.

Lemma Game_inv_world_fields g w' :
  Game_inv g ->
  World.player w' = World.player (Game.world g) ->
  World.tunnels w' = World.tunnels (Game.world g) ->
  World.monsters w' = World.monsters (Game.world g) ->
  World.dragons w' = World.dragons (Game.world g) ->
  Game_inv (Game.mk w' (Game.dug g) (Game.highscore_txt g) (Game.rand_calls g)).
Proof.
  unfold Game_inv. cbn [Game.world Game.dug]. intros H -> -> -> ->. exact H.
Qed.

Lemma Game_ResetAll_inv g :
  dug_dims (Game.dug g) ->
  exists g', Game.ResetAll rand_seq fuel g = Some g' /\ Game_inv g'.
Proof.
  intros Hd. unfold Game.ResetAll.
  destruct (Game_ResetLevel_inv
              (Game.mk (World.set_player
                          (Player.set_alive true
                             (Player.set_score 0
                                (Player.set_lives START_LIVES
                                   (World.player (Game.world g)))))
                          (Game.world g))
                       (Game.dug g) (Game.highscore_txt g) (Game.rand_calls g))
              Hd) as (g1 & Hr & Hinv).
  rewrite Hr. simpl. eexists. split; [reflexivity|].
  destruct g1 as [w1 d1 f1 c1].
  apply (Game_inv_world_fields (Game.mk w1 d1 f1 c1)); auto.
Qed.

Lemma dig_inv p dug :
  on_lattice p -> dug_dims dug ->
  exists dug', dig p dug = Some dug' /\ dug_dims dug'.
Proof.
  intros Hp Hd. destruct (on_lattice_tile p Hp) as (gx & gy & Hx & Hy & Bx & By).
  unfold dig. rewrite Hx, Hy. simpl.
  destruct (Z.leb_spec 0 gy), (Z.ltb_spec gy GRID_HEIGHT), (Z.leb_spec 0 gx),
    (Z.ltb_spec gx GRID_WIDTH); try lia. simpl.
  destruct (dug_set_spec dug gy gx Hd By Bx) as (d' & Hs & Hd' & _). eauto.
Qed.

Lemma set_activated_if_geometry px py tn :
  same_geometry
    (if triggers px py tn then Tunnel.set_activated true tn else tn) tn.
Proof.
  destruct (triggers px py tn);
    [apply same_geometry_set_activated | apply same_geometry_refl].
Qed.

Lemma CheckTunnelActivation_inv g :
  Game_inv g ->
  exists w',
    World.CheckTunnelActivation (Game.world g) = Some w'
    /\ Game_inv (Game.mk w' (Game.dug g) (Game.highscore_txt g)
                         (Game.rand_calls g)).
Proof.
  intros (Hp & Ha & Hd & Hready & Hms & Hds).
  destruct (on_lattice_tile _ Hp) as (px & py & Hx & Hy & _).
  rewrite (CheckTunnelActivation_eq _ px py Hx Hy).
  eexists. split; [reflexivity|].
  unfold Game_inv. cbn [Game.world Game.dug World.player World.tunnels
                        World.monsters World.dragons].
  split; [exact Hp|]. split; [exact Ha|]. split; [exact Hd|].
  split; [apply patrol_ready_map;
          [apply set_activated_if_geometry | exact Hready]|].
  split.
  - apply Forall_fmap. eapply Forall_impl; [exact Hms|]. intros m Hm. simpl.
    destruct (released px py 0 _ _).
    + intros Hin. simpl in Hin. discriminate.
    + apply monster_ok_map; [apply set_activated_if_geometry | exact Hm].
  - apply Forall_fmap. eapply Forall_impl; [exact Hds|]. intros d Hdr. simpl.
    destruct (released px py 0 _ _).
    + intros Hin. simpl in Hin. discriminate.
    + apply dragon_ok_map; [apply set_activated_if_geometry | exact Hdr].
Qed.

Lemma MoveEnemies_inv g :
  Game_inv g ->
  exists w',
    MoveEnemies (Game.world g) = Some w'
    /\ Game_inv (Game.mk w' (Game.dug g) (Game.highscore_txt g)
                         (Game.rand_calls g)).
Proof.
  intros (Hp & Ha & Hd & Hready & Hms & Hds).
  destruct (move_monsters_ok _ (Player.pos (World.player (Game.world g))) _
              Hready Hms) as (ms' & Em & Om).
  destruct (move_dragons_ok _ (Player.pos (World.player (Game.world g))) _
              Hready Hds) as (ds' & Ed & Od).
  unfold MoveEnemies. rewrite Em. simpl. rewrite Ed. simpl.
  eexists. split; [reflexivity|]. split_inv; assumption.
Qed.

Lemma on_lattice_pos p p' :
  Player.pos p' = Player.pos p -> on_lattice p -> on_lattice p'.
Proof. unfold on_lattice. intros ->. auto. Qed.

Lemma ResolveCollisions_inv ok1 ok2 g :
  Game_inv g ->
  Game_inv (Game.mk
              (Main.ResolveCollisions check ok1 ok2 (Game.highscore_txt g)
                 (Game.world g)).1
              (Game.dug g)
              (Main.ResolveCollisions check ok1 ok2 (Game.highscore_txt g)
                 (Game.world g)).2
              (Game.rand_calls g)).
Proof.
  intros (Hp & Ha & Hd & Hready & Hms & Hds).
  destruct (ResolveCollisions_keep check ok1 ok2 (Game.highscore_txt g)
              (Game.world g)) as (K1 & K2 & K3 & _ & _ & _ & K7 & K8).
  unfold Game_inv. cbn [Game.world Game.dug]. rewrite K1, K3.
  split; [eapply on_lattice_pos; eauto|]. split; [exact Ha|].
  split; [exact Hd|]. split; [exact Hready|]. split.
  - clear -K7 Hms. induction K7 as [|m' m l' l Hk _ IH]; [constructor|].
    inversion Hms; subst. constructor; [eapply monster_ok_kept; eauto | auto].
  - clear -K8 Hds. induction K8 as [|d' d l' l Hk _ IH]; [constructor|].
    inversion Hds; subst. constructor; [eapply dragon_ok_kept; eauto | auto].
Qed.

Lemma UpdatePlaying_inv inp g :
  Game_inv g ->
  exists g', Game.UpdatePlaying rand_seq fuel check inp g = Some g'
             /\ Game_inv g'.
Proof.
  intros Hinv. unfold Game.UpdatePlaying.
  destruct (World.respawnTimer (Game.world g) >? 0).
  - cbn [World.respawnTimer World.set_respawnTimer].
    destruct (_ =? 0).
    + apply Game_ResetLevel_inv. apply Hinv.
    + eexists. split; [reflexivity|].
      apply Game_inv_world_fields; auto.
  - pose proof Hinv as (Hp & Ha & Hd & Hready & Hms & Hds).
    set (p1 := Player_Move inp (World.player (Game.world g))).
    assert (Hp1 : on_lattice p1) by (apply Player_Move_lattice; exact Hp).
    destruct (dig_inv p1 _ Hp1 Hd) as (d1 & Hdig & Hd1).
    cbn [World.player World.set_player]. fold p1. rewrite Hdig. simpl.
    assert (I1 : Game_inv (Game.mk (World.set_player p1 (Game.world g)) d1
                                   (Game.highscore_txt g) (Game.rand_calls g))).
    { split_inv; try assumption. apply Player_Move_aim. exact Ha. }
    destruct (CheckTunnelActivation_inv _ I1) as (w2 & E2 & I2).
    cbn [Game.world Game.dug Game.highscore_txt Game.rand_calls] in E2, I2.
    rewrite E2. simpl.
    destruct (MoveEnemies_inv _ I2) as (w3 & E3 & I3).
    cbn [Game.world Game.dug Game.highscore_txt Game.rand_calls] in E3, I3.
    rewrite E3. simpl.
    pose proof (ResolveCollisions_inv (out_ok1 inp) (out_ok2 inp) _ I3) as I4.
    cbn [Game.world Game.dug Game.highscore_txt Game.rand_calls] in I4.
    destruct (Main.ResolveCollisions check _ _ _ w3) as [w4 f4].
    eexists. split; [reflexivity | exact I4].
Qed.

Lemma Update_inv inp g :
  Game_inv g ->
  exists g', Game.Update rand_seq fuel check inp g = Some g' /\ Game_inv g'.
Proof.
  intros Hinv. unfold Game.Update.
  destruct (World.state (Game.world g)).
  - destruct (KEY_ENTER inp); [|eauto].
    apply Game_ResetLevel_inv. apply Hinv.
  - apply UpdatePlaying_inv. exact Hinv.
  - destruct (KEY_ENTER inp || KEY_R inp); [|eauto].
    apply Game_ResetAll_inv. apply Hinv.
  - destruct (KEY_ENTER inp || KEY_R inp); [|eauto].
    apply Game_ResetAll_inv. apply Hinv.
Qed.

Lemma Draw_inv inp g :
  Game_inv g ->
  exists g', Game.Draw rand_seq fuel inp g = Some g' /\ Game_inv g'.
Proof.
  intros Hinv. unfold Game.Draw.
  destruct (World.state (Game.world g)).
  - eauto.
  - eexists. split; [reflexivity|].
    destruct Hinv as (Hp & Ha & Hd & Hready & Hms & Hds).
    destruct (Player_Draw_pos (World.player (Game.world g))) as (E1 & E2).
    split_inv; try assumption.
    + eapply on_lattice_pos; [exact E1 | exact Hp].
    + rewrite E2. exact Ha.
  - destruct (restart_button inp || KEY_ENTER inp || KEY_R inp); [|eauto].
    apply Game_ResetAll_inv. apply Hinv.
  - destruct (restart_button inp || KEY_ENTER inp || KEY_R inp); [|eauto].
    apply Game_ResetAll_inv. apply Hinv.
Qed.

Lemma Frame_inv inp g :
  Game_inv g ->
  exists g', Game.Frame rand_seq fuel check inp g = Some g' /\ Game_inv g'.
Proof.
  intros Hinv. unfold Game.Frame.
  destruct (Update_inv inp g Hinv) as (g1 & E1 & I1). rewrite E1. simpl.
  apply Draw_inv. exact I1.
Qed.

Lemma run_inv inps : forall g,
  Game_inv g ->
  exists g', Game.run rand_seq fuel check inps g = Some g' /\ Game_inv g'.
Proof.
  induction inps as [|inp inps IH]; intros g Hinv; simpl; [eauto|].
  destruct (Frame_inv inp g Hinv) as (g1 & E1 & I1). rewrite E1. simpl.
  apply IH. exact I1.
Qed.

Lemma init_inv file calls :
  exists g0, Game.init rand_seq fuel file calls = Some g0 /\ Game_inv g0.
Proof.
  unfold Game.init. apply Game_ResetAll_inv.
  unfold Game.LoadHighScore. cbn [Game.highscore_txt].
  destruct file; apply dug_new_dims.
Qed.

End LoopInvariant.

(* ------------------------------------------------------------------ *)
(** ** The main loop from the start of the program *)
(* ------------------------------------------------------------------ *)

(** X4.  The program never leaves its defined behaviour: with the fuel
    the two generation loops need, [main] before its loop and then any
    number of iterations of the main loop, for any keys, any values of
    [rand()], any overlap test and any state of the high-score file, run
    to their end.  No enemy on patrol is without its home tunnel, no
    position that the update converts to [int] is out of the range of
    [int], and no write to [dug] is out of range. *)
Theorem main_loop_defined (rand_seq : nat -> N) (fuel : nat)
    (check : Rectangle.t -> Rectangle.t -> bool) (file : option Z)
    (calls : nat) (inps : list Input) :
  (51 <= fuel)%nat ->
  exists g0 g,
    Game.init rand_seq fuel file calls = Some g0
    /\ Game.run rand_seq fuel check inps g0 = Some g.
Proof.
  intros Hf.
  destruct (init_inv rand_seq fuel Hf file calls) as (g0 & E0 & I0).
  destruct (run_inv rand_seq fuel check Hf inps g0 I0) as (g & E & _).
  eauto.
Qed.

Lemma main_loop_defined_witness :
  exists g0 g,
    Game.init lcg_rand 51 None 0 = Some g0
    /\ Game.run lcg_rand 51 Main.raylib_CheckCollisionRecs
                [key_enter; key_right; key_space; no_key] g0 = Some g.
Proof.
  apply (main_loop_defined lcg_rand 51 Main.raylib_CheckCollisionRecs None 0).
  apply le_n.
Defined.

(** X5.  In every state the main loop reaches, a live enemy on patrol
    points to one of the tunnels and its tile, computed as
    [MoveInTunnel] computes it, is a tile of that tunnel. *)
Theorem patrols_stay_home (rand_seq : nat -> N) (fuel : nat)
    (check : Rectangle.t -> Rectangle.t -> bool) (file : option Z)
    (calls : nat) (inps : list Input) (g0 g : Game.t) :
  (51 <= fuel)%nat ->
  Game.init rand_seq fuel file calls = Some g0 ->
  Game.run rand_seq fuel check inps g0 = Some g ->
  (forall m, m ∈ World.monsters (Game.world g) ->
     Monster.inTunnel m = true -> Monster.alive m = true ->
     exists i h, Monster.homeTunnel m = Some i
                 /\ World.tunnels (Game.world g) !! i = Some h
                 /\ in_home_span h (Monster.pos m) = true)
  /\ (forall d, d ∈ World.dragons (Game.world g) ->
        Dragon.inTunnel d = true -> Dragon.alive d = true ->
        exists i h, Dragon.homeTunnel d = Some i
                    /\ World.tunnels (Game.world g) !! i = Some h
                    /\ in_home_span h (Dragon.pos d) = true).
Proof.
  intros Hf E0 E.
  destruct (init_inv rand_seq fuel Hf file calls) as (g0' & E0' & I0).
  rewrite E0 in E0'. inversion E0'; subst g0'.
  destruct (run_inv rand_seq fuel check Hf inps g0 I0) as (g' & E' & I).
  rewrite E in E'. inversion E'; subst g'.
  destruct I as (_ & _ & _ & Hready & Hms & Hds).
  rewrite Forall_forall in Hready.
  rewrite Forall_forall in Hms. rewrite Forall_forall in Hds.
  split.
  - intros m Hm Ht Ha. destruct (Hms m Hm Ht Ha) as (i & h & Hh & Hi & Hinv).
    exists i, h. split; [exact Hh|]. split; [exact Hi|].
    destruct (Hready h (list_elem_of_lookup_2 _ _ _ Hi)) as (_ & Hb & Hl).
    apply (patrol_inv_in_home_span h _ _ Hb ltac:(lia) Hinv).
  - intros d Hd Ht Ha. destruct (Hds d Hd Ht Ha) as (i & h & Hh & Hi & Hinv).
    exists i, h. split; [exact Hh|]. split; [exact Hi|].
    destruct (Hready h (list_elem_of_lookup_2 _ _ _ Hi)) as (_ & Hb & Hl).
    apply (patrol_inv_in_home_span h _ _ Hb ltac:(lia) Hinv).
Qed.

Lemma patrols_stay_home_witness :
  exists g0 g,
    Game.init lcg_rand 51 None 0 = Some g0
    /\ Game.run lcg_rand 51 Main.raylib_CheckCollisionRecs
                [key_enter; key_right; key_space; no_key] g0 = Some g
    /\ forall m, m ∈ World.monsters (Game.world g) ->
         Monster.inTunnel m = true -> Monster.alive m = true ->
         exists i h, Monster.homeTunnel m = Some i
                     /\ World.tunnels (Game.world g) !! i = Some h
                     /\ in_home_span h (Monster.pos m) = true.
Proof.
  destruct (Game.init lcg_rand 51 None 0) as [g0|] eqn:E0;
    [|vm_compute in E0; discriminate].
  destruct (Game.run lcg_rand 51 Main.raylib_CheckCollisionRecs
              [key_enter; key_right; key_space; no_key] g0) as [g|] eqn:E1.
  - exists g0, g. split; [reflexivity|]. split; [exact E1|].
    exact (proj1 (patrols_stay_home lcg_rand 51 Main.raylib_CheckCollisionRecs
                    None 0 _ g0 g (le_n 51) E0 E1)).
  - exfalso. vm_compute in E0. inversion E0; subst g0.
    vm_compute in E1. discriminate.
Defined.

(** X6.  In every state the main loop reaches, the player stands on a
    whole, even pixel of the screen area that [Player::Move] clamps to,
    and its tile is a tile of the grid: the bounds test in front of the
    write to [dug] never fails. *)
Theorem player_stays_on_grid (rand_seq : nat -> N) (fuel : nat)
    (check : Rectangle.t -> Rectangle.t -> bool) (file : option Z)
    (calls : nat) (inps : list Input) (g0 g : Game.t) :
  (51 <= fuel)%nat ->
  Game.init rand_seq fuel file calls = Some g0 ->
  Game.run rand_seq fuel check inps g0 = Some g ->
  exists x y,
    Player.pos (World.player (Game.world g))
    = Vector2.mk (F32.of_int x) (F32.of_int y)
    /\ Z.even x = true /\ Z.even y = true
    /\ 0 <= x <= SCREEN_W - Player.size /\ 0 <= y <= SCREEN_H - Player.size
    /\ tile_of_pixel (F32.of_int x) = Some (x / TILE_SIZE)
    /\ tile_of_pixel (F32.of_int y) = Some (y / TILE_SIZE)
    /\ 0 <= x / TILE_SIZE < GRID_WIDTH /\ 0 <= y / TILE_SIZE < GRID_HEIGHT.
Proof.
  intros Hf E0 E.
  destruct (init_inv rand_seq fuel Hf file calls) as (g0' & E0' & I0).
  rewrite E0 in E0'. inversion E0'; subst g0'.
  destruct (run_inv rand_seq fuel check Hf inps g0 I0) as (g' & E' & I).
  rewrite E in E'. inversion E'; subst g'.
  destruct I as ((i & j & Hi & Hj & Hp) & _).
  exists (2 * i), (2 * j). split; [exact Hp|].
  split; [rewrite Z.even_mul; reflexivity|].
  split; [rewrite Z.even_mul; reflexivity|].
  unfold SCREEN_W, SCREEN_H, Player.size, GRID_WIDTH, GRID_HEIGHT, TILE_SIZE.
  split; [lia|]. split; [lia|].
  split; [apply tile_of_pixel_int; lia|].
  split; [apply tile_of_pixel_int; lia|].
  split; split; try (apply Z.div_pos; lia);
    apply Z.div_lt_upper_bound; lia.
Qed.

Lemma player_stays_on_grid_witness :
  exists g0 g,
    Game.init lcg_rand 51 None 0 = Some g0
    /\ Game.run lcg_rand 51 Main.raylib_CheckCollisionRecs
                [key_enter; key_right; key_space; no_key] g0 = Some g
    /\ exists x y,
         Player.pos (World.player (Game.world g))
         = Vector2.mk (F32.of_int x) (F32.of_int y)
         /\ 0 <= x / TILE_SIZE < GRID_WIDTH /\ 0 <= y / TILE_SIZE < GRID_HEIGHT.
Proof.
  destruct (Game.init lcg_rand 51 None 0) as [g0|] eqn:E0;
    [|vm_compute in E0; discriminate].
  destruct (Game.run lcg_rand 51 Main.raylib_CheckCollisionRecs
              [key_enter; key_right; key_space; no_key] g0) as [g|] eqn:E1.
  - exists g0, g. split; [reflexivity|]. split; [exact E1|].
    destruct (player_stays_on_grid lcg_rand 51 Main.raylib_CheckCollisionRecs
                None 0 _ g0 g (le_n 51) E0 E1)
      as (x & y & Hp & _ & _ & _ & _ & _ & _ & Hx & Hy).
    exists x, y. split; [exact Hp|]. split; [exact Hx | exact Hy].
  - exfalso. vm_compute in E0. inversion E0; subst g0.
    vm_compute in E1. discriminate.
Defined.

(* ------------------------------------------------------------------ *)
(** ** The enemies of a new level *)
(* ------------------------------------------------------------------ *)

Lemma place_monsters_homes rand_seq : forall ts i ms calls,
  exists js,
    map Monster.homeTunnel (World.place_monsters rand_seq i ts ms calls).1
    = map Monster.homeTunnel ms ++ map Some js
    /\ js `sublist_of` seq i (length ts).
Proof.
  induction ts as [|tunnel rest IH]; intros i ms calls; simpl.
  - exists []. split; [rewrite app_nil_r; reflexivity | constructor].
  - destruct (Z.rem _ 2 =? 0).
    + destruct (World.spawn_point tunnel) as [x y].
      destruct (IH (S i) (ms ++ [Monster.new x y (Some i)]) (S calls))
        as (js & Hjs & Hsub).
      exists (i :: js). split; [|apply sublist_skip; exact Hsub].
      rewrite Hjs, map_app. simpl. rewrite <- app_assoc. reflexivity.
    + destruct (IH (S i) ms (S calls)) as (js & Hjs & Hsub).
      exists js. split; [exact Hjs | apply sublist_cons; exact Hsub].
Qed.

Lemma place_dragons_homes rand_seq ms : forall ts i ds calls,
  exists ks,
    map Dragon.homeTunnel (World.place_dragons rand_seq i ts ms ds calls).1
    = map Dragon.homeTunnel ds ++ map Some ks
    /\ ks `sublist_of` seq i (length ts)
    /\ Forall (fun k => World.hasMonster k ms = false) ks.
Proof.
  induction ts as [|tunnel rest IH]; intros i ds calls; simpl.
  - exists []. split; [rewrite app_nil_r; reflexivity|].
    split; constructor.
  - destruct (World.hasMonster i ms) eqn:Hhas.
    + destruct (IH (S i) ds calls) as (ks & Hks & Hsub & Hfree).
      exists ks. split; [exact Hks|]. split; [apply sublist_cons|]; assumption.
    + destruct (Z.rem _ 2 =? 0).
      * destruct (World.spawn_point tunnel) as [x y].
        destruct (IH (S i) (ds ++ [Dragon.new x y (Some i)]) (S calls))
          as (ks & Hks & Hsub & Hfree).
        exists (i :: ks). split; [|split].
        -- rewrite Hks, map_app. simpl. rewrite <- app_assoc. reflexivity.
        -- apply sublist_skip. exact Hsub.
        -- constructor; assumption.
      * destruct (IH (S i) ds (S calls)) as (ks & Hks & Hsub & Hfree).
        exists ks. split; [exact Hks|].
        split; [apply sublist_cons|]; assumption.
Qed.

Lemma hasMonster_home ms js j :
  map Monster.homeTunnel ms = map Some js -> j ∈ js ->
  World.hasMonster j ms = true.
Proof.
  intros Hms Hj. unfold World.hasMonster. apply existsb_exists.
  assert (Hin : Some j ∈ map Monster.homeTunnel ms).
  { rewrite Hms. apply list_elem_of_fmap. exists j. split; [reflexivity|exact Hj]. }
  apply list_elem_of_fmap in Hin. destruct Hin as (m & Hm & Hin).
  exists m. split; [apply list_elem_of_In; exact Hin|].
  apply bool_decide_eq_true. symmetry. exact Hm.
Qed.

(** Two sublists of [l], of elements that pass and that fail a test,
    have no more elements together than [l]. *)
Lemma sublists_apart (P : nat -> bool) : forall l js ks,
  js `sublist_of` l -> ks `sublist_of` l ->
  Forall (fun j => P j = true) js -> Forall (fun k => P k = false) ks ->
  (length js + length ks <= length l)%nat.
Proof.
  induction l as [|x l IH]; intros js ks Hj Hk Pj Pk.
  - apply sublist_nil_r in Hj. apply sublist_nil_r in Hk. subst. simpl. lia.
  - apply sublist_cons_r in Hj. apply sublist_cons_r in Hk.
    destruct Hj as [Hj | (js' & -> & Hj)], Hk as [Hk | (ks' & -> & Hk)].
    + specialize (IH js ks Hj Hk Pj Pk). simpl. lia.
    + inversion Pk; subst. specialize (IH js ks' Hj Hk Pj H2). simpl. lia.
    + inversion Pj; subst. specialize (IH js' ks Hj Hk H2 Pk). simpl. lia.
    + inversion Pj; subst. inversion Pk; subst. congruence.
Qed.

Lemma ResetLevel_homes rand_seq fuel calls w w' c :
  World.ResetLevel rand_seq fuel calls w = Some (w', c) ->
  exists js ks,
    map Monster.homeTunnel (World.monsters w') = map Some js
    /\ map Dragon.homeTunnel (World.dragons w') = map Some ks
    /\ js `sublist_of` seq 0 (length (World.tunnels w'))
    /\ ks `sublist_of` seq 0 (length (World.tunnels w'))
    /\ Forall (fun j => World.hasMonster j (World.monsters w') = true) js
    /\ Forall (fun k => World.hasMonster k (World.monsters w') = false) ks
    /\ (length (World.tunnels w') <= 8)%nat.
Proof.
  intros H.
  destruct (ResetLevel_tunnels _ _ _ _ _ _ H) as (layout & c0 & Hgen & Hts).
  destruct (CreateTunnels_layout _ _ _ _ _ Hgen)
    as (hs & vs & _ & _ & _ & _ & Hlen & _).
  unfold World.ResetLevel in H. rewrite Hgen in H. simpl in H.
  destruct (place_monsters_homes rand_seq
              (map (Tunnel.set_activated false) layout) 0 [] c0)
    as (js & Hjs & Hsubj).
  destruct (World.place_monsters _ _ _ _ _) as [ms c2].
  destruct (place_dragons_homes rand_seq ms
              (map (Tunnel.set_activated false) layout) 0 [] c2)
    as (ks & Hks & Hsubk & Hfree).
  destruct (World.place_dragons _ _ _ _ _ _) as [ds c3].
  inversion H; subst w' c. simpl in *.
  exists js, ks. split; [exact Hjs|]. split; [exact Hks|].
  split; [exact Hsubj|]. split; [exact Hsubk|].
  split; [|split; [exact Hfree|rewrite length_map; exact Hlen]].
  apply Forall_forall. intros j Hj. eapply hasMonster_home; eauto.
Qed.

Lemma ResetLevel_enemy_count rand_seq fuel calls w w' c :
  World.ResetLevel rand_seq fuel calls w = Some (w', c) ->
  (length (World.monsters w') + length (World.dragons w') <= 8)%nat.
Proof.
  intros H.
  destruct (ResetLevel_homes _ _ _ _ _ _ H)
    as (js & ks & Hjs & Hks & Sj & Sk & Pj & Pk & Hlen).
  pose proof (sublists_apart _ _ _ _ Sj Sk Pj Pk) as Hsum.
  rewrite length_seq in Hsum.
  apply (f_equal length) in Hjs. apply (f_equal length) in Hks.
  rewrite !length_map in Hjs. rewrite !length_map in Hks. lia.
Qed.

(** X7.  [ResetLevel] gives every tunnel at most one enemy: the home
    tunnels of the monsters and of the dragons are indices of the new
    tunnel list, no index is the home of two enemies, and so a level has
    at most as many enemies as tunnels, which are at most 8. *)
Theorem ResetLevel_one_enemy_per_tunnel (rand_seq : nat -> N)
    (fuel calls : nat) (w w' : World.t) (c : nat) :
  World.ResetLevel rand_seq fuel calls w = Some (w', c) ->
  exists js ks,
    map Monster.homeTunnel (World.monsters w') = map Some js
    /\ map Dragon.homeTunnel (World.dragons w') = map Some ks
    /\ NoDup (js ++ ks)
    /\ (forall i, i ∈ js ++ ks -> (i < length (World.tunnels w'))%nat)
    /\ (length (World.monsters w') + length (World.dragons w')
        <= length (World.tunnels w') <= 8)%nat.
Proof.
  intros H.
  destruct (ResetLevel_homes _ _ _ _ _ _ H)
    as (js & ks & Hjs & Hks & Sj & Sk & Pj & Pk & Hlen).
  exists js, ks. split; [exact Hjs|]. split; [exact Hks|].
  rewrite Forall_forall in Pj. rewrite Forall_forall in Pk.
  split; [|split].
  - apply NoDup_app. split; [|split].
    + eapply sublist_NoDup; [apply NoDup_seq | exact Sj].
    + intros j Hj Hk. specialize (Pj j Hj). specialize (Pk j Hk). congruence.
    + eapply sublist_NoDup; [apply NoDup_seq | exact Sk].
  - intros i Hi. apply elem_of_app in Hi.
    assert (Hin : i ∈ seq 0 (length (World.tunnels w'))).
    { destruct Hi as [Hi|Hi]; eapply elem_of_sublist; eauto. }
    apply elem_of_seq in Hin. lia.
  - split; [|exact Hlen].
    pose proof (sublists_apart _ _ _ _ Sj Sk
                  (proj2 (Forall_forall _ _) Pj)
                  (proj2 (Forall_forall _ _) Pk)) as Hsum.
    rewrite length_seq in Hsum.
    apply (f_equal length) in Hjs. apply (f_equal length) in Hks.
    rewrite !length_map in Hjs. rewrite !length_map in Hks. lia.
Qed.

Lemma ResetLevel_one_enemy_per_tunnel_witness :
  exists w' c js ks,
    World.ResetLevel lcg_rand 51 0 Game.World_new = Some (w', c)
    /\ map Monster.homeTunnel (World.monsters w') = map Some js
    /\ map Dragon.homeTunnel (World.dragons w') = map Some ks
    /\ NoDup (js ++ ks).
Proof.
  destruct (World.ResetLevel lcg_rand 51 0 Game.World_new) as [[w' c]|] eqn:E;
    [|vm_compute in E; discriminate].
  destruct (ResetLevel_one_enemy_per_tunnel lcg_rand 51 0 Game.World_new w' c E)
    as (js & ks & Hjs & Hks & Hnd & _).
  exists w', c, js, ks. split; [reflexivity|].
  split; [exact Hjs|]. split; [exact Hks | exact Hnd].
Defined.

(* ------------------------------------------------------------------ *)
(** ** Score, lives and high score *)
(* ------------------------------------------------------------------ *)

Lemma live_monsters_range ms : 0 <= live_monsters ms <= Z.of_nat (length ms).
Proof.
  unfold live_monsters. pose proof (List.filter_length_le Monster.alive ms). lia.
Qed.

Lemma live_dragons_range ds : 0 <= live_dragons ds <= Z.of_nat (length ds).
Proof.
  unfold live_dragons. pose proof (List.filter_length_le Dragon.alive ds). lia.
Qed.

Lemma live_monsters_Forall2 (R : Monster.t -> Monster.t -> Prop) ms' ms :
  (forall m' m, R m' m -> Monster.alive m' = Monster.alive m) ->
  Forall2 R ms' ms -> live_monsters ms' = live_monsters ms.
Proof.
  intros HR H. unfold live_monsters. f_equal.
  induction H as [|m' m l' l Hm _ IH]; [reflexivity|].
  simpl. rewrite (HR _ _ Hm). destruct (Monster.alive m); simpl; lia.
Qed.

Lemma live_dragons_Forall2 (R : Dragon.t -> Dragon.t -> Prop) ds' ds :
  (forall d' d, R d' d -> Dragon.alive d' = Dragon.alive d) ->
  Forall2 R ds' ds -> live_dragons ds' = live_dragons ds.
Proof.
  intros HR H. unfold live_dragons. f_equal.
  induction H as [|d' d l' l Hd _ IH]; [reflexivity|].
  simpl. rewrite (HR _ _ Hd). destruct (Dragon.alive d); simpl; lia.
Qed.

Lemma live_monsters_map f ms :
  (forall m, Monster.alive (f m) = Monster.alive m) ->
  live_monsters (map f ms) = live_monsters ms.
Proof.
  intros Hf. unfold live_monsters. f_equal.
  induction ms as [|m ms IH]; [reflexivity|].
  simpl. rewrite Hf. destruct (Monster.alive m); simpl; lia.
Qed.

Lemma live_dragons_map f ds :
  (forall d, Dragon.alive (f d) = Dragon.alive d) ->
  live_dragons (map f ds) = live_dragons ds.
Proof.
  intros Hf. unfold live_dragons. f_equal.
  induction ds as [|d ds IH]; [reflexivity|].
  simpl. rewrite Hf. destruct (Dragon.alive d); simpl; lia.
Qed.

(** A harpoon hit takes the enemy from the live ones. *)
Lemma live_monsters_harpoon check r ms :
  live_monsters (map (fun m => if monster_hit check r m
                               then Monster.set_alive false m else m) ms)
  + Z.of_nat (length (List.filter (monster_hit check r) ms))
  = live_monsters ms.
Proof.
  unfold live_monsters, monster_hit.
  induction ms as [|m ms IH]; [reflexivity|].
  simpl. destruct (Monster.alive m) eqn:Ha, (check r (Monster.Bounds m));
    simpl; rewrite ?Ha; simpl; rewrite ?Nat2Z.inj_succ; lia.
Qed.

Lemma live_dragons_harpoon check r ds :
  live_dragons (map (fun d => if dragon_hit check r d
                              then Dragon.set_alive false d else d) ds)
  + Z.of_nat (length (List.filter (dragon_hit check r) ds))
  = live_dragons ds.
Proof.
  unfold live_dragons, dragon_hit.
  induction ds as [|d ds IH]; [reflexivity|].
  simpl. destruct (Dragon.alive d) eqn:Ha, (check r (Dragon.Bounds d));
    simpl; rewrite ?Ha; simpl; rewrite ?Nat2Z.inj_succ; lia.
Qed.

Section Tally.

Variable check : Rectangle.t -> Rectangle.t -> bool.

Lemma PlayerCollisions_tally w :
  let w' := Main.PlayerCollisions check w in
  Player.score (World.player w') = Player.score (World.player w)
  /\ points_left w' = points_left w
  /\ Player.lives (World.player w') = Player.lives (World.player w)
  /\ World.state w' = World.state w
  /\ World.highScore w' = World.highScore w
  /\ World.respawnTimer w' = World.respawnTimer w.
Proof.
  cbv zeta. rewrite PlayerCollisions_spec.
  destruct (player_collides check w); repeat split.
Qed.

Lemma HandleHarpoon_tally w :
  let w' := Main.HandleHarpoon check w in
  Player.score (World.player w') + points_left w'
  = Player.score (World.player w) + points_left w
  /\ Player.score (World.player w) <= Player.score (World.player w').
Proof.
  cbv zeta. unfold Main.HandleHarpoon.
  destruct (Player.hasHarpoon _ && _); [|split; lia].
  rewrite harpoon_monsters_spec, harpoon_dragons_spec.
  unfold points_left. cbn [World.player World.monsters World.dragons
                           World.fruit Player.score Player.set_score].
  pose proof (live_monsters_harpoon check (Main.harpoonRect (World.player w))
                (World.monsters w)).
  pose proof (live_dragons_harpoon check (Main.harpoonRect (World.player w))
                (World.dragons w)).
  pose proof (live_monsters_range
                (map (fun m => if monster_hit check
                                    (Main.harpoonRect (World.player w)) m
                               then Monster.set_alive false m else m)
                     (World.monsters w))).
  pose proof (live_dragons_range
                (map (fun d => if dragon_hit check
                                    (Main.harpoonRect (World.player w)) d
                               then Dragon.set_alive false d else d)
                     (World.dragons w))).
  split; lia.
Qed.

Lemma FruitCollision_tally w :
  let w' := Main.FruitCollision check w in
  Player.score (World.player w') + points_left w'
  = Player.score (World.player w) + points_left w
  /\ Player.score (World.player w) <= Player.score (World.player w').
Proof.
  cbv zeta. unfold Main.FruitCollision.
  destruct (Fruit.collected (World.fruit w)) eqn:Hc; simpl; [split; lia|].
  destruct (check _ _); [|split; lia].
  unfold points_left. simpl. rewrite Hc. split; lia.
Qed.

Lemma before_death_tally w :
  let b := before_death_resolution check w in
  Player.score (World.player b) + points_left b
  = Player.score (World.player w) + points_left w
  /\ Player.score (World.player w) <= Player.score (World.player b)
  /\ Player.lives (World.player b) = Player.lives (World.player w)
  /\ World.state b = World.state w
  /\ World.highScore b = World.highScore w
  /\ World.respawnTimer b = World.respawnTimer w.
Proof.
  cbv zeta. unfold before_death_resolution.
  destruct (FruitCollision_keeps check
              (Main.HandleHarpoon check (Main.PlayerCollisions check w)))
    as (_ & F2 & F3 & F4 & F5 & _).
  destruct (HandleHarpoon_keeps check (Main.PlayerCollisions check w))
    as (_ & H2 & H3 & H4 & H5).
  destruct (PlayerCollisions_tally w) as (P1 & P2 & P3 & P4 & P5 & P6).
  destruct (FruitCollision_tally
              (Main.HandleHarpoon check (Main.PlayerCollisions check w)))
    as (T1 & T2).
  destruct (HandleHarpoon_tally (Main.PlayerCollisions check w)) as (T3 & T4).
  cbv zeta in *.
  rewrite F2, F3, F4, F5, H2, H3, H4, H5.
  repeat split; try assumption; lia.
Qed.

End Tally.

Lemma Monster_MoveInTunnel_moved ts m m' :
  Monster.MoveInTunnel ts m = Some m' -> monster_moved m' m.
Proof.
  unfold Monster.MoveInTunnel, monster_moved.
  destruct (Monster.alive m) eqn:Ha, (Monster.inTunnel m) eqn:Ht; simpl;
    intros H; try (inversion H; subst m'; rewrite Ha, Ht; tauto).
  destruct (Monster.homeTunnel m) as [i|]; [|discriminate]. simpl in H.
  destruct (ts !! i) as [h|]; [|discriminate]. simpl in H.
  destruct (Tunnel.direction h); destruct (grid_of_pixel _); simpl in H;
    try discriminate; inversion H; subst m'; simpl;
    (do 4 (split; [reflexivity|])); split; intros; discriminate.
Qed.

Lemma Dragon_MoveInTunnel_moved ts d d' :
  Dragon.MoveInTunnel ts d = Some d' -> dragon_moved d' d.
Proof.
  unfold Dragon.MoveInTunnel, dragon_moved.
  destruct (Dragon.alive d) eqn:Ha, (Dragon.inTunnel d) eqn:Ht; simpl;
    intros H; try (inversion H; subst d'; rewrite Ha, Ht; tauto).
  destruct (Dragon.homeTunnel d) as [i|]; [|discriminate]. simpl in H.
  destruct (ts !! i) as [h|]; [|discriminate]. simpl in H.
  destruct (Tunnel.direction h); destruct (grid_of_pixel _); simpl in H;
    try discriminate; inversion H; subst d'; simpl;
    (do 4 (split; [reflexivity|])); split; intros; discriminate.
Qed.

Lemma move_monster_moved ts target m m' :
  move_monster ts target m = Some m' -> monster_moved m' m.
Proof.
  unfold move_monster. destruct (Monster.inTunnel m) eqn:Ht.
  - apply Monster_MoveInTunnel_moved.
  - destruct (Monster.chasing m) eqn:Hc; intros H; inversion H; subst m'.
    + destruct (Monster_MoveTowards_flags target m) as (F1 & F2 & F3 & F4).
      unfold monster_moved. rewrite F1, F2, F3, F4, Ht, Hc.
      do 4 (split; [reflexivity|]). split; [|intros; discriminate].
      intros Ha. unfold Monster.MoveTowards. rewrite Ha. reflexivity.
    + unfold monster_moved. tauto.
Qed.

Lemma move_dragon_moved ts target d d' :
  move_dragon ts target d = Some d' -> dragon_moved d' d.
Proof.
  unfold move_dragon. destruct (Dragon.inTunnel d) eqn:Ht.
  - apply Dragon_MoveInTunnel_moved.
  - destruct (Dragon.chasing d) eqn:Hc; intros H; inversion H; subst d'.
    + destruct (Dragon_MoveTowards_flags target d) as (F1 & F2 & F3 & F4).
      unfold dragon_moved. rewrite F1, F2, F3, F4, Ht, Hc.
      do 4 (split; [reflexivity|]). split; [|intros; discriminate].
      intros Ha. unfold Dragon.MoveTowards. rewrite Ha. reflexivity.
    + unfold dragon_moved. tauto.
Qed.

Lemma move_monsters_moved ts target : forall ms ms',
  move_monsters ts target ms = Some ms' -> Forall2 monster_moved ms' ms.
Proof.
  induction ms as [|m ms IH]; intros ms' H; simpl in H.
  - inversion H. constructor.
  - destruct (move_monster ts target m) as [m1|] eqn:E1; [|discriminate].
    simpl in H.
    destruct (move_monsters ts target ms) as [ms1|] eqn:E2; [|discriminate].
    inversion H; subst ms'. constructor; [|apply IH; reflexivity].
    eapply move_monster_moved; eauto.
Qed.

Lemma move_dragons_moved ts target : forall ds ds',
  move_dragons ts target ds = Some ds' -> Forall2 dragon_moved ds' ds.
Proof.
  induction ds as [|d ds IH]; intros ds' H; simpl in H.
  - inversion H. constructor.
  - destruct (move_dragon ts target d) as [d1|] eqn:E1; [|discriminate].
    simpl in H.
    destruct (move_dragons ts target ds) as [ds1|] eqn:E2; [|discriminate].
    inversion H; subst ds'. constructor; [|apply IH; reflexivity].
    eapply move_dragon_moved; eauto.
Qed.

Lemma MoveEnemies_moved w w' :
  MoveEnemies w = Some w' ->
  World.player w' = World.player w
  /\ World.tunnels w' = World.tunnels w
  /\ World.fruit w' = World.fruit w
  /\ World.state w' = World.state w
  /\ World.highScore w' = World.highScore w
  /\ World.respawnTimer w' = World.respawnTimer w
  /\ Forall2 monster_moved (World.monsters w') (World.monsters w)
  /\ Forall2 dragon_moved (World.dragons w') (World.dragons w).
Proof.
  unfold MoveEnemies. intros H.
  destruct (move_monsters _ _ _) as [ms|] eqn:Em; [|discriminate].
  simpl in H.
  destruct (move_dragons _ _ _) as [ds|] eqn:Ed; [|discriminate].
  inversion H; subst w'. simpl.
  do 6 (split; [reflexivity|]).
  split; [eapply move_monsters_moved | eapply move_dragons_moved]; eauto.
Qed.

Lemma MoveEnemies_points w w' :
  MoveEnemies w = Some w' -> points_left w' = points_left w.
Proof.
  intros H. destruct (MoveEnemies_moved w w' H)
    as (_ & _ & Hf & _ & _ & _ & Hm & Hd).
  unfold points_left. rewrite Hf.
  rewrite (live_monsters_Forall2 monster_moved _ _
             (fun m' m Hmm => proj1 Hmm) Hm).
  rewrite (live_dragons_Forall2 dragon_moved _ _
             (fun d' d Hdd => proj1 Hdd) Hd).
  reflexivity.
Qed.

Lemma CheckTunnelActivation_fields w w' :
  World.CheckTunnelActivation w = Some w' ->
  World.player w' = World.player w
  /\ World.fruit w' = World.fruit w
  /\ World.state w' = World.state w
  /\ World.highScore w' = World.highScore w
  /\ World.respawnTimer w' = World.respawnTimer w
  /\ points_left w' = points_left w.
Proof.
  intros H.
  destruct (CheckTunnelActivation_returns w w' H) as (px & py & Hx & Hy).
  rewrite (CheckTunnelActivation_eq w px py Hx Hy) in H.
  inversion H; subst w'. simpl.
  do 5 (split; [reflexivity|]).
  unfold points_left. simpl.
  rewrite live_monsters_map, live_dragons_map; [reflexivity| |].
  - intros d. destruct (released _ _ _ _ _); reflexivity.
  - intros m. destruct (released _ _ _ _ _); reflexivity.
Qed.

Lemma ResetLevel_fields rand_seq fuel calls w w' c :
  World.ResetLevel rand_seq fuel calls w = Some (w', c) ->
  World.player w' = Player.ResetTo 100 100 (World.player w)
  /\ World.fruit w' = Fruit.mk (Fruit.pos (World.fruit w)) false
  /\ World.state w' = World.state w
  /\ World.highScore w' = World.highScore w
  /\ World.respawnTimer w' = World.respawnTimer w
  /\ 0 <= points_left w' <= level_points.
Proof.
  intros H. pose proof (ResetLevel_enemy_count _ _ _ _ _ _ H) as Hcount.
  pose proof (live_monsters_range (World.monsters w')) as Hm.
  pose proof (live_dragons_range (World.dragons w')) as Hd.
  assert (Hpts : 0 <= points_left w' <= level_points).
  { unfold points_left, level_points.
    destruct (Fruit.collected (World.fruit w')); lia. }
  unfold World.ResetLevel in H.
  destruct (World.CreateTunnels rand_seq fuel calls) as [[layout c1]|];
    [|discriminate].
  simpl in H.
  destruct (World.place_monsters _ _ _ _ _) as [ms c2].
  destruct (World.place_dragons _ _ _ _ _ _) as [ds c3].
  inversion H; subst w' c. simpl. repeat split; apply Hpts.
Qed.

Ltac split_ifs H :=
  repeat match type of H with
         | context [if ?a >? ?b then _ else _] => destruct (Z.gtb_spec a b)
         | context [if ?c then _ else _] => destruct c eqn:?
         end.

Section TallySteps.

Variable writes_ok : Prop.
Variable check : Rectangle.t -> Rectangle.t -> bool.

Lemma ResolveCollisions_tally ok1 ok2 file w w' file' :
  (writes_ok -> ok1 = true /\ ok2 = true) ->
  World.state w = PLAYING -> World.respawnTimer w = 0 ->
  tally_inv writes_ok file w ->
  Main.ResolveCollisions check ok1 ok2 file w = (w', file') ->
  tally_inv writes_ok file' w'.
Proof.
  intros Hok Hst Ht (Hs & Hf & Hsync & Hinv).
  rewrite Hst, Ht in Hinv. simpl in Hinv.
  destruct Hinv as (Hl & _ & Ha & Hpts).
  destruct (before_death_tally check w) as (B1 & B2 & B3 & B4 & B5 & B6).
  cbv zeta in *.
  unfold Main.ResolveCollisions.
  change (Main.FruitCollision check
            (Main.HandleHarpoon check (Main.PlayerCollisions check w)))
    with (before_death_resolution check w).
  revert B1 B2 B3 B4 B5 B6.
  generalize (before_death_resolution check w). intros b B1 B2 B3 B4 B5 B6.
  assert (Hb : 0 <= points_left b).
  { unfold points_left.
    pose proof (live_monsters_range (World.monsters b)).
    pose proof (live_dragons_range (World.dragons b)).
    destruct (Fruit.collected (World.fruit b)); lia. }
  assert (Hpb : forall p st hs t,
             points_left (World.mk p (World.monsters b) (World.dragons b)
                            (World.tunnels b) (World.fruit b) st hs t)
             = points_left b) by reflexivity.
  rewrite Hst in B4. rewrite Ht in B6.
  unfold max_score, level_points, START_LIVES, RESPAWN_DELAY in *.
  unfold Main.DeathResolution, Main.WinCheck, World.SaveHighScore.
  unfold World.set_respawnTimer, World.set_player, World.set_state,
    World.set_highScore, Player.set_deathFlashTimer, Player.set_lives.
  cbn [World.player World.monsters World.dragons World.tunnels World.fruit
       World.state World.highScore World.respawnTimer
       Player.score Player.lives Player.alive].
  intros H.
  destruct (Player.alive (World.player b)) eqn:Hab; cbn [negb] in H;
    split_ifs H; cbn in H; inversion H; subst w' file'; clear H;
    unfold tally_inv;
    cbn [World.player World.monsters World.dragons World.tunnels World.fruit
         World.state World.highScore World.respawnTimer
         Player.score Player.lives Player.alive] in *;
    rewrite ?Hpb, ?B4, ?B6;
    unfold max_score, level_points, START_LIVES, RESPAWN_DELAY;
    cbn [Z.gtb Z.compare];
    (split; [lia|]);
    (split; [intros v Hv;
             first [inversion Hv; subst; lia | apply Hf in Hv; lia]|]);
    (split; [intros HP; destruct (Hok HP); subst; try discriminate;
             first [reflexivity | rewrite ?B5; apply Hsync; exact HP]|]);
    repeat split; try lia; assumption.
Qed.

End TallySteps.

Lemma Player_Move_tally inp p :
  Player.score (Player_Move inp p) = Player.score p
  /\ Player.lives (Player_Move inp p) = Player.lives p
  /\ Player.alive (Player_Move inp p) = Player.alive p.
Proof.
  unfold Player_Move.
  destruct (KEY_RIGHT inp), (KEY_LEFT inp), (KEY_UP inp), (KEY_DOWN inp),
    (KEY_SPACE inp); repeat split.
Qed.

Lemma Player_Draw_tally p :
  Player.score (Player_Draw p) = Player.score p
  /\ Player.lives (Player_Draw p) = Player.lives p
  /\ Player.alive (Player_Draw p) = Player.alive p.
Proof.
  unfold Player_Draw.
  destruct (Player.hasHarpoon p && (Player.harpoonTimer p >? 0));
    repeat split.
Qed.

Lemma Game_ResetLevel_world rand_seq fuel g g' :
  Game.ResetLevel rand_seq fuel g = Some g' ->
  Game.highscore_txt g' = Game.highscore_txt g
  /\ exists c, World.ResetLevel rand_seq fuel (Game.rand_calls g) (Game.world g)
               = Some (Game.world g', c).
Proof.
  unfold Game.ResetLevel. intros H.
  destruct (World.ResetLevel _ _ _ _) as [[w c]|]; [|discriminate].
  simpl in H. destruct (mark_tunnels _ _); [|discriminate].
  inversion H; subst g'. simpl. eauto.
Qed.

Section TallyLoop.

Variable writes_ok : Prop.
Variable rand_seq : nat -> N.
Variable fuel : nat.
Variable check : Rectangle.t -> Rectangle.t -> bool.

Lemma tally_inv_same file w w' :
  World.state w = PLAYING ->
  Player.score (World.player w') = Player.score (World.player w) ->
  Player.lives (World.player w') = Player.lives (World.player w) ->
  Player.alive (World.player w') = Player.alive (World.player w) ->
  World.state w' = World.state w ->
  World.highScore w' = World.highScore w ->
  World.respawnTimer w' = World.respawnTimer w ->
  points_left w' = points_left w ->
  tally_inv writes_ok file w -> tally_inv writes_ok file w'.
Proof.
  unfold tally_inv. cbv zeta. intros Hst -> -> -> -> -> -> ->.
  rewrite Hst. auto.
Qed.

(** A new level for a player with [lives] lives left and one level's
    points free for each of them. *)
Lemma ResetLevel_tally file calls w w' c :
  World.ResetLevel rand_seq fuel calls w = Some (w', c) ->
  0 <= Player.score (World.player w) ->
  (forall v, file = Some v -> v <= World.highScore w) ->
  (writes_ok -> loaded_highScore file = World.highScore w) ->
  World.state w = PLAYING -> World.respawnTimer w = 0 ->
  1 <= Player.lives (World.player w) <= START_LIVES ->
  Player.score (World.player w) + level_points * Player.lives (World.player w)
  <= max_score ->
  tally_inv writes_ok file w'.
Proof.
  intros H Hs Hf Hsync Hst Ht Hl Hpts.
  destruct (ResetLevel_fields _ _ _ _ _ _ H) as (Ep & _ & Es & Eh & Et & Hp).
  unfold tally_inv. cbv zeta. rewrite Ep, Es, Eh, Et, Hst, Ht.
  cbn [Player.ResetTo Player.score Player.lives Player.alive].
  split; [exact Hs|]. split; [exact Hf|]. split; [exact Hsync|].
  split; [exact Hl|]. split; [unfold RESPAWN_DELAY; lia|].
  cbn [Z.gtb Z.compare]. split; [reflexivity|]. lia.
Qed.

Lemma ResetAll_tally g g' :
  (forall v, Game.highscore_txt g = Some v -> v <= World.highScore (Game.world g)) ->
  (writes_ok ->
   loaded_highScore (Game.highscore_txt g) = World.highScore (Game.world g)) ->
  Game.ResetAll rand_seq fuel g = Some g' ->
  tally_inv writes_ok (Game.highscore_txt g') (Game.world g').
Proof.
  intros Hf Hsync H. unfold Game.ResetAll in H.
  destruct (Game.ResetLevel _ _ _) as [g1|] eqn:E; [|discriminate].
  simpl in H. inversion H; subst g'. clear H.
  destruct (Game_ResetLevel_world _ _ _ _ E) as (Ef & c & Ew).
  destruct (ResetLevel_fields _ _ _ _ _ _ Ew) as (Ep & _ & Es & Eh & Et & Hp).
  cbn [Game.world Game.highscore_txt Game.rand_calls] in *.
  unfold tally_inv. cbv zeta.
  cbn [World.set_respawnTimer World.set_state World.player World.state
       World.highScore World.respawnTimer].
  rewrite Ep, Eh, Ef.
  cbn [World.set_player World.player World.highScore Player.ResetTo
       Player.set_alive Player.set_score Player.set_lives
       Player.score Player.lives Player.alive].
  split; [lia|]. split; [exact Hf|]. split; [exact Hsync|].
  repeat split.
Qed.

Lemma UpdatePlaying_tally inp g g' :
  (writes_ok -> out_ok1 inp = true /\ out_ok2 inp = true) ->
  World.state (Game.world g) = PLAYING ->
  tally_inv writes_ok (Game.highscore_txt g) (Game.world g) ->
  Game.UpdatePlaying rand_seq fuel check inp g = Some g' ->
  tally_inv writes_ok (Game.highscore_txt g') (Game.world g').
Proof.
  intros Hok Hst Hinv H. unfold Game.UpdatePlaying in H. cbv zeta in H.
  pose proof Hinv as (Hs & Hf & Hsync & Hplay).
  rewrite Hst in Hplay. destruct Hplay as (Hl & Ht & Hpts).
  destruct (Z.gtb_spec (World.respawnTimer (Game.world g)) 0) as [Hpos|Hzero].
  - cbn [World.respawnTimer World.set_respawnTimer] in H.
    destruct (Z.eqb_spec (World.respawnTimer (Game.world g) - 1) 0) as [E|E].
    + destruct (Game_ResetLevel_world _ _ _ _ H) as (Ef & c & Ew).
      cbn [Game.world Game.highscore_txt Game.rand_calls] in Ef, Ew.
      rewrite Ef.
      eapply ResetLevel_tally; [exact Ew|..]; simpl; try assumption; lia.
    + inversion H; subst g'. clear H.
      cbn [Game.world Game.highscore_txt].
      unfold tally_inv. cbv zeta.
      cbn [World.player World.state World.highScore World.respawnTimer
           World.set_respawnTimer].
      rewrite Hst.
      split; [exact Hs|]. split; [exact Hf|]. split; [exact Hsync|].
      split; [exact Hl|]. split; [lia|].
      destruct (Z.gtb_spec (World.respawnTimer (Game.world g) - 1) 0); [|lia].
      exact Hpts.
  - destruct (dig _ _) as [d|]; [|discriminate]. simpl in H.
    destruct (World.CheckTunnelActivation _) as [w2|] eqn:E2; [|discriminate].
    simpl in H.
    destruct (MoveEnemies w2) as [w3|] eqn:E3; [|discriminate]. simpl in H.
    destruct (Main.ResolveCollisions _ _ _ _ w3) as [w4 file'] eqn:E4.
    inversion H; subst g'. clear H. cbn [Game.world Game.highscore_txt].
    destruct (CheckTunnelActivation_fields _ _ E2)
      as (C1 & C2 & C3 & C4 & C5 & C6).
    destruct (MoveEnemies_moved _ _ E3) as (M1 & _ & _ & M4 & M5 & M6 & _).
    pose proof (MoveEnemies_points _ _ E3) as M7.
    destruct (Player_Move_tally inp (World.player (Game.world g)))
      as (P1 & P2 & P3).
    cbn [World.player World.set_player World.fruit World.state World.highScore
         World.respawnTimer] in C1, C3, C4, C5.
    assert (C6' : points_left w2 = points_left (Game.world g))
      by (rewrite C6; reflexivity).
    eapply (ResolveCollisions_tally writes_ok check); [exact Hok| | |
                                                       |exact E4].
    + rewrite M4, C3. exact Hst.
    + rewrite M6, C5. lia.
    + eapply tally_inv_same; [exact Hst|..|exact Hinv].
      * rewrite M1, C1. exact P1.
      * rewrite M1, C1. exact P2.
      * rewrite M1, C1. exact P3.
      * rewrite M4, C3. reflexivity.
      * rewrite M5, C4. reflexivity.
      * rewrite M6, C5. reflexivity.
      * rewrite M7. exact C6'.
Qed.

Lemma Update_tally inp g g' :
  (writes_ok -> out_ok1 inp = true /\ out_ok2 inp = true) ->
  tally_inv writes_ok (Game.highscore_txt g) (Game.world g) ->
  Game.Update rand_seq fuel check inp g = Some g' ->
  tally_inv writes_ok (Game.highscore_txt g') (Game.world g').
Proof.
  intros Hok Hinv H. unfold Game.Update in H.
  pose proof Hinv as (Hs & Hf & Hsync & Hstate).
  destruct (World.state (Game.world g)) eqn:Hst.
  - destruct (KEY_ENTER inp); [|inversion H; subst g'; exact Hinv].
    destruct (Game_ResetLevel_world _ _ _ _ H) as (Ef & c & Ew).
    cbn [Game.world Game.highscore_txt Game.rand_calls] in Ef, Ew.
    rewrite Ef. destruct Hstate as (S1 & S2 & S3 & S4).
    eapply ResetLevel_tally; [exact Ew|..]; simpl; try assumption;
      try reflexivity; rewrite ?S1, ?S2;
      unfold max_score, level_points, START_LIVES; lia.
  - eapply UpdatePlaying_tally; eauto.
  - destruct (KEY_ENTER inp || KEY_R inp); [|inversion H; subst g'; exact Hinv].
    eapply ResetAll_tally; eauto.
  - destruct (KEY_ENTER inp || KEY_R inp); [|inversion H; subst g'; exact Hinv].
    eapply ResetAll_tally; eauto.
Qed.

Lemma Draw_tally inp g g' :
  tally_inv writes_ok (Game.highscore_txt g) (Game.world g) ->
  Game.Draw rand_seq fuel inp g = Some g' ->
  tally_inv writes_ok (Game.highscore_txt g') (Game.world g').
Proof.
  intros Hinv H. unfold Game.Draw in H.
  pose proof Hinv as (Hs & Hf & Hsync & Hstate).
  destruct (World.state (Game.world g)) eqn:Hst.
  - inversion H; subst g'; exact Hinv.
  - inversion H; subst g'. cbn [Game.world Game.highscore_txt].
    destruct (Player_Draw_tally (World.player (Game.world g))) as (D1 & D2 & D3).
    eapply tally_inv_same; [exact Hst|..|exact Hinv]; try reflexivity;
      assumption.
  - destruct (restart_button inp || KEY_ENTER inp || KEY_R inp);
      [|inversion H; subst g'; exact Hinv].
    eapply ResetAll_tally; eauto.
  - destruct (restart_button inp || KEY_ENTER inp || KEY_R inp);
      [|inversion H; subst g'; exact Hinv].
    eapply ResetAll_tally; eauto.
Qed.

Lemma Frame_tally inp g g' :
  (writes_ok -> out_ok1 inp = true /\ out_ok2 inp = true) ->
  tally_inv writes_ok (Game.highscore_txt g) (Game.world g) ->
  Game.Frame rand_seq fuel check inp g = Some g' ->
  tally_inv writes_ok (Game.highscore_txt g') (Game.world g').
Proof.
  intros Hok Hinv H. unfold Game.Frame in H.
  destruct (Game.Update _ _ _ _ _) as [g1|] eqn:E; [|discriminate].
  simpl in H. eapply Draw_tally; [|exact H]. eapply Update_tally; eauto.
Qed.

Lemma run_tally inps : forall g g',
  (writes_ok ->
   Forall (fun inp => out_ok1 inp = true /\ out_ok2 inp = true) inps) ->
  tally_inv writes_ok (Game.highscore_txt g) (Game.world g) ->
  Game.run rand_seq fuel check inps g = Some g' ->
  tally_inv writes_ok (Game.highscore_txt g') (Game.world g').
Proof.
  induction inps as [|inp inps IH]; intros g g' Hok Hinv H; simpl in H.
  - inversion H; subst g'. exact Hinv.
  - destruct (Game.Frame _ _ _ _ _) as [g1|] eqn:E; [|discriminate].
    simpl in H. eapply (IH g1 g'); [| |exact H].
    + intros HP. specialize (Hok HP). inversion Hok; assumption.
    + eapply Frame_tally; [|exact Hinv|exact E].
      intros HP. specialize (Hok HP). inversion Hok; assumption.
Qed.

Lemma init_tally file calls g0 :
  Game.init rand_seq fuel file calls = Some g0 ->
  tally_inv writes_ok (Game.highscore_txt g0) (Game.world g0).
Proof.
  unfold Game.init. apply ResetAll_tally.
  - intros v. unfold Game.LoadHighScore. cbn [Game.highscore_txt].
    destruct file; simpl; intros Hv; inversion Hv. lia.
  - intros _. unfold loaded_highScore, Game.LoadHighScore.
    cbn [Game.highscore_txt]. destruct file; reflexivity.
Qed.

End TallyLoop.

(** X8.  In every state the main loop reaches, the score is between 0
    and 6300: a level holds at most 8 enemies of at most 200 points and
    one fruit of 500, a new level comes only with the loss of a life, and
    [ResetAll] sets the score to 0.  The [int] that holds the score does
    not overflow. *)
Theorem score_bounded (rand_seq : nat -> N) (fuel : nat)
    (check : Rectangle.t -> Rectangle.t -> bool) (file : option Z)
    (calls : nat) (inps : list Input) (g0 g : Game.t) :
  Game.init rand_seq fuel file calls = Some g0 ->
  Game.run rand_seq fuel check inps g0 = Some g ->
  0 <= Player.score (World.player (Game.world g)) <= 6300.
Proof.
  intros E0 E.
  pose proof (init_tally False rand_seq fuel file calls g0 E0) as I0.
  pose proof (run_tally False rand_seq fuel check inps g0 g
                (fun F => False_ind _ F) I0 E) as (Hs & _ & _ & Hst).
  split; [exact Hs|]. cbv zeta in Hst.
  pose proof (live_monsters_range (World.monsters (Game.world g))).
  pose proof (live_dragons_range (World.dragons (Game.world g))).
  unfold max_score, level_points, START_LIVES, points_left in Hst.
  destruct (World.state (Game.world g)); [lia| |lia|lia].
  destruct Hst as (Hl & _ & Hpts).
  destruct (World.respawnTimer (Game.world g) >? 0); [lia|].
  destruct (Fruit.collected (World.fruit (Game.world g))); lia.
Qed.

Lemma score_bounded_witness :
  exists g0 g,
    Game.init lcg_rand 51 None 0 = Some g0
    /\ Game.run lcg_rand 51 always_overlap
                [key_enter; key_space; no_key] g0 = Some g
    /\ 0 < Player.score (World.player (Game.world g)) <= 6300.
Proof.
  destruct (Game.init lcg_rand 51 None 0) as [g0|] eqn:E0;
    [|vm_compute in E0; discriminate].
  destruct (Game.run lcg_rand 51 always_overlap
              [key_enter; key_space; no_key] g0) as [g|] eqn:E1.
  - exists g0, g. split; [reflexivity|]. split; [exact E1|].
    split; [|exact (proj2 (score_bounded lcg_rand 51 always_overlap None 0
                             _ g0 g E0 E1))].
    vm_compute in E0. inversion E0; subst g0.
    vm_compute in E1. inversion E1; subst g. reflexivity.
  - exfalso. vm_compute in E0. inversion E0; subst g0.
    vm_compute in E1. discriminate.
Defined.

(** X9.  In every state the main loop reaches, the player has between 0
    and [START_LIVES] lives; while the game is played it has at least
    one, the respawn countdown is between 0 and [RESPAWN_DELAY], and the
    player is alive whenever no countdown runs: [Player::Move] and the
    collision tests never run for a dead player or with no life left.  On
    the splash screen the score is 0 and the lives are [START_LIVES]. *)
Theorem lives_while_playing (rand_seq : nat -> N) (fuel : nat)
    (check : Rectangle.t -> Rectangle.t -> bool) (file : option Z)
    (calls : nat) (inps : list Input) (g0 g : Game.t) :
  Game.init rand_seq fuel file calls = Some g0 ->
  Game.run rand_seq fuel check inps g0 = Some g ->
  let w := Game.world g in
  0 <= Player.lives (World.player w) <= START_LIVES
  /\ (World.state w = PLAYING ->
      1 <= Player.lives (World.player w)
      /\ 0 <= World.respawnTimer w <= RESPAWN_DELAY
      /\ (World.respawnTimer w = 0 -> Player.alive (World.player w) = true))
  /\ (World.state w = SPLASH ->
      Player.lives (World.player w) = START_LIVES
      /\ Player.score (World.player w) = 0
      /\ Player.alive (World.player w) = true
      /\ World.respawnTimer w = 0).
Proof.
  intros E0 E w.
  pose proof (init_tally False rand_seq fuel file calls g0 E0) as I0.
  pose proof (run_tally False rand_seq fuel check inps g0 g
                (fun F => False_ind _ F) I0 E) as (Hs & _ & _ & Hst).
  cbv zeta in Hst. fold w in Hst. unfold START_LIVES in *.
  destruct (World.state w).
  - destruct Hst as (S1 & S2 & S3 & S4).
    split; [lia|]. split; [intros; discriminate|]. intros _. tauto.
  - destruct Hst as (Hl & Ht & Hpts).
    split; [lia|]. split; [|intros; discriminate]. intros _.
    split; [lia|]. split; [exact Ht|]. intros Hz. rewrite Hz in Hpts.
    apply Hpts.
  - split; [lia|]. split; intros; discriminate.
  - split; [lia|]. split; intros; discriminate.
Qed.

Lemma lives_while_playing_witness :
  exists g0 g,
    Game.init lcg_rand 51 None 0 = Some g0
    /\ Game.run lcg_rand 51 always_overlap
                [key_enter; no_key; no_key] g0 = Some g
    /\ World.state (Game.world g) = PLAYING
    /\ World.respawnTimer (Game.world g) = RESPAWN_DELAY - 1
    /\ 1 <= Player.lives (World.player (Game.world g)) <= START_LIVES.
Proof.
  destruct (Game.init lcg_rand 51 None 0) as [g0|] eqn:E0;
    [|vm_compute in E0; discriminate].
  destruct (Game.run lcg_rand 51 always_overlap
              [key_enter; no_key; no_key] g0) as [g|] eqn:E1.
  - exists g0, g. split; [reflexivity|]. split; [exact E1|].
    assert (Hst : World.state (Game.world g) = PLAYING
                  /\ World.respawnTimer (Game.world g) = RESPAWN_DELAY - 1).
    { vm_compute in E0. inversion E0; subst g0.
      vm_compute in E1. inversion E1; subst g. split; reflexivity. }
    split; [apply Hst|]. split; [apply Hst|].
    destruct (lives_while_playing lcg_rand 51 always_overlap None 0
                _ g0 g E0 E1) as (Hl & Hplay & _).
    split; [apply (Hplay (proj1 Hst)) | apply Hl].
  - exfalso. vm_compute in E0. inversion E0; subst g0.
    vm_compute in E1. discriminate.
Defined.

(** X10.  In every state the main loop reaches: on the game-over screen
    the player has no life left, on the win screen no enemy is alive, and
    on both the high score shown is at least the final score. *)
Theorem end_screens (rand_seq : nat -> N) (fuel : nat)
    (check : Rectangle.t -> Rectangle.t -> bool) (file : option Z)
    (calls : nat) (inps : list Input) (g0 g : Game.t) :
  Game.init rand_seq fuel file calls = Some g0 ->
  Game.run rand_seq fuel check inps g0 = Some g ->
  let w := Game.world g in
  (World.state w = GAMEOVER ->
   Player.lives (World.player w) = 0
   /\ Player.score (World.player w) <= World.highScore w)
  /\ (World.state w = WIN ->
      Forall (fun m => Monster.alive m = false) (World.monsters w)
      /\ Forall (fun d => Dragon.alive d = false) (World.dragons w)
      /\ Player.score (World.player w) <= World.highScore w).
Proof.
  intros E0 E w.
  pose proof (init_tally False rand_seq fuel file calls g0 E0) as I0.
  pose proof (run_tally False rand_seq fuel check inps g0 g
                (fun F => False_ind _ F) I0 E) as (Hs & _ & _ & Hst).
  cbv zeta in Hst. fold w in Hst.
  destruct (World.state w); (split; intros Hw; try discriminate).
  - split; apply Hst.
  - destruct Hst as (_ & _ & Hh & Hdead).
    apply andb_true_iff in Hdead. destruct Hdead as [Hm Hd].
    unfold Main.allMonstersDead in Hm. unfold Main.allDragonsDead in Hd.
    rewrite forallb_forall in Hm. rewrite forallb_forall in Hd.
    split; [|split; [|exact Hh]].
    + apply Forall_forall. intros m Hin. apply negb_true_iff, Hm.
      apply list_elem_of_In. exact Hin.
    + apply Forall_forall. intros d Hin. apply negb_true_iff, Hd.
      apply list_elem_of_In. exact Hin.
Qed.

Lemma end_screens_witness :
  exists g0 g,
    Game.init odd_rand 51 None 0 = Some g0
    /\ Game.run odd_rand 51 Main.raylib_CheckCollisionRecs
                [key_enter; no_key] g0 = Some g
    /\ World.state (Game.world g) = WIN
    /\ Player.score (World.player (Game.world g))
       <= World.highScore (Game.world g).
Proof.
  destruct (Game.init odd_rand 51 None 0) as [g0|] eqn:E0;
    [|vm_compute in E0; discriminate].
  destruct (Game.run odd_rand 51 Main.raylib_CheckCollisionRecs
              [key_enter; no_key] g0) as [g|] eqn:E1.
  - exists g0, g. split; [reflexivity|]. split; [exact E1|].
    assert (Hw : World.state (Game.world g) = WIN).
    { vm_compute in E0. inversion E0; subst g0.
      vm_compute in E1. inversion E1; subst g. reflexivity. }
    split; [exact Hw|].
    exact (proj2 (proj2 (proj2 (end_screens odd_rand 51
                                  Main.raylib_CheckCollisionRecs None 0
                                  _ g0 g E0 E1) Hw))).
  - exfalso. vm_compute in E0. inversion E0; subst g0.
    vm_compute in E1. discriminate.
Defined.

(** X11.  The high score survives the end of the program: if no write
    to the high-score file has failed, then in every state the main loop
    reaches, [LoadHighScore] at the next start reads the high score the
    world holds now. *)
Theorem high_score_round_trip (rand_seq : nat -> N) (fuel : nat)
    (check : Rectangle.t -> Rectangle.t -> bool) (file : option Z)
    (calls : nat) (inps : list Input) (g0 g : Game.t) :
  Forall (fun inp => out_ok1 inp = true /\ out_ok2 inp = true) inps ->
  Game.init rand_seq fuel file calls = Some g0 ->
  Game.run rand_seq fuel check inps g0 = Some g ->
  loaded_highScore (Game.highscore_txt g) = World.highScore (Game.world g).
Proof.
  intros Hok E0 E.
  pose proof (init_tally True rand_seq fuel file calls g0 E0) as I0.
  pose proof (run_tally True rand_seq fuel check inps g0 g
                (fun _ => Hok) I0 E) as (_ & _ & Hsync & _).
  exact (Hsync I).
Qed.

Lemma high_score_round_trip_witness :
  exists g0 g,
    Game.init lcg_rand 51 None 0 = Some g0
    /\ Game.run lcg_rand 51 always_overlap
                [key_enter; key_space; no_key] g0 = Some g
    /\ 0 < World.highScore (Game.world g)
    /\ loaded_highScore (Game.highscore_txt g) = World.highScore (Game.world g).
Proof.
  destruct (Game.init lcg_rand 51 None 0) as [g0|] eqn:E0;
    [|vm_compute in E0; discriminate].
  destruct (Game.run lcg_rand 51 always_overlap
              [key_enter; key_space; no_key] g0) as [g|] eqn:E1.
  - exists g0, g. split; [reflexivity|]. split; [exact E1|].
    split.
    + vm_compute in E0. inversion E0; subst g0.
      vm_compute in E1. inversion E1; subst g. reflexivity.
    + apply (high_score_round_trip lcg_rand 51 always_overlap None 0
               [key_enter; key_space; no_key] g0 g); [|exact E0|exact E1].
      repeat constructor.
  - exfalso. vm_compute in E0. inversion E0; subst g0.
    vm_compute in E1. discriminate.
Defined.

(* ------------------------------------------------------------------ *)
(** ** The dug mask of a level *)
(* ------------------------------------------------------------------ *)

(** X12.  [ResetLevel] leaves the [dug] mask with exactly the tiles of
    the new tunnels marked: a tile is dug iff some tunnel of the new
    layout contains it, whatever the mask held before; the mask keeps its
    size, and no write of the marking loops is out of range. *)
Theorem ResetLevel_marks_tunnels (rand_seq : nat -> N) (fuel : nat)
    (g : Game.t) :
  (51 <= fuel)%nat -> dug_dims (Game.dug g) ->
  exists g',
    Game.ResetLevel rand_seq fuel g = Some g'
    /\ dug_dims (Game.dug g')
    /\ forall y x,
         dug_at (Game.dug g') y x
         = existsb (fun h => Tunnel.Contains h x y)
                   (World.tunnels (Game.world g')).
Proof.
  intros Hf Hd.
  destruct (Game_ResetLevel_spec rand_seq fuel Hf g Hd)
    as (w' & c & d' & _ & _ & Hr & Hat & Hinv).
  eexists. split; [exact Hr|]. split; [apply Hinv | exact Hat].
Qed.

Lemma ResetLevel_marks_tunnels_witness :
  exists g',
    Game.ResetLevel lcg_rand 51 (Game.mk Game.World_new dug_new None 0)
    = Some g'
    /\ dug_at (Game.dug g') 10 15 = true
    /\ dug_at (Game.dug g') 0 0 = false.
Proof.
  destruct (ResetLevel_marks_tunnels lcg_rand 51
              (Game.mk Game.World_new dug_new None 0)
              (le_n 51) dug_new_dims) as (g' & Hr & _ & Hat).
  exists g'. split; [exact Hr|].
  rewrite !Hat. vm_compute in Hr. inversion Hr; subst g'.
  split; reflexivity.
Defined.

(** X13.  The frame update digs the tile the player stands on: for a
    player on the pixel lattice of the screen the write to [dug] is in
    range, it marks the player's tile, and every other tile of the mask
    is as before. *)
Theorem dig_marks_player_tile (p : Player.t) (dug : Dug) :
  on_lattice p -> dug_dims dug ->
  exists dug' gx gy,
    dig p dug = Some dug'
    /\ tile_of_pixel (Vector2.x (Player.pos p)) = Some gx
    /\ tile_of_pixel (Vector2.y (Player.pos p)) = Some gy
    /\ dug_dims dug'
    /\ forall y x,
         dug_at dug' y x = dug_at dug y x || ((y =? gy) && (x =? gx)).
Proof.
  intros Hp Hd.
  destruct (on_lattice_tile p Hp) as (gx & gy & Hx & Hy & Bx & By).
  destruct (dug_set_spec dug gy gx Hd By Bx) as (d' & Hs & Hd' & Hat).
  exists d', gx, gy. split; [|auto].
  unfold dig. rewrite Hx, Hy. simpl.
  destruct (Z.leb_spec 0 gy), (Z.ltb_spec gy GRID_HEIGHT), (Z.leb_spec 0 gx),
    (Z.ltb_spec gx GRID_WIDTH); try lia. exact Hs.
Qed.

Lemma dig_marks_player_tile_witness :
  exists dug',
    dig (sample_player 100 100 3 0) dug_new = Some dug'
    /\ dug_at dug' 3 3 = true /\ dug_at dug' 3 4 = false.
Proof.
  destruct (dig_marks_player_tile (sample_player 100 100 3 0) dug_new)
    as (d' & gx & gy & Hdig & Hx & Hy & _ & Hat).
  - exists 50, 50. split; [lia|]. split; [lia|]. reflexivity.
  - exact dug_new_dims.
  - exists d'. split; [exact Hdig|].
    vm_compute in Hx. inversion Hx; subst gx.
    vm_compute in Hy. inversion Hy; subst gy.
    rewrite !Hat. split; reflexivity.
Defined.

(* ------------------------------------------------------------------ *)
(** ** Respawn and restart *)
(* ------------------------------------------------------------------ *)

(** X14.  While the respawn countdown runs the game is frozen: as long
    as fewer frames have passed than the countdown held, the iterations
    of the main loop, whatever the keys, change nothing but the countdown,
    which loses one per frame, and the two timers that [Player::Draw]
    counts down.  The player does not move or fire, no enemy moves, no
    collision is tested and [dug], the high-score file and [rand()] are
    left alone. *)
Theorem respawn_countdown (rand_seq : nat -> N) (fuel : nat)
    (check : Rectangle.t -> Rectangle.t -> bool) (inps : list Input) :
  forall g : Game.t,
  World.state (Game.world g) = PLAYING ->
  Z.of_nat (length inps) < World.respawnTimer (Game.world g) ->
  Game.run rand_seq fuel check inps g
  = Some (Game.mk
            (World.set_player
               (Player_Draw_n (length inps) (World.player (Game.world g)))
               (World.set_respawnTimer
                  (World.respawnTimer (Game.world g) - Z.of_nat (length inps))
                  (Game.world g)))
            (Game.dug g) (Game.highscore_txt g) (Game.rand_calls g)).
Proof.
  induction inps as [|inp inps IH]; intros g Hst Hlen.
  - destruct g as [[p ms ds ts f st hs t] d file c]. simpl.
    rewrite Z.sub_0_r. reflexivity.
  - cbn [length] in Hlen. rewrite Nat2Z.inj_succ in Hlen.
    cbn [Game.run]. unfold Game.Frame, Game.Update. rewrite Hst.
    unfold Game.UpdatePlaying. cbv zeta.
    destruct (Z.gtb_spec (World.respawnTimer (Game.world g)) 0); [|lia].
    cbn [World.respawnTimer World.set_respawnTimer].
    destruct (Z.eqb_spec (World.respawnTimer (Game.world g) - 1) 0); [lia|].
    cbn [mbind option_bind]. unfold Game.Draw.
    cbn [Game.world World.state World.set_respawnTimer]. rewrite Hst.
    cbn [mbind option_bind]. rewrite IH.
    + destruct g as [[p ms ds ts f st hs t] d file c].
      cbn [length Player_Draw_n]. rewrite Nat2Z.inj_succ. simpl.
      do 2 f_equal. unfold World.set_player, World.set_respawnTimer. simpl.
      f_equal. lia.
    + simpl. exact Hst.
    + simpl. lia.
Qed.

Lemma respawn_countdown_witness :
  let g := Game.mk (World.set_respawnTimer RESPAWN_DELAY
                      (sample_world (sample_player 100 100 2 0) [] [] [] 0))
                   dug_new None 0 in
  exists g',
    Game.run lcg_rand 51 Main.raylib_CheckCollisionRecs
             [key_right; key_space; key_enter] g = Some g'
    /\ World.respawnTimer (Game.world g') = RESPAWN_DELAY - 3
    /\ Player.pos (World.player (Game.world g'))
       = Vector2.mk (F32.of_int 100) (F32.of_int 100).
Proof.
  intros g. eexists. split.
  - apply (respawn_countdown lcg_rand 51 Main.raylib_CheckCollisionRecs
             [key_right; key_space; key_enter] g); [reflexivity|].
    simpl. unfold RESPAWN_DELAY. lia.
  - split; reflexivity.
Defined.

Lemma ResetAll_state rand_seq fuel g g' :
  Game.ResetAll rand_seq fuel g = Some g' ->
  World.state (Game.world g') = SPLASH.
Proof.
  unfold Game.ResetAll. intros H.
  destruct (Game.ResetLevel _ _ _) as [g1|]; [|discriminate].
  simpl in H. inversion H; subst g'. reflexivity.
Qed.

(** X15.  On the game-over and on the win screen one iteration of the
    main loop restarts the game at most once: it is one call of
    [ResetAll] if the Enter key, the R key or the restart button was
    pressed, and it changes nothing otherwise.  The update half and the
    drawing half both test the keys, but after the reset of the first the
    state is [SPLASH] and the second does not reset again. *)
Theorem restart_frame (rand_seq : nat -> N) (fuel : nat)
    (check : Rectangle.t -> Rectangle.t -> bool) (inp : Input) (g : Game.t) :
  World.state (Game.world g) = GAMEOVER \/ World.state (Game.world g) = WIN ->
  Game.Frame rand_seq fuel check inp g
  = if restart_button inp || KEY_ENTER inp || KEY_R inp
    then Game.ResetAll rand_seq fuel g
    else Some g.
Proof.
  intros Hst. unfold Game.Frame, Game.Update.
  assert (Hreset :
            (g1 ← Game.ResetAll rand_seq fuel g; Game.Draw rand_seq fuel inp g1)
            = Game.ResetAll rand_seq fuel g).
  { destruct (Game.ResetAll rand_seq fuel g) as [g1|] eqn:E; [|reflexivity].
    simpl. unfold Game.Draw. rewrite (ResetAll_state _ _ _ _ E). reflexivity. }
  destruct Hst as [Hs | Hs]; rewrite Hs;
    destruct (restart_button inp) eqn:Hb, (KEY_ENTER inp) eqn:He,
      (KEY_R inp) eqn:Hr;
    cbn [orb]; try exact Hreset;
    cbn [mbind option_bind]; unfold Game.Draw; rewrite Hs, Hb, He, Hr;
    reflexivity.
Qed.

Lemma restart_frame_witness :
  let g := Game.mk (World.set_state GAMEOVER
                      (sample_world (sample_player 100 100 0 700) [] [] [] 0))
                   dug_new None 0 in
  exists g',
    Game.Frame lcg_rand 51 Main.raylib_CheckCollisionRecs key_enter g = Some g'
    /\ World.state (Game.world g') = SPLASH
    /\ Player.lives (World.player (Game.world g')) = START_LIVES
    /\ Player.score (World.player (Game.world g')) = 0.
Proof.
  intros g.
  pose proof (restart_frame lcg_rand 51 Main.raylib_CheckCollisionRecs
                key_enter g (or_introl eq_refl)) as H.
  cbn [key_enter restart_button KEY_ENTER KEY_R orb] in H.
  destruct (Game.ResetAll lcg_rand 51 g) as [g'|] eqn:E.
  - exists g'. split; [exact H|].
    vm_compute in E. inversion E; subst g'. repeat split.
  - vm_compute in E. discriminate E.
Defined.

(** X16.  [ResetAll] starts a fresh game: the splash screen, no respawn
    countdown, [START_LIVES] lives, score 0, a live player at pixel
    (100, 100) without a harpoon, the fruit back in place, every tunnel
    dormant and every enemy alive and on patrol.  The high score and the
    high-score file are the ones from before. *)
Theorem ResetAll_fresh_game (rand_seq : nat -> N) (fuel : nat)
    (g g' : Game.t) :
  Game.ResetAll rand_seq fuel g = Some g' ->
  let w' := Game.world g' in
  let p' := World.player w' in
  World.state w' = SPLASH /\ World.respawnTimer w' = 0
  /\ Player.lives p' = START_LIVES /\ Player.score p' = 0
  /\ Player.alive p' = true
  /\ Player.pos p' = Vector2.mk (F32.of_int 100) (F32.of_int 100)
  /\ harpoon_active p' = false
  /\ World.highScore w' = World.highScore (Game.world g)
  /\ Game.highscore_txt g' = Game.highscore_txt g
  /\ Fruit.collected (World.fruit w') = false
  /\ Forall (fun t => Tunnel.activated t = false) (World.tunnels w')
  /\ Forall (fun m => Monster.alive m = true /\ Monster.inTunnel m = true
                      /\ Monster.chasing m = false) (World.monsters w')
  /\ Forall (fun d => Dragon.alive d = true /\ Dragon.inTunnel d = true
                      /\ Dragon.chasing d = false) (World.dragons w').
Proof.
  intros H. unfold Game.ResetAll in H.
  destruct (Game.ResetLevel _ _ _) as [g1|] eqn:E; [|discriminate].
  simpl in H. inversion H; subst g'. clear H.
  destruct (Game_ResetLevel_world _ _ _ _ E) as (Ef & c & Ew).
  destruct (ResetLevel_fields _ _ _ _ _ _ Ew) as (Ep & Efr & _ & Eh & _ & _).
  destruct (ResetLevel_enemies _ _ _ _ _ _ Ew) as (_ & Hms & Hds).
  destruct (ResetLevel_tunnels _ _ _ _ _ _ Ew) as (layout & c0 & _ & Hts).
  cbn [Game.world Game.highscore_txt Game.rand_calls] in *.
  cbv zeta.
  cbn [World.set_respawnTimer World.set_state World.player World.state
       World.highScore World.respawnTimer World.fruit World.tunnels
       World.monsters World.dragons].
  rewrite Ep, Efr, Eh, Ef, Hts.
  do 10 (split; [reflexivity|]).
  split; [|split].
  - apply Forall_fmap, Forall_forall. intros t _. reflexivity.
  - eapply Forall_impl; [exact Hms|]. intros m (i & h & _ & ->). repeat split.
  - eapply Forall_impl; [exact Hds|]. intros d (i & h & _ & ->). repeat split.
Qed.

Lemma ResetAll_fresh_game_witness :
  exists g',
    Game.ResetAll lcg_rand 51
      (Game.mk (World.set_state GAMEOVER
                  (sample_world (sample_player 300 200 0 700) [] [] [] 900))
               dug_new (Some 900) 0)
    = Some g'
    /\ World.state (Game.world g') = SPLASH
    /\ Player.score (World.player (Game.world g')) = 0
    /\ World.highScore (Game.world g') = 900.
Proof.
  destruct (Game.ResetAll lcg_rand 51 _) as [g'|] eqn:E;
    [|vm_compute in E; discriminate E].
  exists g'. split; [reflexivity|].
  destruct (ResetAll_fresh_game lcg_rand 51 _ g' E)
    as (H1 & _ & _ & H4 & _ & _ & _ & H8 & _).
  split; [exact H1|]. split; [exact H4 | exact H8].
Defined.

(* ------------------------------------------------------------------ *)
(** ** Activation and enemy movement across frames *)
(* ------------------------------------------------------------------ *)

Lemma triggers_after px py tn :
  triggers px py (if triggers px py tn then Tunnel.set_activated true tn else tn)
  = false.
Proof.
  destruct (triggers px py tn) eqn:E; [|exact E].
  unfold triggers. simpl. apply andb_false_r.
Qed.

Lemma released_after px py ts h :
  released px py 0
    (map (fun tn => if triggers px py tn
                    then Tunnel.set_activated true tn else tn) ts) h
  = false.
Proof.
  unfold released. destruct h as [j|]; [|reflexivity]. simpl.
  rewrite Nat.sub_0_r.
  change (map ?f ts) with (f <$> ts). rewrite list_lookup_fmap.
  destruct (ts !! j); simpl; [apply triggers_after | reflexivity].
Qed.

(** X17.  [CheckTunnelActivation] is idempotent: run again on its own
    result, with the player on the same tile, it changes nothing.  A
    tunnel is activated, and its enemies are released, once. *)
Theorem CheckTunnelActivation_idempotent (w w' : World.t) :
  World.CheckTunnelActivation w = Some w' ->
  World.CheckTunnelActivation w' = Some w'.
Proof.
  intros H.
  destruct (CheckTunnelActivation_returns w w' H) as (px & py & Hx & Hy).
  rewrite (CheckTunnelActivation_eq w px py Hx Hy) in H.
  inversion H as [Hw]. clear H.
  rewrite (CheckTunnelActivation_eq _ px py); [|exact Hx|exact Hy].
  cbn [World.player World.monsters World.dragons World.tunnels World.fruit
       World.state World.highScore World.respawnTimer].
  do 2 f_equal.
  - rewrite <- (map_id (map _ (World.monsters w))) at 2.
    apply map_ext. intros m. rewrite released_after. reflexivity.
  - rewrite <- (map_id (map _ (World.dragons w))) at 2.
    apply map_ext. intros d. rewrite released_after. reflexivity.
  - rewrite <- (map_id (map _ (World.tunnels w))) at 2.
    rewrite !map_map. apply map_ext. intros tn. simpl.
    destruct (triggers px py tn) eqn:E.
    + unfold triggers. simpl. rewrite andb_false_r. reflexivity.
    + rewrite E. reflexivity.
Qed.

Lemma CheckTunnelActivation_idempotent_witness :
  let w := sample_world (sample_player 100 100 3 0)
             [Monster.new 64 96 (Some 0%nat)] []
             [Tunnel.set_activated false (Tunnel.new 2 3 5 HORIZONTAL)] 0 in
  exists w',
    World.CheckTunnelActivation w = Some w'
    /\ Forall (fun m => Monster.chasing m = true) (World.monsters w')
    /\ World.CheckTunnelActivation w' = Some w'.
Proof.
  intros w.
  destruct (World.CheckTunnelActivation w) as [w'|] eqn:E;
    [|vm_compute in E; discriminate E].
  exists w'. split; [reflexivity|].
  split; [|exact (CheckTunnelActivation_idempotent w w' E)].
  vm_compute in E. inversion E; subst w'. repeat constructor.
Defined.

(** X18.  "Move monsters and dragons" moves nothing but positions and
    patrol directions: the player, the tunnels, the fruit, the state and
    the counters are as before, there are as many enemies as before, and
    each enemy keeps its [alive], [inTunnel], [chasing] and [homeTunnel];
    a dead enemy, and an enemy that neither patrols nor chases, is left
    exactly as it was. *)
Theorem dead_enemies_do_not_move (w w' : World.t) :
  MoveEnemies w = Some w' ->
  World.player w' = World.player w
  /\ World.tunnels w' = World.tunnels w
  /\ World.fruit w' = World.fruit w
  /\ World.state w' = World.state w
  /\ length (World.monsters w') = length (World.monsters w)
  /\ length (World.dragons w') = length (World.dragons w)
  /\ (forall i m, World.monsters w !! i = Some m ->
        exists m', World.monsters w' !! i = Some m'
                   /\ Monster.alive m' = Monster.alive m
                   /\ Monster.inTunnel m' = Monster.inTunnel m
                   /\ Monster.chasing m' = Monster.chasing m
                   /\ Monster.homeTunnel m' = Monster.homeTunnel m
                   /\ (Monster.alive m = false -> m' = m)
                   /\ (Monster.inTunnel m = false ->
                       Monster.chasing m = false -> m' = m))
  /\ (forall i d, World.dragons w !! i = Some d ->
        exists d', World.dragons w' !! i = Some d'
                   /\ Dragon.alive d' = Dragon.alive d
                   /\ Dragon.inTunnel d' = Dragon.inTunnel d
                   /\ Dragon.chasing d' = Dragon.chasing d
                   /\ Dragon.homeTunnel d' = Dragon.homeTunnel d
                   /\ (Dragon.alive d = false -> d' = d)
                   /\ (Dragon.inTunnel d = false ->
                       Dragon.chasing d = false -> d' = d)).
Proof.
  intros H.
  destruct (MoveEnemies_moved w w' H)
    as (H1 & H2 & H3 & H4 & _ & _ & Hm & Hd).
  do 4 (split; [assumption|]).
  split; [eapply Forall2_length; exact Hm|].
  split; [eapply Forall2_length; exact Hd|].
  split.
  - intros i m Hi.
    destruct (Forall2_lookup_r _ _ _ _ _ Hm Hi) as (m' & Hi' & Hmm).
    exists m'. split; [exact Hi' | exact Hmm].
  - intros i d Hi.
    destruct (Forall2_lookup_r _ _ _ _ _ Hd Hi) as (d' & Hi' & Hdd).
    exists d'. split; [exact Hi' | exact Hdd].
Qed.

Lemma dead_enemies_do_not_move_witness :
  let dead := Monster.set_alive false (Monster.alert (Monster.new 64 96 (Some 0%nat))) in
  let w := sample_world (sample_player 100 100 3 0)
             [dead; Monster.new 64 96 (Some 0%nat)] []
             [Tunnel.new 1 3 5 HORIZONTAL] 0 in
  exists w',
    MoveEnemies w = Some w'
    /\ World.monsters w' !! 0%nat = Some dead
    /\ length (World.monsters w') = 2%nat.
Proof.
  intros dead w.
  destruct (MoveEnemies w) as [w'|] eqn:E; [|vm_compute in E; discriminate E].
  exists w'. split; [reflexivity|].
  destruct (dead_enemies_do_not_move w w' E)
    as (_ & _ & _ & _ & Hlen & _ & Hm & _).
  split; [|exact Hlen].
  destruct (Hm 0%nat dead eq_refl) as (m' & Hm' & _ & _ & _ & _ & Hdead & _).
  rewrite Hm'. f_equal. apply Hdead. reflexivity.
Defined.

(* ------------------------------------------------------------------ *)
(** ** The harpoon rectangle *)
(* ------------------------------------------------------------------ *)

Lemma add_half z :
  0 <= z < 800 -> F32.add (F32.of_int z) (F32.of_int 16) = F32.of_int (z + 16).
Proof.
  intros Hz.
  assert (Hall : all_below 800
            (fun k => bool_decide
               (F32.add (F32.of_int k) (F32.of_int 16) = F32.of_int (k + 16)))
          = true)
    by (vm_compute; reflexivity).
  pose proof (all_below_spec _ _ Hall z) as H. cbv beta in H.
  apply bool_decide_eq_true_1 in H; [exact H | lia].
Qed.

Lemma sub_two z :
  0 <= z < 800 -> F32.sub (F32.of_int z) (F32.of_int 2) = F32.of_int (z - 2).
Proof.
  intros Hz.
  assert (Hall : all_below 800
            (fun k => bool_decide
               (F32.sub (F32.of_int k) (F32.of_int 2) = F32.of_int (k - 2)))
          = true)
    by (vm_compute; reflexivity).
  pose proof (all_below_spec _ _ Hall z) as H. cbv beta in H.
  apply bool_decide_eq_true_1 in H; [exact H | lia].
Qed.

Lemma add_reach z :
  0 <= z < 800 ->
  F32.add (F32.of_int z) (F32.of_int (-50)) = F32.of_int (z - 50).
Proof.
  intros Hz.
  assert (Hall : all_below 800
            (fun k => bool_decide
               (F32.add (F32.of_int k) (F32.of_int (-50)) = F32.of_int (k - 50)))
          = true)
    by (vm_compute; reflexivity).
  pose proof (all_below_spec _ _ Hall z) as H. cbv beta in H.
  apply bool_decide_eq_true_1 in H; [exact H | lia].
Qed.

(** X19.  The harpoon rectangle of a player on a whole pixel of the
    screen: a bar of 50 by 4 pixels that starts at the centre line of the
    player and reaches 50 pixels in the direction of the aim, to the
    right or down from the centre, to the left or up by way of
    [MakeNormalizedRect].  The binary32 arithmetic is exact. *)
Theorem harpoonRect_geometry (p : Player.t) (x y : Z) :
  Player.pos p = Vector2.mk (F32.of_int x) (F32.of_int y) ->
  0 <= x <= SCREEN_W - Player.size -> 0 <= y <= SCREEN_H - Player.size ->
  (Player.harpoonDir p = Vector2.mk (F32.of_int 1) (F32.of_int 0) ->
   Main.harpoonRect p
   = Rectangle.mk (F32.of_int (x + 16)) (F32.of_int (y + 14))
                  (F32.of_int 50) (F32.of_int 4))
  /\ (Player.harpoonDir p = Vector2.mk (F32.of_int (-1)) (F32.of_int 0) ->
      Main.harpoonRect p
      = Rectangle.mk (F32.of_int (x - 34)) (F32.of_int (y + 14))
                     (F32.of_int 50) (F32.of_int 4))
  /\ (Player.harpoonDir p = Vector2.mk (F32.of_int 0) (F32.of_int (-1)) ->
      Main.harpoonRect p
      = Rectangle.mk (F32.of_int (x + 14)) (F32.of_int (y - 34))
                     (F32.of_int 4) (F32.of_int 50))
  /\ (Player.harpoonDir p = Vector2.mk (F32.of_int 0) (F32.of_int 1) ->
      Main.harpoonRect p
      = Rectangle.mk (F32.of_int (x + 14)) (F32.of_int (y + 16))
                     (F32.of_int 4) (F32.of_int 50)).
Proof.
  unfold SCREEN_W, SCREEN_H, Player.size, GRID_WIDTH, GRID_HEIGHT, TILE_SIZE.
  intros Hp Hx Hy.
  assert (Hq : Z.quot Player.size 2 = 16) by reflexivity.
  assert (L4 : F32.ltb (F32.of_int 4) (F32.of_int 0) = false) by reflexivity.
  assert (L50 : F32.ltb (F32.of_int 50) (F32.of_int 0) = false) by reflexivity.
  assert (Ln : F32.ltb (F32.of_int (-50)) (F32.of_int 0) = true) by reflexivity.
  assert (Mn : F32.mul (F32.of_int (-50)) (F32.of_int (-1)) = F32.of_int 50)
    by reflexivity.
  assert (M1 : F32.mul (F32.of_int 1) (F32.of_int 50) = F32.of_int 50)
    by reflexivity.
  assert (M2 : F32.mul (F32.of_int (-1)) (F32.of_int 50) = F32.of_int (-50))
    by reflexivity.
  assert (N1 : F32.neqb (F32.of_int 1) (F32.of_int 0) = true) by reflexivity.
  assert (N2 : F32.neqb (F32.of_int (-1)) (F32.of_int 0) = true) by reflexivity.
  assert (N0 : F32.neqb (F32.of_int 0) (F32.of_int 0) = false) by reflexivity.
  repeat split; intros Hd; unfold Main.harpoonRect;
    rewrite Hd, Hp, Hq; cbn [Vector2.x Vector2.y];
    rewrite ?N1, ?N2, ?N0, ?M1, ?M2; unfold MakeNormalizedRect;
    rewrite ?L4, ?L50, ?Ln, ?Mn;
    rewrite !add_half by lia; rewrite ?sub_two by lia;
    rewrite ?add_reach by lia;
    f_equal; f_equal; lia.
Qed.

Lemma harpoonRect_geometry_witness :
  Main.harpoonRect (Player_Move (mkInput false true false false true false
                                         false false true true)
                                (sample_player 100 100 3 0))
  = Rectangle.mk (F32.of_int 64) (F32.of_int 114) (F32.of_int 50) (F32.of_int 4).
Proof.
  apply (proj1 (proj2 (harpoonRect_geometry
                         (Player_Move (mkInput false true false false true
                                               false false false true true)
                                      (sample_player 100 100 3 0))
                         98 100 eq_refl ltac:(vm_compute; split; discriminate)
                         ltac:(vm_compute; split; discriminate)))).
  reflexivity.
Defined.

(* ------------------------------------------------------------------ *)
(** ** The books of one frame *)
(* ------------------------------------------------------------------ *)

(** X20.  The collision part of a frame, from any world: the score
    does not go down, and what it gains is what the level loses in live
    enemies and fruit (100 a monster, 200 a dragon, 500 the fruit); the
    player loses at most one life, however many enemies overlap it; the
    high score does not go down, and if it changes it becomes the score;
    and no enemy comes back to life. *)
Theorem frame_accounting (check : Rectangle.t -> Rectangle.t -> bool)
    (ok1 ok2 : bool) (file : option Z) (w : World.t) :
  let w' := (Main.ResolveCollisions check ok1 ok2 file w).1 in
  Player.score (World.player w) <= Player.score (World.player w')
  /\ Player.score (World.player w') + points_left w'
     = Player.score (World.player w) + points_left w
  /\ (Player.lives (World.player w') = Player.lives (World.player w)
      \/ Player.lives (World.player w') = Player.lives (World.player w) - 1)
  /\ World.highScore w <= World.highScore w'
  /\ (World.highScore w' = World.highScore w
      \/ World.highScore w' = Player.score (World.player w'))
  /\ (forall i m', World.monsters w' !! i = Some m' ->
        Monster.alive m' = true -> World.monsters w !! i = Some m')
  /\ (forall i d', World.dragons w' !! i = Some d' ->
        Dragon.alive d' = true -> World.dragons w !! i = Some d').
Proof.
  intros w'.
  destruct (ResolveCollisions_keep check ok1 ok2 file w)
    as (_ & _ & _ & _ & _ & _ & Km & Kd).
  fold w' in Km, Kd.
  assert (Hbooks :
    Player.score (World.player w) <= Player.score (World.player w')
    /\ Player.score (World.player w') + points_left w'
       = Player.score (World.player w) + points_left w
    /\ (Player.lives (World.player w') = Player.lives (World.player w)
        \/ Player.lives (World.player w') = Player.lives (World.player w) - 1)
    /\ World.highScore w <= World.highScore w'
    /\ (World.highScore w' = World.highScore w
        \/ World.highScore w' = Player.score (World.player w'))).
  { destruct (before_death_tally check w) as (B1 & B2 & B3 & _ & B5 & _).
    cbv zeta in *. subst w'. unfold Main.ResolveCollisions.
    change (Main.FruitCollision check
              (Main.HandleHarpoon check (Main.PlayerCollisions check w)))
      with (before_death_resolution check w).
    revert B1 B2 B3 B5.
    generalize (before_death_resolution check w). intros b B1 B2 B3 B5.
    assert (Hpb : forall p st hs t,
               points_left (World.mk p (World.monsters b) (World.dragons b)
                              (World.tunnels b) (World.fruit b) st hs t)
               = points_left b) by reflexivity.
    unfold Main.DeathResolution, Main.WinCheck, World.SaveHighScore.
    unfold World.set_respawnTimer, World.set_player, World.set_state,
      World.set_highScore, Player.set_deathFlashTimer, Player.set_lives.
    cbn [World.player World.monsters World.dragons World.tunnels World.fruit
         World.state World.highScore World.respawnTimer
         Player.score Player.lives Player.alive].
    repeat match goal with
           | |- context [if ?a >? ?b then _ else _] =>
               destruct (Z.gtb_spec a b)
           | |- context [if ?c then _ else _] => destruct c eqn:?
           end;
      cbn [fst snd World.player World.monsters World.dragons World.tunnels
           World.fruit World.state World.highScore World.respawnTimer
           Player.score Player.lives Player.alive] in *;
      rewrite ?Hpb; repeat split; try lia; auto. }
  destruct Hbooks as (H1 & H2 & H3 & H4 & H5).
  do 5 (split; [assumption|]).
  split.
  - intros i m' Hi Ha.
    destruct (Forall2_lookup_l _ _ _ _ _ Km Hi) as (m & Hm & [-> | [_ ->]]);
      [exact Hm | discriminate Ha].
  - intros i d' Hi Ha.
    destruct (Forall2_lookup_l _ _ _ _ _ Kd Hi) as (d & Hd & [-> | [_ ->]]);
      [exact Hd | discriminate Ha].
Qed.

(** X21.  The last frame of the respawn countdown starts a new level
    and keeps the books: the state is still [PLAYING], the countdown is
    0, the player is alive at pixel (100, 100), and score, lives and high
    score are as before; the fruit is back, every tunnel of the new
    layout is dormant and every enemy is alive and on patrol, whatever
    was killed or collected before the death. *)
Theorem respawn_starts_new_level (rand_seq : nat -> N) (fuel : nat)
    (check : Rectangle.t -> Rectangle.t -> bool) (inp : Input) (g : Game.t) :
  (51 <= fuel)%nat -> dug_dims (Game.dug g) ->
  World.state (Game.world g) = PLAYING ->
  World.respawnTimer (Game.world g) = 1 ->
  exists g',
    Game.Update rand_seq fuel check inp g = Some g'
    /\ World.state (Game.world g') = PLAYING
    /\ World.respawnTimer (Game.world g') = 0
    /\ Player.alive (World.player (Game.world g')) = true
    /\ Player.pos (World.player (Game.world g'))
       = Vector2.mk (F32.of_int 100) (F32.of_int 100)
    /\ Player.score (World.player (Game.world g'))
       = Player.score (World.player (Game.world g))
    /\ Player.lives (World.player (Game.world g'))
       = Player.lives (World.player (Game.world g))
    /\ World.highScore (Game.world g') = World.highScore (Game.world g)
    /\ Fruit.collected (World.fruit (Game.world g')) = false
    /\ Forall (fun t => Tunnel.activated t = false)
              (World.tunnels (Game.world g'))
    /\ Forall (fun m => Monster.alive m = true /\ Monster.inTunnel m = true
                        /\ Monster.chasing m = false)
              (World.monsters (Game.world g'))
    /\ Forall (fun d => Dragon.alive d = true /\ Dragon.inTunnel d = true
                        /\ Dragon.chasing d = false)
              (World.dragons (Game.world g')).
Proof.
  intros Hf Hd Hst Ht.
  unfold Game.Update. rewrite Hst. unfold Game.UpdatePlaying. cbv zeta.
  rewrite Ht. cbn [Z.gtb Z.compare World.respawnTimer World.set_respawnTimer
                   Z.sub Z.add Z.opp Z.pos_sub Z.eqb].
  destruct (Game_ResetLevel_spec rand_seq fuel Hf
              (Game.mk (World.set_player
                          (Player.set_alive true
                             (World.player (World.set_respawnTimer 0 (Game.world g))))
                          (World.set_respawnTimer 0 (Game.world g)))
                       (Game.dug g) (Game.highscore_txt g) (Game.rand_calls g))
              Hd)
    as (w' & c & d' & Ew & _ & Hr & _ & _).
  cbn [Game.world Game.dug Game.highscore_txt Game.rand_calls] in Ew, Hr.
  eexists. split; [exact Hr|].
  destruct (ResetLevel_fields _ _ _ _ _ _ Ew) as (Ep & Efr & Es & Eh & Et & _).
  destruct (ResetLevel_enemies _ _ _ _ _ _ Ew) as (_ & Hms & Hds).
  destruct (ResetLevel_tunnels _ _ _ _ _ _ Ew) as (layout & c0 & _ & Hts).
  cbn [Game.world]. rewrite Ep, Efr, Es, Eh, Et, Hts.
  cbn [World.set_player World.set_respawnTimer World.player World.state
       World.highScore World.respawnTimer World.fruit Player.ResetTo
       Player.set_alive Player.score Player.lives Player.alive Player.pos
       Fruit.collected].
  split; [exact Hst|]. do 7 (split; [reflexivity|]).
  split; [|split].
  - apply Forall_fmap, Forall_forall. intros t _. reflexivity.
  - eapply Forall_impl; [exact Hms|]. intros m (i & h & _ & ->). repeat split.
  - eapply Forall_impl; [exact Hds|]. intros d (i & h & _ & ->). repeat split.
Qed.

Lemma respawn_starts_new_level_witness :
  let g := Game.mk (World.set_respawnTimer 1
                      (sample_world (sample_player 300 200 2 700) [] [] [] 0))
                   dug_new None 0 in
  exists g',
    Game.Update lcg_rand 51 Main.raylib_CheckCollisionRecs no_key g = Some g'
    /\ World.respawnTimer (Game.world g') = 0
    /\ Player.score (World.player (Game.world g')) = 700
    /\ Player.lives (World.player (Game.world g')) = 2.
Proof.
  intros g.
  destruct (respawn_starts_new_level lcg_rand 51 Main.raylib_CheckCollisionRecs
              no_key g (le_n 51) dug_new_dims eq_refl eq_refl)
    as (g' & Hu & _ & Ht & _ & _ & Hs & Hl & _).
  exists g'. split; [exact Hu|]. split; [exact Ht|].
  split; [exact Hs | exact Hl].
Defined.
